(** * The two-tier cache of the practice tracker (src/utils/cache.ts)

    A shallow embedding of [CacheManager]: key derivation, fingerprinting
    with the cycle-safe serializer, the memory tier with its running byte
    total and eviction, the file tier with one metadata document per
    namespace, and the lifecycle operations [get], [set], [invalidate],
    [getCacheStatus] and [cleanup].

    Conventions of the model.
    - Time.  An operation takes the value of [Date.now()] as its argument
      [now]; the calls of [Date.now()] made within one operation are taken
      to return the same instant.
    - Numbers are integers.  [maxMemorySize * 0.8] is 83886080: the
      floating-point product of 104857600 and 0.8 rounds to that integer.
    - Strings are strings of bytes, so the length of a string is its
      [Buffer.byteLength].
    - A payload is a JavaScript value made of [null], booleans, numbers,
      strings, arrays and plain objects, given with the heap of the
      objects it refers to, which may be cyclic.
    - The disk is the content of the cache directory: a map from
      namespace to directory.  A namespace is the name of a directory
      right below the cache directory.  Writing a file fails when its
      directory does not exist, and in no other way.
    - Logging does not change the state and is left out.

    The file also covers what stands around the cache: [withRetry]
    (src/utils/retry.ts) with the errors it raises
    (src/utils/errors.ts), and the callers [LeetCode.fetchQuestion],
    [Grind.getQuestions] and [Terminal.clearAllCaches].  There the
    network, the browser and the clock are parameters. *)

From Stdlib Require Import ZArith NArith List String Ascii Lia Bool Permutation
  DecimalString Sorted.
From stdpp Require Import gmap strings list fin_maps.

Local Open Scope string_scope.
Local Open Scope Z_scope.

(** ** Library layer: Node's [crypto.createHash('md5')]

    The digest of RFC 1321 over the bytes of a string, printed as 32
    lower-case hexadecimal digits. *)

Module MD5.

Definition mask32 : Z := 0xFFFFFFFF.
Definition add32 (a b : Z) : Z := Z.land (a + b) mask32.
Definition not32 (a : Z) : Z := Z.lxor a mask32.
Definition rotl32 (x c : Z) : Z :=
  Z.lor (Z.land (Z.shiftl x c) mask32) (Z.shiftr x (32 - c)).

Definition K : list Z :=
  [ 0xd76aa478; 0xe8c7b756; 0x242070db; 0xc1bdceee;
    0xf57c0faf; 0x4787c62a; 0xa8304613; 0xfd469501;
    0x698098d8; 0x8b44f7af; 0xffff5bb1; 0x895cd7be;
    0x6b901122; 0xfd987193; 0xa679438e; 0x49b40821;
    0xf61e2562; 0xc040b340; 0x265e5a51; 0xe9b6c7aa;
    0xd62f105d; 0x02441453; 0xd8a1e681; 0xe7d3fbc8;
    0x21e1cde6; 0xc33707d6; 0xf4d50d87; 0x455a14ed;
    0xa9e3e905; 0xfcefa3f8; 0x676f02d9; 0x8d2a4c8a;
    0xfffa3942; 0x8771f681; 0x6d9d6122; 0xfde5380c;
    0xa4beea44; 0x4bdecfa9; 0xf6bb4b60; 0xbebfbc70;
    0x289b7ec6; 0xeaa127fa; 0xd4ef3085; 0x04881d05;
    0xd9d4d039; 0xe6db99e5; 0x1fa27cf8; 0xc4ac5665;
    0xf4292244; 0x432aff97; 0xab9423a7; 0xfc93a039;
    0x655b59c3; 0x8f0ccc92; 0xffeff47d; 0x85845dd1;
    0x6fa87e4f; 0xfe2ce6e0; 0xa3014314; 0x4e0811a1;
    0xf7537e82; 0xbd3af235; 0x2ad7d2bb; 0xeb86d391 ].

Definition shifts : list Z :=
  [ 7; 12; 17; 22; 7; 12; 17; 22; 7; 12; 17; 22; 7; 12; 17; 22;
    5; 9; 14; 20; 5; 9; 14; 20; 5; 9; 14; 20; 5; 9; 14; 20;
    4; 11; 16; 23; 4; 11; 16; 23; 4; 11; 16; 23; 4; 11; 16; 23;
    6; 10; 15; 21; 6; 10; 15; 21; 6; 10; 15; 21; 6; 10; 15; 21 ].

Record regs := Regs { ra : Z; rb : Z; rc : Z; rd : Z }.

Definition init : regs :=
  Regs 0x67452301 0xefcdab89 0x98badcfe 0x10325476.

(** One of the 64 operations on a block [M] of sixteen words. *)
Definition round (M : list Z) (r : regs) (i : nat) : regs :=
  let '(Regs a b c d) := r in
  let '(f, g) :=
    if (i <? 16)%nat then
      (Z.lor (Z.land b c) (Z.land (not32 b) d), i)
    else if (i <? 32)%nat then
      (Z.lor (Z.land d b) (Z.land (not32 d) c), ((5 * i + 1) mod 16)%nat)
    else if (i <? 48)%nat then
      (Z.lxor (Z.lxor b c) d, ((3 * i + 5) mod 16)%nat)
    else
      (Z.lxor c (Z.lor b (not32 d)), ((7 * i) mod 16)%nat) in
  let f' := add32 (add32 (add32 f a) (nth i K 0)) (nth g M 0) in
  Regs d (add32 b (rotl32 f' (nth i shifts 0))) b c.

Definition block (r : regs) (M : list Z) : regs :=
  let '(Regs a b c d) := fold_left (round M) (seq 0 64) r in
  Regs (add32 (ra r) a) (add32 (rb r) b) (add32 (rc r) c) (add32 (rd r) d).

(** Little-endian bytes of a word, least significant first. *)
Fixpoint le_bytes (n : nat) (x : Z) : list Z :=
  match n with
  | O => []
  | S n' => Z.land x 0xFF :: le_bytes n' (Z.shiftr x 8)
  end.

Fixpoint le_word (bs : list Z) : Z :=
  match bs with
  | [] => 0
  | b :: bs' => b + 256 * le_word bs'
  end.

(** The message followed by 0x80, zeros up to 56 modulo 64, and the bit
    length on eight bytes. *)
Definition pad (msg : list Z) : list Z :=
  let n := length msg in
  let zeros := ((119 - n mod 64) mod 64)%nat in
  msg ++ 0x80 :: repeat 0 zeros ++ le_bytes 8 (8 * Z.of_nat n).

Fixpoint chunks (fuel : nat) (k : nat) (bs : list Z) : list (list Z) :=
  match fuel with
  | O => []
  | S fuel' =>
      match bs with
      | [] => []
      | _ => firstn k bs :: chunks fuel' k (skipn k bs)
      end
  end.

Definition words (blk : list Z) : list Z :=
  map le_word (chunks 16 4 blk).

Definition digest (msg : list Z) : list Z :=
  let p := pad msg in
  let '(Regs a b c d) :=
    fold_left block (map words (chunks (length p) 64 p)) init in
  le_bytes 4 a ++ le_bytes 4 b ++ le_bytes 4 c ++ le_bytes 4 d.

Definition hex_digit (n : Z) : ascii :=
  nth (Z.to_nat n)
      (list_ascii_of_string "0123456789abcdef") "0"%char.

Fixpoint hex (bs : list Z) : string :=
  match bs with
  | [] => ""
  | b :: bs' =>
      String (hex_digit (Z.shiftr b 4))
             (String (hex_digit (Z.land b 0xF)) (hex bs'))
  end.

Definition bytes_of_string (s : string) : list Z :=
  map (fun c => Z.of_N (N_of_ascii c)) (list_ascii_of_string s).

Definition md5hex (s : string) : string := hex (digest (bytes_of_string s)).

End MD5.

(** ** Library layer: JavaScript values and [JSON.stringify]

    A value handed to the cache is a JavaScript value: a primitive, or a
    reference to an array or object living in the heap.  References make
    sharing and cycles expressible ([a.self = a]).  Numbers are the
    integer-valued ones. *)

Module JS.

Inductive value : Type :=
  | Null
  | Bool (b : bool)
  | Num (n : Z)
  | Str (s : string)
  | Ref (l : nat).

Inductive object : Type :=
  | Arr (items : list value)
  | Obj (fields : list (string * value)).

Definition heap := list object.

(** A payload: the value passed by the caller together with the heap its
    references point into. *)
Record payload : Type := Payload { store : heap; root : value }.

(** Every reference of a JavaScript program points at an object; the
    default only makes the lookup total. *)
Definition deref (h : heap) (l : nat) : object := nth l h (Obj []).

Definition dquote : string := String "034"%char EmptyString.
Definition backslash : string := String "092"%char EmptyString.

Definition number_to_string (n : Z) : string :=
  DecimalString.NilZero.string_of_int (Z.to_int n).

Definition hex4 (n : nat) : string :=
  String (MD5.hex_digit 0)
    (String (MD5.hex_digit 0)
       (String (MD5.hex_digit (Z.of_nat (n / 16)))
          (String (MD5.hex_digit (Z.of_nat (n mod 16))) EmptyString))).

(** [QuoteJSONString]: the two-character escapes, [\u00XX] for the other
    control characters, every other byte as it is. *)
Definition escape (c : ascii) : string :=
  let n := nat_of_ascii c in
  if (n =? 34)%nat then backslash ++ dquote
  else if (n =? 92)%nat then backslash ++ backslash
  else if (n =? 8)%nat then backslash ++ "b"
  else if (n =? 9)%nat then backslash ++ "t"
  else if (n =? 10)%nat then backslash ++ "n"
  else if (n =? 12)%nat then backslash ++ "f"
  else if (n =? 13)%nat then backslash ++ "r"
  else if (n <? 32)%nat then backslash ++ "u" ++ hex4 n
  else String c EmptyString.

Fixpoint escape_all (s : string) : string :=
  match s with
  | EmptyString => EmptyString
  | String c s' => escape c ++ escape_all s'
  end.

Definition quote (s : string) : string := dquote ++ escape_all s ++ dquote.

(** [JSON.stringify] of a value that is [null] or not an object. *)
Definition stringify_primitive (v : value) : string :=
  match v with
  | Null => "null"
  | Bool true => "true"
  | Bool false => "false"
  | Num n => number_to_string n
  | Str s => quote s
  | Ref _ => "{}"
  end.

Definition newline : string := String "010"%char EmptyString.

Fixpoint sequence {A : Type} (l : list (option A)) : option (list A) :=
  match l with
  | [] => Some []
  | None :: _ => None
  | Some x :: l' =>
      match sequence l' with
      | Some xs => Some (x :: xs)
      | None => None
      end
  end.

(** [JSON.stringify(v, null, 2)].  [stack] holds the objects being
    serialized, as in [SerializeJSONObject]; meeting one of them again is
    the [TypeError] for a circular structure, rendered as [None].  A path
    longer than the heap repeats an object, so running out of fuel is the
    same error. *)
Fixpoint stringify_indent (fuel : nat) (h : heap) (stack : list nat)
    (indent : string) (v : value) : option string :=
  match v with
  | Ref l =>
      match fuel with
      | O => None
      | S fuel' =>
          if existsb (Nat.eqb l) stack then None
          else
            let inner := indent ++ "  " in
            let close_ := newline ++ indent in
            let sep := "," ++ newline ++ inner in
            match deref h l with
            | Arr [] => Some "[]"
            | Arr items =>
                match sequence (map (stringify_indent fuel' h (l :: stack) inner) items) with
                | Some parts =>
                    Some ("[" ++ newline ++ inner ++ String.concat sep parts ++ close_ ++ "]")
                | None => None
                end
            | Obj [] => Some "{}"
            | Obj fields =>
                match sequence
                        (map (fun kv : string * value =>
                                match stringify_indent fuel' h (l :: stack) inner (snd kv) with
                                | Some s => Some (quote (fst kv) ++ ": " ++ s)
                                | None => None
                                end) fields) with
                | Some parts =>
                    Some ("{" ++ newline ++ inner ++ String.concat sep parts ++ close_ ++ "}")
                | None => None
                end
            end
      end
  | _ => Some (stringify_primitive v)
  end.

Definition fuel_for (h : heap) : nat := S (length h).

Definition byteLength (s : string) : Z := Z.of_nat (String.length s).

End JS.

(** ** Library layer: the insertion-ordered [Map] of JavaScript

    [Map.prototype.set] on a present key replaces the value where it
    stands; on a new key it appends.  [Array.from(map.entries())] lists
    the pairs in that order. *)

Module JsMap.
Section Ops.
Context {V : Type}.

Fixpoint get (k : string) (m : list (string * V)) : option V :=
  match m with
  | [] => None
  | (k', v) :: m' => if String.eqb k k' then Some v else get k m'
  end.

Fixpoint set (k : string) (v : V) (m : list (string * V)) : list (string * V) :=
  match m with
  | [] => [(k, v)]
  | (k', v') :: m' =>
      if String.eqb k k' then (k, v) :: m' else (k', v') :: set k v m'
  end.

Fixpoint delete (k : string) (m : list (string * V)) : list (string * V) :=
  match m with
  | [] => []
  | (k', v) :: m' =>
      if String.eqb k k' then delete k m' else (k', v) :: delete k m'
  end.

Definition keys (m : list (string * V)) : list string := map fst m.
End Ops.
End JsMap.

(** ** Data model (the interfaces of cache.ts) *)

Module CacheOptions.
Record t : Type := Make {
  ttl : option Z;          (* time to live in milliseconds *)
  maxSize : option Z;
  compress : option bool
}.
Definition none : t := Make None None None.
Definition with_ttl (d : Z) : t := Make (Some d) None None.
End CacheOptions.

Module CacheEntry.
Record t : Type := Make {
  data : JS.payload;
  timestamp : Z;
  ttl : Z;
  size : Z;
  key : string
}.
Definition with_size (e : t) (sz : Z) : t :=
  Make (data e) (timestamp e) (ttl e) sz (key e).
End CacheEntry.

Module CacheMetadata.
Record t : Type := Make {
  key : string;
  timestamp : Z;
  ttl : Z;
  size : Z;
  fingerprint : string;
  accessed : Z
}.
Definition with_accessed (r : t) (now : Z) : t :=
  Make (key r) (timestamp r) (ttl r) (size r) (fingerprint r) now.
End CacheMetadata.

Module NamespaceCacheStatus.
Record t : Type := Make {
  totalEntries : nat;
  validEntries : nat;
  totalSize : Z;
  oldestEntry : option Z;
  newestEntry : option Z
}.
End NamespaceCacheStatus.

Module CacheStatusReport.
Record memory : Type := Memory { entries : nat; size : Z; maxSize : Z }.
Record t : Type := Make {
  memoryCache : memory;
  fileCache : list (string * NamespaceCacheStatus.t)
}.
End CacheStatusReport.

(** ** The file tier on disk

    The cache looks at the text of a file only through [JSON.parse] and
    [Buffer.byteLength], so a text is kept as what those two return: its
    length in bytes and the document it parses to, or the fact that
    [JSON.parse] rejects it.  [JSON.parse] of a text written by
    [JSON.stringify] gives back the document that was written.

    A namespace directory [<cwd>/cache/<namespace>] holds one entry file
    [<key>.json] per key and the document [metadata.json]; keys have the
    form [<namespace>_<digest>], so no entry file bears that name. *)

Inductive entry_file : Type :=
  | EntryText (bytes : N) (entry : CacheEntry.t)
  | EntryCorrupt (bytes : N).

Inductive metadata_file : Type :=
  | MetadataText (records : gmap string CacheMetadata.t)
  | MetadataCorrupt.

Record directory : Type := Directory {
  entry_files : gmap string entry_file;
  metadata_json : option metadata_file
}.

Definition empty_directory : directory := Directory ∅ None.

(** The directories below [<cwd>/cache], by namespace. *)
Abbreviation filesystem := (gmap string directory).

Module fs.

(** [fs.existsSync(path.join(cacheDir, namespace))] *)
Definition existsDir (disk : filesystem) (namespace : string) : bool :=
  match disk !! namespace with Some _ => true | None => false end.

(** The entry file [<namespace>/<key>.json], when [fs.existsSync] holds. *)
Definition entryFile (disk : filesystem) (namespace key : string) : option entry_file :=
  match disk !! namespace with
  | Some dir => entry_files dir !! key
  | None => None
  end.

(** The file [<namespace>/metadata.json], when [fs.existsSync] holds. *)
Definition metadataFile (disk : filesystem) (namespace : string) : option metadata_file :=
  match disk !! namespace with
  | Some dir => metadata_json dir
  | None => None
  end.

(** [fs.writeFileSync] of an entry file; [None] is the ENOENT raised
    when the namespace directory does not exist. *)
Definition writeEntryFile (disk : filesystem) (namespace key : string)
    (f : entry_file) : option filesystem :=
  match disk !! namespace with
  | Some dir =>
      Some (<[namespace := Directory (<[key := f]> (entry_files dir)) (metadata_json dir)]> disk)
  | None => None
  end.

Definition writeMetadataFile (disk : filesystem) (namespace : string)
    (f : metadata_file) : option filesystem :=
  match disk !! namespace with
  | Some dir => Some (<[namespace := Directory (entry_files dir) (Some f)]> disk)
  | None => None
  end.

(** [fs.unlinkSync] of an entry file known to exist. *)
Definition unlinkEntryFile (disk : filesystem) (namespace key : string) : filesystem :=
  match disk !! namespace with
  | Some dir =>
      <[namespace := Directory (delete key (entry_files dir)) (metadata_json dir)]> disk
  | None => disk
  end.

(** [fs.rmSync(path, {recursive: true})] of a namespace directory. *)
Definition rmSync (disk : filesystem) (namespace : string) : filesystem :=
  delete namespace disk.

(** [fs.mkdirSync(path, {recursive: true})] of a namespace directory: an
    existing directory is left as it is. *)
Definition mkdirSync (disk : filesystem) (namespace : string) : filesystem :=
  match disk !! namespace with
  | Some _ => disk
  | None => <[namespace := empty_directory]> disk
  end.

End fs.

(** ** The cache manager *)

Module CacheManager.

(** The instance: the memory tier, its running byte total, and the disk
    below [cacheDir]. *)
Record t : Type := Make {
  memoryCache : list (string * CacheEntry.t);
  currentMemorySize : Z;
  disk : filesystem
}.

Definition maxMemorySize : Z := 100 * 1024 * 1024.

Definition subdirs : list string := ["grind75"; "leetcode"; "companies"].

(** What an [async] method leaves behind: a resolved promise, or one
    rejected with the error that escaped the method. *)
Inductive outcome : Type :=
  | Resolved (s : t)
  | Rejected (error : string) (s : t).

Definition state_of (o : outcome) : t :=
  match o with Resolved s => s | Rejected _ s => s end.

Definition ensureCacheDirectory (d : filesystem) : filesystem :=
  fold_left fs.mkdirSync subdirs d.

(** [getInstance()] on first use. *)
Definition create (d : filesystem) : t := Make [] 0 (ensureCacheDirectory d).

Definition generateKey (namespace identifier : string) : string :=
  namespace ++ "_" ++ MD5.md5hex identifier.

Definition circular_marker : string := JS.dquote ++ "[Circular]" ++ JS.dquote.
Definition error_marker : string := JS.dquote ++ "[Error serializing object]" ++ JS.dquote.

(** [safeStringify(obj, visited)].  The source shares one mutable [Set];
    every call that adds its object deletes it again before returning, so
    the set seen by a call is the chain of objects whose serialization is
    in progress, which is what [visited] holds here.  [None] is the
    running out of [fuel]. *)
Fixpoint safeStringify (fuel : nat) (h : JS.heap) (obj : JS.value)
    (visited : list nat) : option string :=
  match obj with
  | JS.Ref l =>
      match fuel with
      | O => None
      | S fuel' =>
          if existsb (Nat.eqb l) visited then Some circular_marker
          else
            let visited' := l :: visited in
            match JS.deref h l with
            | JS.Arr items =>
                match JS.sequence
                        (map (fun item => safeStringify fuel' h item visited') items) with
                | Some parts => Some ("[" ++ String.concat "," parts ++ "]")
                | None => None
                end
            | JS.Obj fields =>
                match JS.sequence
                        (map (fun kv : string * JS.value =>
                                match safeStringify fuel' h (snd kv) visited' with
                                | Some s => Some (JS.dquote ++ fst kv ++ JS.dquote ++ ":" ++ s)
                                | None => None
                                end) fields) with
                | Some parts => Some ("{" ++ String.concat "," parts ++ "}")
                | None => None
                end
            end
      end
  | _ => Some (JS.stringify_primitive obj)
  end.

Definition generateFingerprint (data : JS.payload) : option string :=
  match safeStringify (JS.fuel_for (JS.store data)) (JS.store data) (JS.root data) [] with
  | Some s => Some (MD5.md5hex s)
  | None => None
  end.

(** [JSON.stringify(entry, null, 2)]; [None] is its [TypeError] on a
    circular structure. *)
Definition stringify_entry (entry : CacheEntry.t) : option string :=
  let h := JS.store (CacheEntry.data entry) in
  match JS.stringify_indent (JS.fuel_for h) h [] "  " (JS.root (CacheEntry.data entry)) with
  | None => None
  | Some d =>
      let field (name value : string) := "  " ++ JS.quote name ++ ": " ++ value in
      let sep := "," ++ JS.newline in
      Some ("{" ++ JS.newline
            ++ field "data" d ++ sep
            ++ field "timestamp" (JS.number_to_string (CacheEntry.timestamp entry)) ++ sep
            ++ field "ttl" (JS.number_to_string (CacheEntry.ttl entry)) ++ sep
            ++ field "size" (JS.number_to_string (CacheEntry.size entry)) ++ sep
            ++ field "key" (JS.quote (CacheEntry.key entry))
            ++ JS.newline ++ "}")
  end.

Definition loadMetadata (d : filesystem) (namespace : string)
    : gmap string CacheMetadata.t :=
  match fs.metadataFile d namespace with
  | Some (MetadataText records) => records
  | Some MetadataCorrupt => ∅         (* JSON.parse throws, caught *)
  | None => ∅
  end.

Definition saveMetadata (d : filesystem) (namespace : string)
    (metadata : gmap string CacheMetadata.t) : filesystem :=
  match fs.writeMetadataFile d namespace (MetadataText metadata) with
  | Some d' => d'
  | None => d                         (* the write throws, caught *)
  end.

Definition isExpired (now timestamp ttl : Z) : bool := now - timestamp >? ttl.

(** [maxMemorySize * 0.8] *)
Definition evictionTarget : Z := maxMemorySize * 8 / 10.

(** [entries.sort((a, b) => a[1].timestamp - b[1].timestamp)], a stable
    sort. *)
Fixpoint insert_by_timestamp (x : string * CacheEntry.t)
    (l : list (string * CacheEntry.t)) : list (string * CacheEntry.t) :=
  match l with
  | [] => [x]
  | y :: l' =>
      if CacheEntry.timestamp (snd x) <=? CacheEntry.timestamp (snd y)
      then x :: y :: l'
      else y :: insert_by_timestamp x l'
  end.

Definition sort_by_timestamp (l : list (string * CacheEntry.t))
    : list (string * CacheEntry.t) :=
  foldr insert_by_timestamp [] l.

(** The [while] loop of [evictMemoryCache] over the sorted snapshot. *)
Fixpoint evict_loop (entries : list (string * CacheEntry.t)) (s : t) : t :=
  match entries with
  | [] => s
  | (key, entry) :: rest =>
      if currentMemorySize s >? evictionTarget then
        evict_loop rest
          (Make (JsMap.delete key (memoryCache s))
                (currentMemorySize s - CacheEntry.size entry)
                (disk s))
      else s
  end.

Definition evictMemoryCache (s : t) : t :=
  evict_loop (sort_by_timestamp (memoryCache s)) s.

(** [memoryCache.set(key, entry); currentMemorySize += size;] and the
    eviction check that follows, shared by [get] and [set]. *)
Definition addToMemory (key : string) (entry : CacheEntry.t) (sz : Z) (s : t) : t :=
  let s1 := Make (JsMap.set key entry (memoryCache s)) (currentMemorySize s + sz) (disk s) in
  if currentMemorySize s1 >? maxMemorySize then evictMemoryCache s1 else s1.

(** The part of [get] below the comment [Check file cache]. *)
Definition get_file (namespace key : string) (acceptExpired : bool) (now : Z) (s : t)
    : option JS.payload * t :=
  match fs.entryFile (disk s) namespace key with
  | Some (EntryText bytes entry) =>
      if negb (isExpired now (CacheEntry.timestamp entry) (CacheEntry.ttl entry))
         || acceptExpired
      then
        let sz := Z.of_N bytes in
        let s1 := addToMemory key (CacheEntry.with_size entry sz) sz s in
        let metadata := loadMetadata (disk s1) namespace in
        let s2 :=
          match metadata !! key with
          | Some r =>
              Make (memoryCache s1) (currentMemorySize s1)
                   (saveMetadata (disk s1) namespace
                      (<[key := CacheMetadata.with_accessed r now]> metadata))
          | None => s1
          end in
        (Some (CacheEntry.data entry), s2)
      else
        (None, Make (memoryCache s) (currentMemorySize s)
                    (fs.unlinkEntryFile (disk s) namespace key))
  | Some (EntryCorrupt _) => (None, s)     (* JSON.parse throws, caught *)
  | None => (None, s)
  end.

(** [get]: the value the promise resolves to ([None] for [null]) and the
    instance afterwards.  Nothing in [get] can raise outside its [try]. *)
Definition get (namespace identifier : string) (acceptExpired : bool) (now : Z) (s : t)
    : option JS.payload * t :=
  let key := generateKey namespace identifier in
  match JsMap.get key (memoryCache s) with
  | Some memoryEntry =>
      if negb (isExpired now (CacheEntry.timestamp memoryEntry) (CacheEntry.ttl memoryEntry))
         || acceptExpired
      then (Some (CacheEntry.data memoryEntry), s)
      else
        get_file namespace key acceptExpired now
          (Make (JsMap.delete key (memoryCache s))
                (currentMemorySize s - CacheEntry.size memoryEntry)
                (disk s))
  | None => get_file namespace key acceptExpired now s
  end.

Definition defaultTtl : Z := 24 * 60 * 60 * 1000.

(** [options.ttl || 24 * 60 * 60 * 1000] *)
Definition ttl_of (options : CacheOptions.t) : Z :=
  match CacheOptions.ttl options with
  | Some d => if d =? 0 then defaultTtl else d
  | None => defaultTtl
  end.

(** [set].  The fingerprint and [JSON.stringify(entry, null, 2)] are
    computed before the [try]: an error there rejects the promise.  The
    serialized entry still has [size: 0]; the size is assigned to the
    entry afterwards.  Inside the [try] only the write of the entry file
    can fail, and the [catch] swallows it.  The serializer of the
    fingerprint returns for every payload, so the first [Rejected] branch
    is never taken. *)
Definition set (namespace identifier : string) (data : JS.payload)
    (options : CacheOptions.t) (now : Z) (s : t) : outcome :=
  let key := generateKey namespace identifier in
  let ttl := ttl_of options in
  match generateFingerprint data with
  | None => Rejected "RangeError" s
  | Some fingerprint =>
      let entry0 := CacheEntry.Make data now ttl 0 key in
      match stringify_entry entry0 with
      | None => Rejected "TypeError" s
      | Some content =>
          let sz := JS.byteLength content in
          let entry := CacheEntry.with_size entry0 sz in
          match fs.writeEntryFile (disk s) namespace key
                  (EntryText (Z.to_N sz) entry0) with
          | None => Resolved s            (* the write throws, caught *)
          | Some d1 =>
              let metadata := loadMetadata d1 namespace in
              let d2 :=
                saveMetadata d1 namespace
                  (<[key := CacheMetadata.Make key now ttl sz fingerprint now]> metadata) in
              Resolved
                (addToMemory key entry sz
                   (Make (memoryCache s) (currentMemorySize s) d2))
          end
      end
  end.

(** [if (identifier)]: an absent or empty identifier is falsy. *)
Definition given (identifier : option string) : option string :=
  match identifier with
  | Some EmptyString => None
  | Some i => Some i
  | None => None
  end.

(** The loop [for (const [key] of Array.from(this.memoryCache.keys()))]
    of [invalidate].  The pattern [[key]] destructures each key, a
    string, and binds [key] to its first character; on an empty string it
    binds [undefined], and [key.startsWith] raises. *)
Fixpoint purge_loop (namespace : string) (keys : list string) (s : t) : outcome :=
  match keys with
  | [] => Resolved s
  | EmptyString :: _ => Rejected "TypeError" s
  | String c _ :: rest =>
      let key := String c EmptyString in
      purge_loop namespace rest
        (if String.prefix namespace key
         then Make (JsMap.delete key (memoryCache s)) (currentMemorySize s) (disk s)
         else s)
  end.

(** [invalidate].  With an identifier the entry leaves the memory tier
    (the running total is not changed), its file is unlinked and its
    record is deleted from the metadata document.  Without one the
    namespace directory is removed and made again, and the loop over the
    keys of the memory tier follows. *)
Definition invalidate (namespace : string) (identifier : option string) (s : t)
    : outcome :=
  match given identifier with
  | Some identifier =>
      let key := generateKey namespace identifier in
      let memory := JsMap.delete key (memoryCache s) in
      let d1 :=
        match fs.entryFile (disk s) namespace key with
        | Some _ => fs.unlinkEntryFile (disk s) namespace key
        | None => disk s
        end in
      let metadata := loadMetadata d1 namespace in
      Resolved
        (Make memory (currentMemorySize s)
              (saveMetadata d1 namespace (delete key metadata)))
  | None =>
      let d1 :=
        if fs.existsDir (disk s) namespace
        then fs.mkdirSync (fs.rmSync (disk s) namespace) namespace
        else disk s in
      purge_loop namespace (JsMap.keys (memoryCache s))
        (Make (memoryCache s) (currentMemorySize s) d1)
  end.

Definition minimum (l : list Z) : option Z :=
  match l with
  | [] => None
  | x :: l' => Some (fold_left Z.min l' x)
  end.

Definition maximum (l : list Z) : option Z :=
  match l with
  | [] => None
  | x :: l' => Some (fold_left Z.max l' x)
  end.

Definition namespaceStatus (now : Z) (d : filesystem) (ns : string)
    : NamespaceCacheStatus.t :=
  let metadata := loadMetadata d ns in
  let entries := map snd (map_to_list metadata) in
  let totalSize := fold_left (fun sum entry => sum + CacheMetadata.size entry) entries 0 in
  let validEntries :=
    List.filter
      (fun entry =>
         negb (isExpired now (CacheMetadata.timestamp entry) (CacheMetadata.ttl entry)))
      entries in
  NamespaceCacheStatus.Make
    (length entries) (length validEntries) totalSize
    (minimum (map CacheMetadata.timestamp entries))
    (maximum (map CacheMetadata.timestamp entries)).

Definition getCacheStatus (namespace : option string) (now : Z) (s : t)
    : CacheStatusReport.t :=
  let namespaces :=
    match given namespace with
    | Some ns => [ns]
    | None => subdirs
    end in
  CacheStatusReport.Make
    (CacheStatusReport.Memory
       (length (memoryCache s)) (currentMemorySize s) maxMemorySize)
    (map (fun ns => (ns, namespaceStatus now s.(disk) ns)) namespaces).

(** One turn of the loop over [Object.entries(metadata)] in [cleanup]. *)
Definition cleanup_step (namespace : string) (now : Z)
    (acc : filesystem * gmap string CacheMetadata.t * nat)
    (kv : string * CacheMetadata.t)
    : filesystem * gmap string CacheMetadata.t * nat :=
  let '(d, updated, removedCount) := acc in
  let '(key, entry) := kv in
  if isExpired now (CacheMetadata.timestamp entry) (CacheMetadata.ttl entry) then
    (match fs.entryFile d namespace key with
     | Some _ => fs.unlinkEntryFile d namespace key
     | None => d
     end, updated, S removedCount)
  else (d, <[key := entry]> updated, removedCount).

Definition cleanup_namespace (now : Z) (d : filesystem) (namespace : string)
    : filesystem :=
  let metadata := loadMetadata d namespace in
  let '(d', updated, removedCount) :=
    fold_left (cleanup_step namespace now) (map_to_list metadata) (d, ∅, O) in
  if (0 <? removedCount)%nat then saveMetadata d' namespace updated else d'.

Definition cleanup (now : Z) (s : t) : t :=
  Make (memoryCache s) (currentMemorySize s)
       (fold_left (cleanup_namespace now) subdirs (disk s)).

End CacheManager.

(** * Vocabulary of the claims *)

Section Vocabulary.
Import CacheManager.
Implicit Types (s : CacheManager.t) (d : filesystem) (ns key id : string).

(** ** Sequences of operations on one instance *)

Inductive operation : Type :=
  | OpGet (namespace identifier : string) (acceptExpired : bool) (now : Z)
  | OpSet (namespace identifier : string) (data : JS.payload)
          (options : CacheOptions.t) (now : Z)
  | OpInvalidate (namespace : string) (identifier : option string)
  | OpCleanup (now : Z).

(** The instance after one operation; a rejected promise leaves the
    instance as the method left it. *)
Definition step (s : CacheManager.t) (o : operation) : CacheManager.t :=
  match o with
  | OpGet ns id acceptExpired now => snd (get ns id acceptExpired now s)
  | OpSet ns id data options now => state_of (set ns id data options now s)
  | OpInvalidate ns identifier => state_of (invalidate ns identifier s)
  | OpCleanup now => cleanup now s
  end.

Definition run (ops : list operation) (s : CacheManager.t) : CacheManager.t :=
  fold_left step ops s.

(** ** The memory tier *)

Definition older_or_equal (a b : string * CacheEntry.t) : Prop :=
  CacheEntry.timestamp (snd a) ≤ CacheEntry.timestamp (snd b).

(** The sizes of the resident entries, added up. *)
Definition sum_sizes (m : list (string * CacheEntry.t)) : Z :=
  foldr (fun kv acc => CacheEntry.size (snd kv) + acc) 0 m.

Definition sizes_nonnegative (m : list (string * CacheEntry.t)) : Prop :=
  Forall (fun kv => 0 ≤ CacheEntry.size (snd kv)) m.

Definition delete_all (ks : list string) (m : list (string * CacheEntry.t))
    : list (string * CacheEntry.t) :=
  fold_left (fun acc k => JsMap.delete k acc) ks m.

(** The state of the memory tier that every operation keeps. *)
Definition memory_invariant s : Prop :=
  currentMemorySize s ≤ maxMemorySize ∧
  sizes_nonnegative (memoryCache s) ∧
  List.NoDup (JsMap.keys (memoryCache s)).

(** Every key of the memory tier has more than one character. *)
Definition long_keys (s : CacheManager.t) : Prop :=
  Forall (fun k => (1 < String.length k)%nat) (JsMap.keys (memoryCache s)).

(** ** What the tiers hold for a key *)

Definition memory_holds s key (t0 d : Z) (v : JS.payload) : Prop :=
  ∃ e, JsMap.get key (memoryCache s) = Some e ∧
       CacheEntry.timestamp e = t0 ∧ CacheEntry.ttl e = d ∧ CacheEntry.data e = v.

Definition file_holds s ns key (t0 d : Z) (v : JS.payload) : Prop :=
  ∃ bytes e, fs.entryFile (disk s) ns key = Some (EntryText bytes e) ∧
       CacheEntry.timestamp e = t0 ∧ CacheEntry.ttl e = d ∧ CacheEntry.data e = v.

Definition file_unreadable s ns key : Prop :=
  fs.entryFile (disk s) ns key = None ∨
  ∃ bytes, fs.entryFile (disk s) ns key = Some (EntryCorrupt bytes).

(** The cache holds the entry created at [t0] with time to live [d] and
    payload [v] for [(ns, id)]: each tier holds that entry or nothing
    readable under the key, and at least one tier holds it. *)
Definition cached s ns id (t0 d : Z) (v : JS.payload) : Prop :=
  let key := generateKey ns id in
  (memory_holds s key t0 d v ∨ JsMap.get key (memoryCache s) = None) ∧
  (file_holds s ns key t0 d v ∨ file_unreadable s ns key) ∧
  (memory_holds s key t0 d v ∨ file_holds s ns key t0 d v).

(** The entry the cache holds for [(ns, id)]: the one of the memory tier,
    or else the one the entry file parses to. *)
Definition entry_of s ns id : option CacheEntry.t :=
  match JsMap.get (generateKey ns id) (memoryCache s) with
  | Some e => Some e
  | None =>
      match fs.entryFile (disk s) ns (generateKey ns id) with
      | Some (EntryText _ e) => Some e
      | _ => None
      end
  end.

(** The two tiers agree: an entry of the memory tier has the timestamp,
    ttl and payload of the entry its file parses to, if there is one. *)
Definition coherent s : Prop :=
  ∀ ns id e,
    JsMap.get (generateKey ns id) (memoryCache s) = Some e →
    file_holds s ns (generateKey ns id)
      (CacheEntry.timestamp e) (CacheEntry.ttl e) (CacheEntry.data e) ∨
    file_unreadable s ns (generateKey ns id).

(** ** Object graphs and cycles *)

(** The values an array or object holds. *)
Definition children (o : JS.object) : list JS.value :=
  match o with
  | JS.Arr items => items
  | JS.Obj fields => map snd fields
  end.

(** Object [l] holds a reference to object [l']. *)
Definition holds (h : JS.heap) (l l' : nat) : Prop :=
  In (JS.Ref l') (children (JS.deref h l)).

(** Object [l'] is a descendant of object [l]. *)
Inductive descends (h : JS.heap) : nat → nat → Prop :=
  | descends_child l l' : holds h l l' → descends h l l'
  | descends_below l l' l'' : holds h l l' → descends h l' l'' → descends h l l''.

(** From object [l] one reaches object [c]: [c] is [l] or a descendant
    of [l]. *)
Definition reaches (h : JS.heap) (l c : nat) : Prop := l = c ∨ descends h l c.

(** The value leads to an object that contains itself as a descendant. *)
Definition leads_to_cycle (h : JS.heap) (v : JS.value) : Prop :=
  ∃ l c, v = JS.Ref l ∧ reaches h l c ∧ descends h c c.

Definition cyclic (data : JS.payload) : Prop :=
  leads_to_cycle (JS.store data) (JS.root data).

Definition acyclic (data : JS.payload) : Prop := ¬ cyclic data.

(** The objects being serialized, innermost first: each is held by the
    next. *)
Inductive chain (h : JS.heap) : list nat → Prop :=
  | chain_nil : chain h []
  | chain_one l : chain h [l]
  | chain_cons l top stack :
      holds h top l → chain h (top :: stack) → chain h (l :: top :: stack).

(** The references of object [l] all point to later objects; a heap that
    has only such references has no cycle. *)
Definition forward_value (l : nat) (v : JS.value) : bool :=
  match v with
  | JS.Ref l' => (l <? l')%nat
  | _ => true
  end.

Fixpoint forward_from (l : nat) (h : JS.heap) : bool :=
  match h with
  | [] => true
  | o :: h' => forallb (forward_value l) (children o) && forward_from (S l) h'
  end.

Definition forward_only (data : JS.payload) : bool := forward_from 0 (JS.store data).

(** ** What the cache can tell about a disk *)

(** Two disks look the same to the cache: the same namespace
    directories, the same entry files, and metadata documents that load
    to the same mapping. *)
Definition same_disk d d' : Prop :=
  (∀ ns, fs.existsDir d ns = fs.existsDir d' ns) ∧
  (∀ ns key, fs.entryFile d ns key = fs.entryFile d' ns key) ∧
  (∀ ns, loadMetadata d ns = loadMetadata d' ns).

Definition same_cache s s' : Prop :=
  memoryCache s = memoryCache s' ∧
  currentMemorySize s = currentMemorySize s' ∧
  same_disk (disk s) (disk s').

(** The metadata document of the namespace is missing or does not parse. *)
Definition metadata_unreadable d ns : Prop :=
  fs.metadataFile d ns = None ∨ fs.metadataFile d ns = Some MetadataCorrupt.

(** The state in which the metadata document of [ns] is the empty
    mapping. *)
Definition with_empty_metadata ns s : CacheManager.t :=
  Make (memoryCache s) (currentMemorySize s) (saveMetadata (disk s) ns ∅).

(** ** The sweep *)

Definition expired_record (now : Z) (r : CacheMetadata.t) : bool :=
  isExpired now (CacheMetadata.timestamp r) (CacheMetadata.ttl r).

(** The records of a metadata mapping that are not expired. *)
Definition valid_records (now : Z) (m : gmap string CacheMetadata.t)
    : gmap string CacheMetadata.t :=
  filter (fun kr => expired_record now (snd kr) = false) m.

(** The record of [key] in [m] is expired. *)
Definition swept (now : Z) (m : gmap string CacheMetadata.t) (key : string) : bool :=
  match m !! key with
  | Some r => expired_record now r
  | None => false
  end.

Definition sweep_document (now : Z) (f : option metadata_file) : option metadata_file :=
  match f with
  | Some (MetadataText m) => Some (MetadataText (valid_records now m))
  | other => other
  end.

(** The three parts of what the loop of [cleanup] computes. *)
Definition unlink_if_exists ns d key : filesystem :=
  match fs.entryFile d ns key with
  | Some _ => fs.unlinkEntryFile d ns key
  | None => d
  end.

Definition expired_keys (now : Z) (l : list (string * CacheMetadata.t)) : list string :=
  map fst (List.filter (fun kr => expired_record now (snd kr)) l).

Definition valid_pairs (now : Z) (l : list (string * CacheMetadata.t))
    : list (string * CacheMetadata.t) :=
  List.filter (fun kr => negb (expired_record now (snd kr))) l.

(** ** Payloads and states of the scenarios *)

(** [{value: 42, tags: ["a", null]}] *)
Definition two_sum : JS.payload :=
  JS.Payload
    [JS.Obj [("value", JS.Num 42); ("tags", JS.Ref 1)]; JS.Arr [JS.Str "a"; JS.Null]]
    (JS.Ref 0).

(** [{value: 42}] *)
Definition value_42 : JS.payload :=
  JS.Payload [JS.Obj [("value", JS.Num 42)]] (JS.Ref 0).

(** [const a = {}; a.self = a] *)
Definition self_containing : JS.payload :=
  JS.Payload [JS.Obj [("self", JS.Ref 0)]] (JS.Ref 0).

(** A fresh instance over an empty cache directory. *)
Definition fresh : CacheManager.t := create ∅.

Definition two_sum_key : string := "grind75_2f48fa5619710db2957dc59d8d27d286".

(** The disk after [set] at time 1000 with a ttl of 500, seen by a new
    process: the memory tier is empty. *)
Definition cold_start : CacheManager.t :=
  Make [] 0
    (disk (state_of (set "grind75" "two-sum" two_sum (CacheOptions.with_ttl 500) 1000 fresh))).

Definition cold_entry : CacheEntry.t := CacheEntry.Make two_sum 1000 500 0 two_sum_key.

(** Three entries in one namespace at time 0: two with a ttl of 100, one
    with a ttl of 10000. *)
Definition three_entries : CacheManager.t :=
  run [OpSet "grind75" "a" value_42 (CacheOptions.with_ttl 100) 0;
       OpSet "grind75" "b" value_42 (CacheOptions.with_ttl 100) 0;
       OpSet "grind75" "c" value_42 (CacheOptions.with_ttl 10000) 0]
      fresh.

(** A namespace directory whose metadata document does not parse. *)
Definition corrupted : CacheManager.t :=
  Make [] 0 {[ "grind75" := Directory ∅ (Some MetadataCorrupt) ]}.

(** Two entry files of 60 and 30 million bytes, promoted by [get]; then
    the insert of an entry of 20 million bytes. *)
Definition large_entry (id : string) (timestamp sz : Z) : CacheEntry.t :=
  CacheEntry.Make value_42 timestamp defaultTtl sz (generateKey "grind75" id).

Definition large_disk : filesystem :=
  {[ "grind75" :=
       Directory
         (<[generateKey "grind75" "a" := EntryText 60000000 (large_entry "a" 1 0)]>
            {[ generateKey "grind75" "b" := EntryText 30000000 (large_entry "b" 2 0) ]})
         None ]}.

Definition two_promotions : list operation :=
  [OpGet "grind75" "a" false 10; OpGet "grind75" "b" false 10].

End Vocabulary.

(** * Around the cache *)

(** ** Errors (src/utils/errors.ts) *)

Module Errors.

Inductive ErrorCode : Type :=
  | NETWORK_ERROR
  | AUTH_ERROR
  | VALIDATION_ERROR
  | DATABASE_ERROR
  | NOTION_ERROR
  | NOTION_PAGE_NOT_FOUND
  | NOTION_PERMISSION_DENIED
  | NOTION_INVALID_TOKEN
  | NOTION_SCHEMA_ERROR
  | LEETCODE_ERROR
  | BROWSER_LAUNCH_ERROR
  | SCRAPING_ERROR
  | UNKNOWN_ERROR.

(** The classes of the file, as [instanceof] tells them apart. *)
Inductive class : Type :=
  | AppError_
  | NetworkError_
  | AuthError_
  | ValidationError_
  | DatabaseError_
  | NotionError_
  | NotionPageNotFoundError_
  | NotionPermissionError_
  | NotionTokenError_
  | NotionSchemaError_
  | LeetCodeError_.

(** An error object: a plain [Error], an error of axios with the status
    and the data of its response when there is one, or an [AppError] of
    one of the classes above.  The [details] of an [AppError] are an
    object whose fields hold errors or values; [None] is [undefined]. *)
Inductive error : Type :=
  | Error (message : string)
  | AxiosError (message : string) (response : option (Z * JS.payload))
  | AppError (cls : class) (message : string) (code : ErrorCode) (statusCode : Z)
             (isOperational : bool) (details : option (list (string * detail)))
with detail : Type :=
  | DError (e : error)
  | DValue (v : option JS.payload).

Definition message (e : error) : string :=
  match e with
  | Error m => m
  | AxiosError m _ => m
  | AppError _ m _ _ _ _ => m
  end.

(** [axios.isAxiosError(error)] *)
Definition isAxiosError (e : error) : bool :=
  match e with
  | AxiosError _ _ => true
  | _ => false
  end.

(** [error.response?.status], for an error of axios *)
Definition response_status (e : error) : option Z :=
  match e with
  | AxiosError _ (Some (status, _)) => Some status
  | _ => None
  end.

(** [error.response?.data], for an error of axios *)
Definition response_data (e : error) : option JS.payload :=
  match e with
  | AxiosError _ (Some (_, data)) => Some data
  | _ => None
  end.

Definition number (n : option Z) : detail :=
  DValue (match n with Some z => Some (JS.Payload [] (JS.Num z)) | None => None end).

Definition NetworkError (message : string) (details : option (list (string * detail)))
    : error :=
  AppError NetworkError_ message NETWORK_ERROR 503 true details.

Definition AuthError (message : string) (details : option (list (string * detail)))
    : error :=
  AppError AuthError_ message AUTH_ERROR 401 true details.

Definition LeetCodeError (message : string) (details : option (list (string * detail)))
    : error :=
  AppError LeetCodeError_ message LEETCODE_ERROR 500 true details.

End Errors.

(** ** Retrying (src/utils/retry.ts)

    A promise-returning function is run to its completion: applied to
    the world it acts on, it gives the value it resolves to or the error
    it rejects with, and the world afterwards.  The errors are error
    objects, so [lastError.message] is a string.  The number of attempts
    and the delay are integers. *)

Module Config.
(** The part of the configuration that [withRetry] reads. *)
Record api : Type := Api { retryAttempts : Z; retryDelay : Z }.
End Config.

Module Retry.
Import Errors.

(** What a promise is rejected with: [throw lastError!] throws
    [undefined] when no attempt was made. *)
Inductive rejection : Type :=
  | Undefined
  | Raised (e : error).

(** The calls [withRetry] makes, in their order. *)
Inductive event : Type :=
  | Call                                         (* fn() *)
  | OnRetry (lastError : error) (attempt : Z)    (* onRetry(lastError, attempt) *)
  | SetTimeout (waitTime : Z).                   (* setTimeout(resolve, waitTime) *)

Section World.
Context {W : Type}.

(** The world after [await new Promise(resolve => setTimeout(resolve, ms))]. *)
Variable setTimeout : Z → W → W.

Record RetryOptions : Type := Options {
  attempts : option Z;
  delay : option Z;
  exponentialBackoff : option bool;
  (** a callback returns the error it throws, if it throws *)
  onRetry : option (error → Z → W → option error * W)
}.

Definition no_options : RetryOptions := Options None None None None.

(** The default [onRetry] logs a warning. *)
Definition warn (e : error) (attempt : Z) (w : W) : option error * W := (None, w).

Definition failure_message (attempts : Z) (lastError : error) : string :=
  "Operation failed after " ++ JS.number_to_string attempts ++ " attempts: "
  ++ message lastError.

Definition waitTime (delay : Z) (exponentialBackoff : bool) (attempt : Z) : Z :=
  if exponentialBackoff then delay * 2 ^ (attempt - 1) else delay.

(** The [for] loop, with [turns] turns left: [attempt <= attempts] holds
    as long as a turn is left. *)
Fixpoint attempt_loop {T : Type} (fn : W → (T + error) * W)
    (onRetry : error → Z → W → option error * W)
    (attempts delay : Z) (exponentialBackoff : bool)
    (turns : nat) (attempt : Z) (lastError : option error) (w : W) (trace : list event)
    : (T + rejection) * W * list event :=
  match turns with
  | O =>
      (inr (match lastError with Some e => Raised e | None => Undefined end), w, trace)
  | S turns' =>
      match fn w with
      | (inl v, w1) => (inl v, w1, (trace ++ [Call])%list)
      | (inr e, w1) =>
          if attempt =? attempts then
            (inr (Raised (NetworkError (failure_message attempts e)
                            (Some [("originalError", DError e)]))),
             w1, (trace ++ [Call])%list)
          else
            match onRetry e attempt w1 with
            | (Some thrown, w2) =>
                (inr (Raised thrown), w2, (trace ++ [Call; OnRetry e attempt])%list)
            | (None, w2) =>
                let ms := waitTime delay exponentialBackoff attempt in
                attempt_loop fn onRetry attempts delay exponentialBackoff
                  turns' (attempt + 1) (Some e) (setTimeout ms w2)
                  (trace ++ [Call; OnRetry e attempt; SetTimeout ms])%list
            end
      end
  end.

(** The defaults of the destructuring of [options]. *)
Definition attempts_of (config : Config.api) (options : RetryOptions) : Z :=
  default (Config.retryAttempts config) (attempts options).

Definition delay_of (config : Config.api) (options : RetryOptions) : Z :=
  default (Config.retryDelay config) (delay options).

Definition backoff_of (options : RetryOptions) : bool :=
  default true (exponentialBackoff options).

Definition onRetry_of (options : RetryOptions) : error → Z → W → option error * W :=
  default warn (onRetry options).

(** [withRetry]: what the promise settles to, the world then, and the
    calls made. *)
Definition withRetry {T : Type} (config : Config.api) (fn : W → (T + error) * W)
    (options : RetryOptions) (w : W) : (T + rejection) * W * list event :=
  attempt_loop fn (onRetry_of options) (attempts_of config options)
    (delay_of config options) (backoff_of options)
    (Z.to_nat (attempts_of config options)) 1 None w [].

Definition result {T : Type} (r : (T + rejection) * W * list event) : T + rejection :=
  fst (fst r).

Definition world {T : Type} (r : (T + rejection) * W * list event) : W := snd (fst r).

Definition trace {T : Type} (r : (T + rejection) * W * list event) : list event := snd r.

Definition createRetryableFunction {A T : Type} (config : Config.api)
    (fn : A → W → (T + error) * W) (options : option RetryOptions)
    : A → W → (T + rejection) * W * list event :=
  fun args => withRetry config (fn args) (default no_options options).

End World.
End Retry.

Section RetryVocabulary.
Import Errors Retry.

(** The number of calls of [fn] in a trace, and the waits in it. *)
Definition calls (trace : list event) : nat :=
  length (List.filter (fun ev => match ev with Call => true | _ => false end) trace).

Definition waits (trace : list event) : list Z :=
  omap (fun ev => match ev with SetTimeout ms => Some ms | _ => None end) trace.

(** The waits after the first [k] failed attempts. *)
Definition schedule (delay : Z) (exponentialBackoff : bool) (k : nat) : list Z :=
  map (fun i => waitTime delay exponentialBackoff (Z.of_nat i)) (seq 1 k).

Definition sum_list (l : list Z) : Z := foldr Z.add 0 l.

End RetryVocabulary.

Section RetryScenarios.
Import Errors Retry.

(** [parseInt(process.env.API_RETRY_ATTEMPTS || '3')] and
    [parseInt(process.env.API_RETRY_DELAY || '1000')] with neither
    variable set. *)
Definition default_config : Config.api := Config.Api 3 1000.

(** A function that rejects on its first [k] calls and resolves to 7
    afterwards; the world is the number of calls made so far, and time
    passing does not change it. *)
Definition flaky (k : nat) (w : nat) : (Z + error) * nat :=
  if (w <? k)%nat then (inr (Error "ECONNRESET"), S w) else (inl 7, S w).

Definition idle (ms : Z) (w : nat) : nat := w.

End RetryScenarios.

(** ** The callers of the cache and of [withRetry]

    What lies beyond the program is a parameter: the clock, the answers
    of the network and of the browser.  The world [W] is the state of
    all that; [now w] is what [Date.now()] returns in the world [w].
    The spinner, like the logger, is left out. *)

(** [if (value)] for a value handed back by the cache. *)
Definition truthy (v : JS.value) : bool :=
  match v with
  | JS.Null => false
  | JS.Bool b => b
  | JS.Num n => negb (n =? 0)
  | JS.Str s => negb (String.eqb s "")
  | JS.Ref _ => true
  end.

(** [if (cachedData)]: the data when they are there and truthy. *)
Definition usable (cachedData : option JS.payload) : option JS.payload :=
  match cachedData with
  | Some data => if truthy (JS.root data) then Some data else None
  | None => None
  end.

(** *** [LeetCode.fetchQuestion] (src/core/leetcode.ts) *)

Module LeetCode.
Import Errors Retry.

(** The instance: the request headers and the hash of the session. *)
Record t : Type := Make {
  _headers : list (string * string);
  _sessionHash : string
}.

(** The argument of [axios(...)]. *)
Record request : Type := Request {
  method : string;
  url : string;
  data : string;
  headers : list (string * string)
}.

(** The response of axios, as far as the program reads it:
    [response.data]. *)
Record response : Type := Response {
  data_of : JS.payload
}.

(** What [fetchQuestion] resolves to: [{ data: cachedData }], or the
    response of axios. *)
Inductive fetched : Type :=
  | FromCache (data : JS.payload)
  | Fetched (r : response).

Definition sixHours : Z := 6 * 60 * 60 * 1000.

Section World.
Context {W : Type}.
Variable now : W → Z.
Variable setTimeout : Z → W → W.
(** [axios(request)]: the response, or the error it rejects with. *)
Variable axios : request → W → (response + error) * W.
(** [JSON.parse(text)]: the value, or the message of the [SyntaxError]. *)
Variable JSON_parse : string → JS.payload + string.

(** The handler given to [.catch].  On [undefined], reading
    [error.message] raises a [TypeError]. *)
Definition questionFailure (x : rejection) : rejection :=
  match x with
  | Undefined => Raised (Error "Cannot read properties of undefined (reading 'message')")
  | Raised e =>
      if isAxiosError e then
        if match response_status e with Some status => status =? 401 | None => false end
        then Raised (AuthError "Invalid or expired LeetCode session. Please login again." None)
        else
          Raised (LeetCodeError ("Failed to fetch questions: " ++ message e)
                    (Some [("status", number (response_status e));
                           ("data", DValue (response_data e))]))
      else Raised (LeetCodeError ("Failed to fetch questions: " ++ message e) None)
  end.

(** The [onRetry] of [fetchQuestion] sets the text of the spinner and
    logs a warning. *)
Definition questionRetry (e : error) (attempt : Z) (w : W) : option error * W := (None, w).

Definition questionRequest (this : t) (requestBody : string) : request :=
  Request "POST" "https://leetcode.com/graphql" requestBody (_headers this).

Definition questionKey (this : t) (requestBody : string) : string :=
  _sessionHash this ++ "_" ++ MD5.md5hex requestBody.

(** [fetchQuestion]: what the promise settles to, the world and the
    cache afterwards. *)
Definition fetchQuestion (config : Config.api) (this : t) (requestBody : string)
    (w : W) (cache : CacheManager.t) : (fetched + rejection) * W * CacheManager.t :=
  match JSON_parse requestBody with
  | inr syntaxError => (inr (Raised (Error syntaxError)), w, cache)
  | inl parsedBody =>
      let cacheKey := questionKey this requestBody in
      let (cachedData, cache1) := CacheManager.get "leetcode" cacheKey false (now w) cache in
      match usable cachedData with
      | Some cachedData => (inl (FromCache cachedData), w, cache1)
      | None =>
          let r :=
            withRetry setTimeout config (axios (questionRequest this requestBody))
              (Options None None None (Some questionRetry)) w in
          match result r with
          | inr x => (inr (questionFailure x), world r, cache1)
          | inl response =>
              match CacheManager.set "leetcode" cacheKey (data_of response)
                      (CacheOptions.with_ttl sixHours) (now (world r)) cache1 with
              | CacheManager.Resolved cache2 => (inl (Fetched response), world r, cache2)
              | CacheManager.Rejected err cache2 =>
                  (inr (Raised (Error err)), world r, cache2)
              end
          end
      end
  end.

End World.
End LeetCode.

(** *** [Grind] (src/core/grind.ts) *)

Module Grind.
Import Errors Retry.

Inductive difficulty : Type := Easy | Medium | Hard.

Inductive grouping : Type := weeks | topics.

Definition difficulty_name (d : difficulty) : string :=
  match d with Easy => "Easy" | Medium => "Medium" | Hard => "Hard" end.

Definition grouping_name (g : grouping) : string :=
  match g with weeks => "weeks" | topics => "topics" end.

(** The object pushed by [getQuestions]: its fields in their order. *)
Record GrindQuestion : Type := Question {
  title : string;
  difficulty_of : difficulty;
  url : string;
  category : string;
  time : string
}.

Record t : Type := Make {
  _url : string;
  _cacheKey : string
}.

(** The constructor.  [_cacheKey] is [JSON.stringify] of the object
    [{ weeks, hours, group, difficulties: difficulties || [] }]. *)
Definition new (weeks_ hours : option Z) (group : grouping)
    (difficulties : option (list difficulty)) : t :=
  let weeks_ := default 8 weeks_ in
  let hours := default 8 hours in
  let difficultiesQuery :=
    String.concat ""
      (map (fun d => "&difficulty=" ++ difficulty_name d) (default [] difficulties)) in
  Make
    ("https://www.techinterviewhandbook.org/grind75?weeks=" ++ JS.number_to_string weeks_
     ++ "&hours=" ++ JS.number_to_string hours ++ difficultiesQuery
     ++ "&grouping=" ++ grouping_name group)
    ("{" ++ JS.quote "weeks" ++ ":" ++ JS.number_to_string weeks_
     ++ "," ++ JS.quote "hours" ++ ":" ++ JS.number_to_string hours
     ++ "," ++ JS.quote "group" ++ ":" ++ JS.quote (grouping_name group)
     ++ "," ++ JS.quote "difficulties" ++ ":["
     ++ String.concat "," (map (fun d => JS.quote (difficulty_name d)) (default [] difficulties))
     ++ "]}").

(** What the page gives for one list item, after the defaults of the
    [catch] handlers. *)
Record listitem : Type := Item {
  item_title : string;
  item_difficulty : difficulty;
  item_url : string;
  item_time : string;
  item_category : string
}.

(** [a || b] on strings *)
Definition or_else (a b : string) : string := if String.eqb a "" then b else a.

(** One turn of the loop over the list items; [None] is an item whose
    processing raised, which the loop skips. *)
Definition push_question (questions : list GrindQuestion) (content : option listitem)
    : list GrindQuestion :=
  match content with
  | None => questions
  | Some c =>
      if negb (String.eqb (item_title c) "") && negb (String.eqb (item_url c) "") then
        if existsb
             (fun q => String.eqb (title q) (item_title c) && String.eqb (url q) (item_url c))
             questions
        then questions
        else
          (questions ++
           [Question (item_title c) (item_difficulty c) (item_url c)
              (or_else (item_category c) "Uncategorized") (or_else (item_time c) "")])%list
      else questions
  end.

Definition collect (contents : list (option listitem)) : list GrindQuestion :=
  fold_left push_question contents [].

(** The array of questions as a JavaScript value. *)
Definition question_object (q : GrindQuestion) : JS.object :=
  JS.Obj [("title", JS.Str (title q));
          ("difficulty", JS.Str (difficulty_name (difficulty_of q)));
          ("url", JS.Str (url q));
          ("category", JS.Str (category q));
          ("time", JS.Str (time q))].

Definition questions_payload (questions : list GrindQuestion) : JS.payload :=
  JS.Payload
    (JS.Arr (map (fun i => JS.Ref (S i)) (seq 0 (length questions)))
     :: map question_object questions)
    (JS.Ref 0).

Definition oneDay : Z := 24 * 60 * 60 * 1000.

(** What the browser does: the launch fails; or the page is opened, the
    scraping fails or lists the items, and [browser.close()] in the
    [finally] returns or raises. *)
Inductive browsing : Type :=
  | LaunchFailed (e : error)
  | Launched (page : error + list (option listitem)) (close : option error).

Section World.
Context {W : Type}.
Variable now : W → Z.
Variable browse : string → W → browsing * W.

Definition launchError (e : error) : error :=
  AppError AppError_
    ("Unable to launch browser for web scraping. This may be due to missing Chrome "
     ++ "dependencies. Please install Chrome or chromium-browser on your system.")
    BROWSER_LAUNCH_ERROR 500 true (Some [("originalError", DError e)]).

Definition scrapingError (this : t) (e : error) : error :=
  AppError AppError_
    ("Failed to scrape questions from Grind75. Please check your internet connection "
     ++ "and try again.")
    SCRAPING_ERROR 500 true
    (Some [("originalError", DError e);
           ("url", DValue (Some (JS.Payload [] (JS.Str (_url this)))))]).

(** [getQuestions]: what the promise settles to, the world and the cache
    afterwards. *)
Definition getQuestions (this : t) (w : W) (cache : CacheManager.t)
    : (JS.payload + rejection) * W * CacheManager.t :=
  let (cachedQuestions, cache1) :=
    CacheManager.get "grind75" (_cacheKey this) false (now w) cache in
  match usable cachedQuestions with
  | Some cachedQuestions => (inl cachedQuestions, w, cache1)
  | None =>
      match browse (_url this) w with
      | (LaunchFailed e, w1) => (inr (Raised (launchError e)), w1, cache1)
      | (Launched _ (Some e), w1) => (inr (Raised e), w1, cache1)
      | (Launched (inl e) None, w1) => (inr (Raised (scrapingError this e)), w1, cache1)
      | (Launched (inr contents) None, w1) =>
          let questions := collect contents in
          if (0 <? length questions)%nat then
            match CacheManager.set "grind75" (_cacheKey this) (questions_payload questions)
                    (CacheOptions.with_ttl oneDay) (now w1) cache1 with
            | CacheManager.Resolved cache2 => (inl (questions_payload questions), w1, cache2)
            | CacheManager.Rejected err cache2 => (inr (Raised (Error err)), w1, cache2)
            end
          else (inl (questions_payload questions), w1, cache1)
      end
  end.

End World.
End Grind.

(** *** The cache menu of [Terminal] (src/core/terminal.ts) *)

Module Terminal.

(** [clearAllCaches]: each [invalidate] is awaited; a rejection ends
    the method. *)
Definition clearAllCaches (s : CacheManager.t) : CacheManager.outcome :=
  match CacheManager.invalidate "grind75" None s with
  | CacheManager.Rejected e s1 => CacheManager.Rejected e s1
  | CacheManager.Resolved s1 =>
      match CacheManager.invalidate "leetcode" None s1 with
      | CacheManager.Rejected e s2 => CacheManager.Rejected e s2
      | CacheManager.Resolved s2 => CacheManager.invalidate "companies" None s2
      end
  end.

End Terminal.

Section CallerVocabulary.
Import Grind.

(** What the scraping loop keeps true of the questions collected so
    far: no two have the same title and url, and none has an empty
    title, url or category. *)
Definition well_collected (questions : list GrindQuestion) : Prop :=
  List.NoDup (map (fun q => (title q, url q)) questions) ∧
  Forall (fun q => title q ≠ "" ∧ url q ≠ "" ∧ category q ≠ "") questions.

End CallerVocabulary.

Section CallerScenarios.
Import Errors Retry.

(** A world that is the time in milliseconds. *)
Definition elapse (ms : Z) (w : Z) : Z := w + ms.

(** An endpoint that answers [{value: 42}] after 100 ms, and one that
    refuses every request with the status 401. *)
Definition answering (r : LeetCode.request) (w : Z) : (LeetCode.response + error) * Z :=
  (inl (LeetCode.Response value_42), w + 100).

Definition unauthorized (r : LeetCode.request) (w : Z) : (LeetCode.response + error) * Z :=
  (inr (AxiosError "Request failed with status code 401"
          (Some (401, JS.Payload [] JS.Null))),
   w + 100).

(** A parser that accepts every text. *)
Definition accepting (text : string) : JS.payload + string := inl (JS.Payload [] JS.Null).

Definition session : LeetCode.t := LeetCode.Make [("Content-Type", "application/json")] "".

Definition two_sum_item : Grind.listitem :=
  Grind.Item "Two Sum" Grind.Easy "https://leetcode.com/problems/two-sum" "15 mins" "".

(** A page that lists the same question twice and an item that cannot
    be read, loaded in five seconds. *)
Definition listing (url : string) (w : Z) : Grind.browsing * Z :=
  (Grind.Launched (inr [Some two_sum_item; None; Some two_sum_item]) None, w + 5000).

Definition eight_weeks : Grind.t := Grind.new None None Grind.weeks None.

End CallerScenarios.

Section DiskVocabulary.
Import CacheManager.

(** Every readable entry file has its record in the metadata of its
    namespace, with the timestamp and ttl of the entry and the byte
    length of the file. *)
Definition recorded (d : filesystem) : Prop :=
  ∀ ns key bytes e,
    fs.entryFile d ns key = Some (EntryText bytes e) →
    ∃ r, loadMetadata d ns !! key = Some r ∧
         CacheMetadata.timestamp r = CacheEntry.timestamp e ∧
         CacheMetadata.ttl r = CacheEntry.ttl e ∧
         CacheMetadata.size r = Z.of_N bytes.

End DiskVocabulary.

(** * Facts *)

(** ** The library layer *)

Example md5_empty : MD5.md5hex "" = "d41d8cd98f00b204e9800998ecf8427e".
Proof. vm_compute. reflexivity. Qed.

Example md5_abc : MD5.md5hex "abc" = "900150983cd24fb0d6963f7d28e17f72".
Proof. vm_compute. reflexivity. Qed.

Example md5_alphabet :
  MD5.md5hex "abcdefghijklmnopqrstuvwxyz" = "c3fcd3d76192e4007dfb496cca67e13b".
Proof. vm_compute. reflexivity. Qed.

Lemma md5hex_length (s : string) : String.length (MD5.md5hex s) = 32%nat.
Proof.
  unfold MD5.md5hex, MD5.digest.
  destruct (fold_left _ _ _) as [a b c d]. reflexivity.
Qed.

Example number_to_string_ex :
  map JS.number_to_string [0; 42; -7; 86400000] = ["0"; "42"; "-7"; "86400000"].
Proof. reflexivity. Qed.

Section JsMapFacts.
Context {V : Type}.
Implicit Types (m : list (string * V)) (k : string) (v : V).

Lemma get_set_eq k v m : JsMap.get k (JsMap.set k v m) = Some v.
Proof.
  induction m as [|[k' v'] m IH]; simpl.
  - by rewrite String.eqb_refl.
  - destruct (String.eqb_spec k k') as [->|Hne]; simpl.
    + by rewrite String.eqb_refl.
    + destruct (String.eqb_spec k k'); [done|]. exact IH.
Qed.

Lemma get_set_ne k k' v m : k ≠ k' → JsMap.get k' (JsMap.set k v m) = JsMap.get k' m.
Proof.
  intros Hne. induction m as [|[k0 v0] m IH]; simpl.
  - destruct (String.eqb_spec k' k); congruence.
  - destruct (String.eqb_spec k k0) as [->|Hk]; simpl.
    + destruct (String.eqb_spec k' k0); congruence.
    + destruct (String.eqb_spec k' k0); [done|]. exact IH.
Qed.

Lemma get_delete_eq k m : JsMap.get k (JsMap.delete k m) = None.
Proof.
  induction m as [|[k' v'] m IH]; simpl; [done|].
  destruct (String.eqb_spec k k') as [->|Hne]; simpl; [done|].
  destruct (String.eqb_spec k k'); [done|]. exact IH.
Qed.

Lemma get_delete_ne k k' m : k ≠ k' → JsMap.get k' (JsMap.delete k m) = JsMap.get k' m.
Proof.
  intros Hne. induction m as [|[k0 v0] m IH]; simpl; [done|].
  destruct (String.eqb_spec k k0) as [->|Hk]; simpl.
  - destruct (String.eqb_spec k' k0); congruence.
  - destruct (String.eqb_spec k' k0); [done|]. exact IH.
Qed.

Lemma get_Some_In k v m : JsMap.get k m = Some v → In (k, v) m.
Proof.
  induction m as [|[k' v'] m IH]; simpl; [done|].
  destruct (String.eqb_spec k k') as [->|Hne].
  - intros [= ->]. by left.
  - intros H. right. by apply IH.
Qed.

Lemma get_None_not_In k m : JsMap.get k m = None → ¬ In k (JsMap.keys m).
Proof.
  induction m as [|[k' v'] m IH]; simpl; [tauto|].
  destruct (String.eqb_spec k k') as [->|Hne]; [done|].
  intros H [Heq|Hin]; [congruence|]. by apply IH.
Qed.

Lemma In_get k v m : List.NoDup (JsMap.keys m) → In (k, v) m → JsMap.get k m = Some v.
Proof.
  induction m as [|[k' v'] m IH]; simpl; [done|].
  intros Hnd [Heq|Hin].
  - injection Heq as -> ->. by rewrite String.eqb_refl.
  - inversion Hnd as [|? ? Hnotin Hnd']; subst.
    destruct (String.eqb_spec k k') as [->|Hne].
    + exfalso. apply Hnotin. change k' with (fst (k', v)). by apply in_map.
    + by apply IH.
Qed.
End JsMapFacts.

Section JsMapOrder.
Context {V : Type}.
Implicit Types (m : list (string * V)) (k : string) (v : V).

Lemma In_set_inv k v m x : In x (JsMap.set k v m) → x = (k, v) ∨ In x m.
Proof.
  induction m as [|[k' v'] m IH]; simpl.
  - intros [<-|[]]. by left.
  - destruct (String.eqb_spec k k') as [->|Hne]; simpl.
    + intros [<-|Hin]; [by left | right; by right].
    + intros [<-|Hin]; [right; by left |].
      destruct (IH Hin); [by left | right; by right].
Qed.

Lemma In_set_new k v m : In (k, v) (JsMap.set k v m).
Proof. apply get_Some_In, get_set_eq. Qed.

Lemma In_delete_inv k m x : In x (JsMap.delete k m) → In x m ∧ fst x ≠ k.
Proof.
  induction m as [|[k' v'] m IH]; simpl; [done|].
  destruct (String.eqb_spec k k') as [->|Hne]; simpl.
  - intros Hin. destruct (IH Hin). split; [by right | done].
  - intros [<-|Hin]; [split; [by left | simpl; congruence] |].
    destruct (IH Hin). split; [by right | done].
Qed.

Lemma In_keys_set_inv k v m k' :
  In k' (JsMap.keys (JsMap.set k v m)) → k' = k ∨ In k' (JsMap.keys m).
Proof.
  unfold JsMap.keys. intros Hin. apply in_map_iff in Hin as [x [<- Hin]].
  destruct (In_set_inv _ _ _ _ Hin) as [->|Hin']; [by left|].
  right. by apply in_map.
Qed.

Lemma NoDup_keys_set k v m :
  List.NoDup (JsMap.keys m) → List.NoDup (JsMap.keys (JsMap.set k v m)).
Proof.
  induction m as [|[k' v'] m IH]; simpl.
  - intros _. repeat constructor. simpl. tauto.
  - intros Hnd. inversion Hnd as [|? ? Hnotin Hnd']; subst.
    destruct (String.eqb_spec k k') as [->|Hne]; simpl.
    + by constructor.
    + constructor; [|by apply IH].
      intros Hin. destruct (In_keys_set_inv _ _ _ _ Hin); [congruence | done].
Qed.

Lemma NoDup_keys_delete k m :
  List.NoDup (JsMap.keys m) → List.NoDup (JsMap.keys (JsMap.delete k m)).
Proof.
  induction m as [|[k' v'] m IH]; simpl; [done|].
  intros Hnd. inversion Hnd as [|? ? Hnotin Hnd']; subst.
  destruct (String.eqb_spec k k') as [->|Hne]; simpl; [by apply IH|].
  constructor; [|by apply IH].
  unfold JsMap.keys. intros Hin. apply in_map_iff in Hin as [x [Hx Hin]].
  apply In_delete_inv in Hin as [Hin _]. apply Hnotin.
  rewrite <- Hx. by apply in_map.
Qed.

Lemma delete_not_In k m : ¬ In k (JsMap.keys m) → JsMap.delete k m = m.
Proof.
  induction m as [|[k' v'] m IH]; simpl; [done|].
  intros Hnotin. destruct (String.eqb_spec k k') as [->|Hne]; [tauto|].
  f_equal. apply IH. tauto.
Qed.

Lemma get_delete k k' m :
  JsMap.get k' (JsMap.delete k m) = if String.eqb k k' then None else JsMap.get k' m.
Proof.
  destruct (String.eqb_spec k k') as [->|Hne].
  - apply get_delete_eq.
  - by apply get_delete_ne.
Qed.
End JsMapOrder.

(** ** Eviction *)

Section Eviction.
Import CacheManager.
Implicit Types (m es : list (string * CacheEntry.t)) (s : CacheManager.t).

Lemma insert_by_timestamp_perm x es : Permutation (insert_by_timestamp x es) (x :: es).
Proof.
  induction es as [|y es IH]; simpl; [done|].
  destruct (_ <=? _); [done|].
  rewrite IH. apply perm_swap.
Qed.

Lemma sort_by_timestamp_perm m : Permutation (sort_by_timestamp m) m.
Proof.
  induction m as [|x m IH]; simpl; [done|].
  rewrite insert_by_timestamp_perm. by constructor.
Qed.

Lemma insert_by_timestamp_sorted x es :
  StronglySorted older_or_equal es →
  StronglySorted older_or_equal (insert_by_timestamp x es).
Proof.
  induction 1 as [|y es Hs IH Hall]; simpl.
  - repeat constructor.
  - destruct (Z.leb_spec (CacheEntry.timestamp (snd x)) (CacheEntry.timestamp (snd y)))
      as [Hle|Hgt].
    + constructor; [by constructor|].
      constructor; [exact Hle|].
      eapply Forall_impl; [exact Hall|].
      unfold older_or_equal in *. intros z Hz. simpl in *. lia.
    + constructor; [exact IH|].
      rewrite insert_by_timestamp_perm.
      constructor; [unfold older_or_equal; lia | exact Hall].
Qed.

Lemma sort_by_timestamp_sorted m : StronglySorted older_or_equal (sort_by_timestamp m).
Proof.
  induction m as [|x m IH]; simpl; [constructor|].
  by apply insert_by_timestamp_sorted.
Qed.

Lemma sorted_app_le (l1 l2 : list (string * CacheEntry.t)) x y :
  StronglySorted older_or_equal (l1 ++ l2) → In x l1 → In y l2 → older_or_equal x y.
Proof.
  induction l1 as [|a l1 IH]; simpl; [done|].
  intros Hs [->|Hin] Hy; inversion Hs as [|? ? Hs' Hall]; subst.
  - rewrite Forall_forall in Hall. apply Hall. apply list_elem_of_In, in_or_app. by right.
  - by apply IH.
Qed.

Lemma sum_sizes_perm m m' : Permutation m m' → sum_sizes m = sum_sizes m'.
Proof. induction 1; simpl; lia. Qed.

Lemma sum_sizes_app m m' : sum_sizes (m ++ m') = sum_sizes m + sum_sizes m'.
Proof. induction m; simpl; lia. Qed.

Lemma sum_sizes_nonneg m : sizes_nonnegative m → 0 ≤ sum_sizes m.
Proof. induction 1; simpl; lia. Qed.

Lemma sum_sizes_In m x :
  sizes_nonnegative m → In x m → CacheEntry.size (snd x) ≤ sum_sizes m.
Proof.
  induction 1 as [|y m Hy Hm IH]; simpl; [done|].
  pose proof (sum_sizes_nonneg m Hm).
  intros [->|Hin]; [lia|]. specialize (IH Hin). lia.
Qed.

Lemma In_delete k m x : In x m → fst x ≠ k → In x (JsMap.delete k m).
Proof.
  induction m as [|[k' v'] m IH]; simpl; [done|].
  intros [<-|Hin] Hne; simpl in *.
  - destruct (String.eqb_spec k k'); [congruence | by left].
  - destruct (String.eqb_spec k k'); [by apply IH | right; by apply IH].
Qed.

Lemma In_delete_all_inv ks m x :
  In x (delete_all ks m) → In x m ∧ ¬ In (fst x) ks.
Proof.
  revert m. induction ks as [|k ks IH]; simpl; intros m Hin; [tauto|].
  apply IH in Hin as [Hin Hks]. apply In_delete_inv in Hin as [Hin Hk].
  split; [done|]. intros [Heq|Hin']; [congruence | done].
Qed.

Lemma In_delete_all ks m x :
  In x m → ¬ In (fst x) ks → In x (delete_all ks m).
Proof.
  revert m. induction ks as [|k ks IH]; simpl; intros m Hin Hks; [done|].
  apply IH; [|tauto]. apply In_delete; [done|]. intros Heq. apply Hks. by left.
Qed.

Lemma NoDup_keys_delete_all ks m :
  List.NoDup (JsMap.keys m) → List.NoDup (JsMap.keys (delete_all ks m)).
Proof.
  revert m. induction ks as [|k ks IH]; simpl; intros m Hnd; [done|].
  by apply IH, NoDup_keys_delete.
Qed.

Lemma delete_all_covered ks m :
  (∀ x, In x m → In (fst x) ks) → delete_all ks m = [].
Proof.
  intros Hcov. destruct (delete_all ks m) as [|x l] eqn:Heq; [done|].
  assert (Hin : In x (delete_all ks m)) by (rewrite Heq; by left).
  apply In_delete_all_inv in Hin as [Hin Hks]. destruct Hks. by apply Hcov.
Qed.

Lemma sizes_nonnegative_delete_all ks m :
  sizes_nonnegative m → sizes_nonnegative (delete_all ks m).
Proof.
  unfold sizes_nonnegative. rewrite !Forall_forall.
  intros H x Hx. apply list_elem_of_In, In_delete_all_inv in Hx as [Hx _].
  by apply H, list_elem_of_In.
Qed.

(** What the loop of [evictMemoryCache] does: it deletes a prefix of the
    snapshot, subtracting the sizes of the deleted entries, and stops at
    the target or with the snapshot used up. *)
Lemma evict_loop_spec es s :
  ∃ evicted kept : list (string * CacheEntry.t),
    es = (evicted ++ kept)%list ∧
    memoryCache (evict_loop es s) = delete_all (JsMap.keys evicted) (memoryCache s) ∧
    currentMemorySize (evict_loop es s) = currentMemorySize s - sum_sizes evicted ∧
    disk (evict_loop es s) = disk s ∧
    (currentMemorySize (evict_loop es s) ≤ evictionTarget ∨ kept = []).
Proof.
  revert s. induction es as [|[key entry] es IH]; intros s; simpl.
  - exists [], []. simpl.
    split; [done|]. split; [done|]. split; [lia|]. split; [done|]. by right.
  - destruct (Z.gtb_spec (currentMemorySize s) evictionTarget) as [Hgt|Hle].
    + destruct (IH (Make (JsMap.delete key (memoryCache s))
                         (currentMemorySize s - CacheEntry.size entry) (disk s)))
        as (evicted & kept & -> & Hm & Hc & Hd & Hstop).
      exists ((key, entry) :: evicted), kept. simpl in *.
      split; [done|]. split; [done|]. split; [lia|]. by split.
    + exists [], ((key, entry) :: es). simpl.
      split; [done|]. split; [done|]. split; [lia|]. split; [done|]. by left.
Qed.

Lemma sizes_nonnegative_set k e m :
  0 ≤ CacheEntry.size e → sizes_nonnegative m → sizes_nonnegative (JsMap.set k e m).
Proof.
  unfold sizes_nonnegative. rewrite !Forall_forall.
  intros He H x Hx. apply list_elem_of_In, In_set_inv in Hx as [->|Hx]; [done|].
  by apply H, list_elem_of_In.
Qed.

Lemma sizes_nonnegative_delete k m :
  sizes_nonnegative m → sizes_nonnegative (JsMap.delete k m).
Proof. apply (sizes_nonnegative_delete_all [k]). Qed.

(** The outcome of a whole eviction. *)
Lemma evictMemoryCache_spec s :
  ∃ evicted kept : list (string * CacheEntry.t),
    sort_by_timestamp (memoryCache s) = (evicted ++ kept)%list ∧
    memoryCache (evictMemoryCache s) = delete_all (JsMap.keys evicted) (memoryCache s) ∧
    currentMemorySize (evictMemoryCache s) = currentMemorySize s - sum_sizes evicted ∧
    disk (evictMemoryCache s) = disk s ∧
    (currentMemorySize (evictMemoryCache s) ≤ evictionTarget ∨
     (memoryCache (evictMemoryCache s) = [] ∧
      currentMemorySize (evictMemoryCache s)
      = currentMemorySize s - sum_sizes (memoryCache s))).
Proof.
  unfold evictMemoryCache.
  destruct (evict_loop_spec (sort_by_timestamp (memoryCache s)) s)
    as (evicted & kept & Hsplit & Hm & Hc & Hd & Hstop).
  exists evicted, kept. split; [done|]. split; [done|]. split; [done|]. split; [done|].
  destruct Hstop as [Hle| ->]; [by left | right].
  rewrite app_nil_r in Hsplit.
  pose proof (sort_by_timestamp_perm (memoryCache s)) as Hperm.
  rewrite Hsplit in Hperm. split.
  - rewrite Hm. apply delete_all_covered. intros x Hx.
    unfold JsMap.keys. apply in_map. by rewrite Hperm.
  - rewrite Hc. by rewrite (sum_sizes_perm _ _ Hperm).
Qed.

Lemma evictMemoryCache_get s k e :
  JsMap.get k (memoryCache (evictMemoryCache s)) = Some e →
  JsMap.get k (memoryCache s) = Some e.
Proof.
  destruct (evictMemoryCache_spec s) as (evicted & kept & _ & -> & _).
  revert s. generalize (JsMap.keys evicted) as ks.
  induction ks as [|k0 ks IH]; intros s; simpl; [done|].
  intros H.
  specialize (IH (Make (JsMap.delete k0 (memoryCache s)) 0 ∅) H). simpl in IH.
  rewrite get_delete in IH. by destruct (String.eqb k0 k).
Qed.

(** Entries leave oldest first: whatever an eviction removed is no
    younger than whatever it kept. *)
Lemma evictMemoryCache_oldest_first s k1 e1 k2 e2 :
  List.NoDup (JsMap.keys (memoryCache s)) →
  JsMap.get k1 (memoryCache s) = Some e1 →
  JsMap.get k1 (memoryCache (evictMemoryCache s)) = None →
  JsMap.get k2 (memoryCache (evictMemoryCache s)) = Some e2 →
  CacheEntry.timestamp e1 ≤ CacheEntry.timestamp e2.
Proof.
  intros Hnd H1 H1' H2.
  destruct (evictMemoryCache_spec s) as (evicted & kept & Hsplit & Hm & _).
  pose proof (sort_by_timestamp_perm (memoryCache s)) as Hperm.
  pose proof (sort_by_timestamp_sorted (memoryCache s)) as Hsorted.
  rewrite Hsplit in Hperm, Hsorted.
  rewrite Hm in H1', H2.
  assert (Hnd' := NoDup_keys_delete_all (JsMap.keys evicted) _ Hnd).
  apply get_Some_In in H2. apply In_delete_all_inv in H2 as [H2 H2k]. simpl in H2k.
  assert (Hkept : In (k2, e2) kept).
  { assert (Hin : In (k2, e2) (evicted ++ kept)%list) by (by rewrite Hperm).
    apply in_app_or in Hin as [Hin|Hin]; [|done].
    destruct H2k. change k2 with (fst (k2, e2)). by apply in_map. }
  assert (Hevicted : In (k1, e1) evicted).
  { destruct (in_dec String.string_dec k1 (JsMap.keys evicted)) as [Hin|Hnotin].
    - apply in_map_iff in Hin as [[k e] [Hk Hin]]. simpl in Hk. subst k.
      assert (Hin' : In (k1, e) (memoryCache s)).
      { rewrite <- Hperm. apply in_or_app. by left. }
      apply (In_get _ _ _ Hnd) in Hin'. congruence.
    - apply get_Some_In in H1.
      apply (In_delete_all (JsMap.keys evicted)) in H1; [|done].
      apply (In_get _ _ _ Hnd') in H1. congruence. }
  apply (sorted_app_le evicted kept (k1, e1) (k2, e2)); done.
Qed.

Lemma evictionTarget_below_capacity : evictionTarget ≤ maxMemorySize.
Proof. by vm_compute. Qed.

Lemma addToMemory_disk key e sz s : disk (addToMemory key e sz s) = disk s.
Proof.
  unfold addToMemory. simpl. destruct (_ >? _); [|done].
  by destruct (evictMemoryCache_spec
                 (Make (JsMap.set key e (memoryCache s)) (currentMemorySize s + sz) (disk s)))
    as (? & ? & _ & _ & _ & -> & _).
Qed.

Lemma addToMemory_get key e sz s k e' :
  JsMap.get k (memoryCache (addToMemory key e sz s)) = Some e' →
  JsMap.get k (JsMap.set key e (memoryCache s)) = Some e'.
Proof.
  unfold addToMemory. simpl. destruct (_ >? _); [|done].
  apply evictMemoryCache_get.
Qed.

Lemma addToMemory_invariant key e sz s :
  CacheEntry.size e = sz → 0 ≤ sz →
  memory_invariant s → memory_invariant (addToMemory key e sz s).
Proof.
  intros Hsz Hnonneg (Hcap & Hsizes & Hnd).
  assert (Hsizes' : sizes_nonnegative (JsMap.set key e (memoryCache s)))
    by (apply sizes_nonnegative_set; [lia | done]).
  assert (Hnd' : List.NoDup (JsMap.keys (JsMap.set key e (memoryCache s))))
    by by apply NoDup_keys_set.
  unfold addToMemory. simpl.
  destruct (Z.gtb_spec (currentMemorySize s + sz) maxMemorySize) as [Hgt|Hle].
  - destruct (evictMemoryCache_spec
                (Make (JsMap.set key e (memoryCache s)) (currentMemorySize s + sz) (disk s)))
      as (evicted & kept & _ & Hm & _ & _ & Hstop). simpl in *.
    split; [|split].
    + destruct Hstop as [Hle|[_ ->]].
      * pose proof evictionTarget_below_capacity. lia.
      * pose proof (sum_sizes_In _ (key, e) Hsizes' (In_set_new key e _)) as Hin.
        simpl in Hin. lia.
    + rewrite Hm. by apply sizes_nonnegative_delete_all.
    + rewrite Hm. by apply NoDup_keys_delete_all.
  - by split.
Qed.

(** An insert that overflows the capacity, and the eviction after it. *)
Lemma addToMemory_overflow key e s :
  memory_invariant s →
  0 ≤ CacheEntry.size e →
  maxMemorySize < currentMemorySize s + CacheEntry.size e →
  let inserted := JsMap.set key e (memoryCache s) in
  let s' := addToMemory key e (CacheEntry.size e) s in
  currentMemorySize s' ≤ maxMemorySize ∧
  (currentMemorySize s' ≤ evictionTarget ∨ memoryCache s' = []) ∧
  (∀ k1 e1 k2 e2,
      JsMap.get k1 inserted = Some e1 →
      JsMap.get k1 (memoryCache s') = None →
      JsMap.get k2 (memoryCache s') = Some e2 →
      CacheEntry.timestamp e1 ≤ CacheEntry.timestamp e2) ∧
  (∀ k e', JsMap.get k (memoryCache s') = Some e' → JsMap.get k inserted = Some e').
Proof.
  intros Hinv Hnonneg Hover inserted s'.
  destruct (addToMemory_invariant key e _ s eq_refl Hnonneg Hinv) as (Hcap & _ & _).
  split; [exact Hcap|].
  split; [|split]; [| |intros k e'; apply addToMemory_get].
  - subst s'. unfold addToMemory. simpl.
    destruct (Z.gtb_spec (currentMemorySize s + CacheEntry.size e) maxMemorySize); [|lia].
    destruct (evictMemoryCache_spec
                (Make (JsMap.set key e (memoryCache s))
                      (currentMemorySize s + CacheEntry.size e) (disk s)))
      as (? & ? & _ & _ & _ & _ & [Hle|[Hempty _]]); [by left | by right].
  - intros k1 e1 k2 e2. subst s' inserted. unfold addToMemory. simpl.
    destruct (Z.gtb_spec (currentMemorySize s + CacheEntry.size e) maxMemorySize); [|lia].
    intros H1 H1' H2.
    apply (evictMemoryCache_oldest_first
             (Make (JsMap.set key e (memoryCache s))
                   (currentMemorySize s + CacheEntry.size e) (disk s)) k1 e1 k2 e2);
      [|done..].
    simpl. apply NoDup_keys_set. apply Hinv.
Qed.

(** *** The memory tier along sequences of operations *)

Lemma memory_invariant_disk s d :
  memory_invariant s →
  memory_invariant (Make (memoryCache s) (currentMemorySize s) d).
Proof. done. Qed.

Lemma memory_invariant_delete s key delta d :
  0 ≤ delta → memory_invariant s →
  memory_invariant
    (Make (JsMap.delete key (memoryCache s)) (currentMemorySize s - delta) d).
Proof.
  intros Hd (Hcap & Hsizes & Hnd). split; [simpl; lia|]. split; simpl.
  - by apply sizes_nonnegative_delete.
  - by apply NoDup_keys_delete.
Qed.

Lemma get_file_invariant ns key acceptExpired now s :
  memory_invariant s → memory_invariant (snd (get_file ns key acceptExpired now s)).
Proof.
  intros Hinv. unfold get_file.
  destruct (fs.entryFile (disk s) ns key) as [[bytes entry|bytes]|]; [|done..].
  destruct (_ || _); [|done]. simpl.
  assert (Hadd : memory_invariant
                   (addToMemory key (CacheEntry.with_size entry (Z.of_N bytes))
                      (Z.of_N bytes) s))
    by (apply addToMemory_invariant; [done | lia | done]).
  by destruct (_ !! key).
Qed.

Lemma get_invariant ns id acceptExpired now s :
  memory_invariant s → memory_invariant (snd (get ns id acceptExpired now s)).
Proof.
  intros Hinv. unfold get.
  destruct (JsMap.get _ (memoryCache s)) as [memoryEntry|] eqn:Hget;
    [|by apply get_file_invariant].
  destruct (_ || _); [done|].
  apply get_file_invariant, memory_invariant_delete; [|done].
  destruct Hinv as (_ & Hsizes & _).
  apply get_Some_In in Hget. unfold sizes_nonnegative in Hsizes.
  rewrite Forall_forall in Hsizes. apply (Hsizes _ (proj2 (list_elem_of_In _ _) Hget)).
Qed.

Lemma set_invariant ns id data options now s :
  memory_invariant s → memory_invariant (state_of (set ns id data options now s)).
Proof.
  intros Hinv. unfold set.
  destruct (generateFingerprint data); [|done].
  destruct (stringify_entry _) as [content|]; [|done].
  destruct (fs.writeEntryFile _ _ _ _); [|done]. simpl.
  apply addToMemory_invariant; [done | unfold JS.byteLength; lia | done].
Qed.

Lemma purge_loop_invariant ns ks s :
  memory_invariant s → memory_invariant (state_of (purge_loop ns ks s)).
Proof.
  revert s. induction ks as [|[|c k] ks IH]; intros s Hinv; cbn [purge_loop state_of]; [done..|].
  apply IH. destruct (String.prefix ns (String c EmptyString)); [|done].
  replace (currentMemorySize s) with (currentMemorySize s - 0) by lia.
  by apply memory_invariant_delete.
Qed.

Lemma invalidate_invariant ns identifier s :
  memory_invariant s → memory_invariant (state_of (invalidate ns identifier s)).
Proof.
  intros Hinv. unfold invalidate. destruct (given identifier); simpl.
  - replace (currentMemorySize s) with (currentMemorySize s - 0) by lia.
    by apply memory_invariant_delete.
  - by apply purge_loop_invariant.
Qed.

Lemma step_invariant s o : memory_invariant s → memory_invariant (step s o).
Proof.
  destruct o; simpl.
  - apply get_invariant.
  - apply set_invariant.
  - apply invalidate_invariant.
  - done.
Qed.

Lemma create_invariant d : memory_invariant (create d).
Proof. split; [by vm_compute|]. split; constructor. Qed.

Lemma run_invariant ops s : memory_invariant s → memory_invariant (run ops s).
Proof.
  revert s. induction ops as [|o ops IH]; intros s Hinv; simpl; [done|].
  by apply IH, step_invariant.
Qed.

(** C4.  Along every sequence of operations started on a fresh instance
    the running total stays within the capacity; and when an insert
    (of an entry under a key, adding the entry's size) takes the total
    over the capacity, the eviction that follows leaves the total within
    the capacity, at or below 80% of it unless the memory tier is empty,
    and has removed no entry younger than one it kept. *)
Theorem eviction_bound (d : filesystem) (ops : list operation) :
  currentMemorySize (run ops (create d)) ≤ maxMemorySize ∧
  ∀ key entry,
    0 ≤ CacheEntry.size entry →
    maxMemorySize < currentMemorySize (run ops (create d)) + CacheEntry.size entry →
    let s := run ops (create d) in
    let inserted := JsMap.set key entry (memoryCache s) in
    let s' := addToMemory key entry (CacheEntry.size entry) s in
    currentMemorySize s' ≤ maxMemorySize ∧
    (currentMemorySize s' ≤ evictionTarget ∨ memoryCache s' = []) ∧
    (∀ k1 e1 k2 e2,
        JsMap.get k1 inserted = Some e1 →
        JsMap.get k1 (memoryCache s') = None →
        JsMap.get k2 (memoryCache s') = Some e2 →
        CacheEntry.timestamp e1 ≤ CacheEntry.timestamp e2) ∧
    (∀ k e', JsMap.get k (memoryCache s') = Some e' → JsMap.get k inserted = Some e').
Proof.
  pose proof (run_invariant ops (create d) (create_invariant d)) as Hinv.
  split; [apply Hinv|].
  intros key entry Hnonneg Hover. by apply addToMemory_overflow.
Qed.
End Eviction.

(** ** The file tier *)

(** A lookup in a disk in which the directory of [ns] was rewritten: the
    namespace looked up is [ns] or another one. *)
Ltac same_or_other_namespace ns ns' Hdir :=
  destruct (decide (ns = ns')) as [<-|?];
  [rewrite lookup_insert_eq; try rewrite Hdir | rewrite lookup_insert_ne by done].

Section FileTier.
Import CacheManager.
Implicit Types (d : filesystem) (s : CacheManager.t) (ns key : string).

Lemma entryFile_write d ns key f d' ns' key' :
  fs.writeEntryFile d ns key f = Some d' →
  fs.entryFile d' ns' key' =
    if decide (ns = ns' ∧ key = key') then Some f else fs.entryFile d ns' key'.
Proof.
  unfold fs.writeEntryFile, fs.entryFile.
  destruct (d !! ns) as [dir|] eqn:Hdir; [|done]. intros [= <-].
  destruct (decide (ns = ns')) as [<-|Hns].
  - rewrite lookup_insert_eq. simpl. rewrite Hdir.
    destruct (decide (key = key')) as [<-|Hkey].
    + rewrite lookup_insert_eq. by rewrite decide_True.
    + rewrite lookup_insert_ne by done. rewrite decide_False; [done|tauto].
  - rewrite lookup_insert_ne by done. rewrite decide_False; [done|tauto].
Qed.

Lemma metadataFile_write d ns key f d' ns' :
  fs.writeEntryFile d ns key f = Some d' →
  fs.metadataFile d' ns' = fs.metadataFile d ns'.
Proof.
  unfold fs.writeEntryFile, fs.metadataFile.
  destruct (d !! ns) as [dir|] eqn:Hdir; [|done]. intros [= <-].
  by same_or_other_namespace ns ns' Hdir.
Qed.

Lemma existsDir_write d ns key f d' ns' :
  fs.writeEntryFile d ns key f = Some d' → fs.existsDir d' ns' = fs.existsDir d ns'.
Proof.
  unfold fs.writeEntryFile, fs.existsDir.
  destruct (d !! ns) as [dir|] eqn:Hdir; [|done]. intros [= <-].
  by same_or_other_namespace ns ns' Hdir.
Qed.

Lemma writeEntryFile_exists d ns key f :
  fs.existsDir d ns = true → ∃ d', fs.writeEntryFile d ns key f = Some d'.
Proof.
  unfold fs.writeEntryFile, fs.existsDir. destruct (d !! ns); [eauto | done].
Qed.

Lemma entryFile_unlink d ns key ns' key' :
  fs.entryFile (fs.unlinkEntryFile d ns key) ns' key' =
    if decide (ns = ns' ∧ key = key') then None else fs.entryFile d ns' key'.
Proof.
  unfold fs.unlinkEntryFile, fs.entryFile.
  destruct (d !! ns) as [dir|] eqn:Hdir.
  - destruct (decide (ns = ns')) as [<-|Hns].
    + rewrite lookup_insert_eq. simpl. rewrite Hdir.
      destruct (decide (key = key')) as [<-|Hkey].
      * rewrite lookup_delete_eq. by rewrite decide_True.
      * rewrite lookup_delete_ne by done. rewrite decide_False; [done|tauto].
    + rewrite lookup_insert_ne by done. rewrite decide_False; [done|tauto].
  - case_decide as H; [|done]. destruct H as [<- _]. by rewrite Hdir.
Qed.

Lemma metadataFile_unlink d ns key ns' :
  fs.metadataFile (fs.unlinkEntryFile d ns key) ns' = fs.metadataFile d ns'.
Proof.
  unfold fs.unlinkEntryFile, fs.metadataFile.
  destruct (d !! ns) as [dir|] eqn:Hdir; [|done].
  by same_or_other_namespace ns ns' Hdir.
Qed.

Lemma entryFile_saveMetadata d ns m ns' key' :
  fs.entryFile (saveMetadata d ns m) ns' key' = fs.entryFile d ns' key'.
Proof.
  unfold saveMetadata, fs.writeMetadataFile, fs.entryFile.
  destruct (d !! ns) as [dir|] eqn:Hdir; [|done].
  by same_or_other_namespace ns ns' Hdir.
Qed.

Lemma metadataFile_saveMetadata d ns m ns' :
  fs.metadataFile (saveMetadata d ns m) ns' =
    if decide (ns = ns' ∧ fs.existsDir d ns = true)
    then Some (MetadataText m) else fs.metadataFile d ns'.
Proof.
  unfold saveMetadata, fs.writeMetadataFile, fs.metadataFile, fs.existsDir.
  destruct (d !! ns) as [dir|] eqn:Hdir.
  - destruct (decide (ns = ns')) as [<-|Hns].
    + rewrite lookup_insert_eq. by rewrite decide_True.
    + rewrite lookup_insert_ne by done. rewrite decide_False; [done|tauto].
  - rewrite decide_False; [done|]. by intros [_ ?].
Qed.

Lemma loadMetadata_saveMetadata d ns m :
  fs.existsDir d ns = true → loadMetadata (saveMetadata d ns m) ns = m.
Proof.
  intros Hdir. unfold loadMetadata. rewrite metadataFile_saveMetadata.
  by rewrite decide_True.
Qed.

Lemma entryFile_recreated d ns ns' key :
  fs.entryFile (fs.mkdirSync (fs.rmSync d ns) ns) ns' key =
    if decide (ns = ns') then None else fs.entryFile d ns' key.
Proof.
  unfold fs.entryFile, fs.mkdirSync, fs.rmSync. rewrite lookup_delete_eq.
  destruct (decide (ns = ns')) as [<-|Hne].
  - by rewrite lookup_insert_eq.
  - rewrite lookup_insert_ne by done. by rewrite lookup_delete_ne.
Qed.

Lemma metadataFile_recreated d ns ns' :
  fs.metadataFile (fs.mkdirSync (fs.rmSync d ns) ns) ns' =
    if decide (ns = ns') then None else fs.metadataFile d ns'.
Proof.
  unfold fs.metadataFile, fs.mkdirSync, fs.rmSync. rewrite lookup_delete_eq.
  destruct (decide (ns = ns')) as [<-|Hne].
  - by rewrite lookup_insert_eq.
  - rewrite lookup_insert_ne by done. by rewrite lookup_delete_ne.
Qed.

Lemma entryFile_no_directory d ns key :
  fs.existsDir d ns = false → fs.entryFile d ns key = None.
Proof. unfold fs.existsDir, fs.entryFile. by destruct (d !! ns). Qed.

Lemma metadataFile_no_directory d ns :
  fs.existsDir d ns = false → fs.metadataFile d ns = None.
Proof. unfold fs.existsDir, fs.metadataFile. by destruct (d !! ns). Qed.

(** *** Expiration *)

Lemma isExpired_true (now t0 d : Z) : isExpired now t0 d = true ↔ d < now - t0.
Proof. unfold isExpired. rewrite Z.gtb_ltb. apply Z.ltb_lt. Qed.

Lemma isExpired_false (now t0 d : Z) : isExpired now t0 d = false ↔ now - t0 ≤ d.
Proof. unfold isExpired. rewrite Z.gtb_ltb. apply Z.ltb_ge. Qed.

Lemma get_file_fresh ns key now s bytes e acceptExpired :
  fs.entryFile (disk s) ns key = Some (EntryText bytes e) →
  isExpired now (CacheEntry.timestamp e) (CacheEntry.ttl e) = false →
  fst (get_file ns key acceptExpired now s) = Some (CacheEntry.data e).
Proof. intros Hfile Hfresh. unfold get_file. by rewrite Hfile, Hfresh. Qed.

Lemma get_file_stale ns key now s bytes e :
  fs.entryFile (disk s) ns key = Some (EntryText bytes e) →
  isExpired now (CacheEntry.timestamp e) (CacheEntry.ttl e) = true →
  get_file ns key false now s =
    (None, Make (memoryCache s) (currentMemorySize s)
                (fs.unlinkEntryFile (disk s) ns key)).
Proof. intros Hfile Hstale. unfold get_file. by rewrite Hfile, Hstale. Qed.

Lemma get_file_unreadable ns key now s acceptExpired :
  file_unreadable s ns key → get_file ns key acceptExpired now s = (None, s).
Proof. unfold get_file. by intros [->|[bytes ->]]. Qed.

Lemma cached_get_fresh ns id (t0 d : Z) v s now :
  cached s ns id t0 d v → now - t0 ≤ d → fst (get ns id false now s) = Some v.
Proof.
  intros (Hmem & Hfile & Hsome) Hnow. unfold get.
  assert (Hfresh : isExpired now t0 d = false) by (by apply isExpired_false).
  destruct Hmem as [(e & -> & <- & <- & <-)|Hnone].
  - by rewrite Hfresh.
  - rewrite Hnone.
    destruct Hsome as [(e & He & _)|(bytes & e & He & <- & <- & <-)]; [congruence|].
    by eapply get_file_fresh.
Qed.

Lemma cached_get_stale ns id (t0 d : Z) v s now :
  cached s ns id t0 d v → d < now - t0 → fst (get ns id false now s) = None.
Proof.
  intros (Hmem & Hfile & Hsome) Hnow. unfold get.
  assert (Hstale : isExpired now t0 d = true) by (by apply isExpired_true).
  destruct Hmem as [(e & -> & <- & <- & <-)|Hnone].
  - rewrite Hstale. simpl.
    destruct Hfile as [(bytes & e' & He & Ht & Hd & _)|Hbad].
    + erewrite get_file_stale; [done | exact He |]. by rewrite Ht, Hd.
    + by rewrite get_file_unreadable.
  - rewrite Hnone.
    destruct Hsome as [(e & He & _)|(bytes & e & He & <- & <- & <-)]; [congruence|].
    by erewrite get_file_stale.
Qed.

(** C5 as the code has it.  When the memory tier has nothing for the key
    and the entry file is there and expired, [get] without
    [acceptExpired] deletes the entry file and returns absent; the
    metadata document of the namespace is left as it was, so the record
    of the key stays in it. *)
Theorem get_expired_file_removed ns id now s bytes e :
  JsMap.get (generateKey ns id) (memoryCache s) = None →
  fs.entryFile (disk s) ns (generateKey ns id) = Some (EntryText bytes e) →
  isExpired now (CacheEntry.timestamp e) (CacheEntry.ttl e) = true →
  fst (get ns id false now s) = None ∧
  fs.entryFile (disk (snd (get ns id false now s))) ns (generateKey ns id) = None ∧
  fs.metadataFile (disk (snd (get ns id false now s))) ns = fs.metadataFile (disk s) ns ∧
  loadMetadata (disk (snd (get ns id false now s))) ns = loadMetadata (disk s) ns ∧
  memoryCache (snd (get ns id false now s)) = memoryCache s.
Proof.
  intros Hmem Hfile Hstale. unfold get. rewrite Hmem.
  erewrite get_file_stale by done. simpl.
  split; [done|]. split; [|split; [|split]].
  - rewrite entryFile_unlink. by rewrite decide_True.
  - apply metadataFile_unlink.
  - unfold loadMetadata. by rewrite metadataFile_unlink.
  - done.
Qed.
End FileTier.

(** ** Serialization *)

Section Serialization.
Import CacheManager.

Lemma sequence_map_Some {A B : Type} (f : A → option B) (l : list A) :
  (∀ x, In x l → ∃ y, f x = Some y) → ∃ ys, JS.sequence (map f l) = Some ys.
Proof.
  induction l as [|x l IH]; simpl; intros H; [eauto|].
  destruct (H x) as [y ->]; [by left|].
  destruct IH as [ys ->]; [intros; apply H; by right|]. eauto.
Qed.

Lemma visited_bounded (h : JS.heap) (visited : list nat) :
  List.NoDup visited → (∀ l, In l visited → (l < length h)%nat) →
  (length visited ≤ length h)%nat.
Proof.
  intros Hnd Hlt. rewrite <- (length_seq (length h) 0).
  apply NoDup_incl_length; [done|]. intros l Hl. apply in_seq. specialize (Hlt l Hl). lia.
Qed.

Lemma existsb_eqb_false l visited :
  existsb (Nat.eqb l) visited = false → ¬ In l visited.
Proof.
  intros H Hin. assert (existsb (Nat.eqb l) visited = true); [|congruence].
  apply existsb_exists. exists l. split; [done|]. apply Nat.eqb_refl.
Qed.

Lemma deref_dangling (h : JS.heap) l : (length h ≤ l)%nat → JS.deref h l = JS.Obj [].
Proof. intros H. unfold JS.deref. by apply nth_overflow. Qed.

(** With as much fuel as there are objects not yet on the chain, and one
    more, [safeStringify] returns: the chain never repeats an object, so
    it cannot outgrow the heap. *)
Lemma safeStringify_fuel fuel (h : JS.heap) obj visited :
  List.NoDup visited → (∀ l, In l visited → (l < length h)%nat) →
  (length h < fuel + length visited)%nat →
  ∃ text, safeStringify fuel h obj visited = Some text.
Proof.
  revert obj visited. induction fuel as [|fuel IH]; intros obj visited Hnd Hlt Hfuel.
  - pose proof (visited_bounded h visited Hnd Hlt). lia.
  - destruct obj as [| | | |l]; simpl; [eauto..|].
    destruct (existsb (Nat.eqb l) visited) eqn:Hvisited; [eauto|].
    apply existsb_eqb_false in Hvisited.
    destruct (le_lt_dec (length h) l) as [Hdangling|Hvalid].
    { rewrite deref_dangling by done. simpl. eauto. }
    assert (Hnd' : List.NoDup (l :: visited)) by by constructor.
    assert (Hlt' : ∀ l', In l' (l :: visited) → (l' < length h)%nat).
    { intros l' [<-|Hin]; [done | by apply Hlt]. }
    assert (Hfuel' : (length h < fuel + length (l :: visited))%nat) by (simpl; lia).
    destruct (JS.deref h l) as [items|fields].
    + destruct (sequence_map_Some
                  (fun item => safeStringify fuel h item (l :: visited)) items)
        as [parts ->]; [|eauto].
      intros item _. by apply IH.
    + destruct (sequence_map_Some
                  (fun kv : string * JS.value =>
                     match safeStringify fuel h (snd kv) (l :: visited) with
                     | Some s => Some (JS.dquote ++ fst kv ++ JS.dquote ++ ":" ++ s)
                     | None => None
                     end) fields)
        as [parts ->]; [|eauto].
      intros kv _. destruct (IH (snd kv) (l :: visited) Hnd' Hlt' Hfuel') as [text ->].
      eauto.
Qed.

(** The fingerprint exists for every payload, cyclic or not. *)
Lemma generateFingerprint_total data : ∃ fp, generateFingerprint data = Some fp.
Proof.
  unfold generateFingerprint.
  destruct (safeStringify_fuel (JS.fuel_for (JS.store data)) (JS.store data)
              (JS.root data) []) as [text ->]; [constructor | by intros ? [] | |eauto].
  unfold JS.fuel_for. simpl. lia.
Qed.

(** *** Acyclic payloads *)

Lemma descends_snoc h l l' l'' : descends h l l' → holds h l' l'' → descends h l l''.
Proof.
  induction 1 as [l l' H|l l' m H Hd IH]; intros Hlast.
  - eapply descends_below; [exact H | by apply descends_child].
  - eapply descends_below; [exact H | by apply IH].
Qed.

Lemma chain_descends h top stack l :
  chain h (top :: stack) → In l stack → descends h l top.
Proof.
  revert top. induction stack as [|top' stack IH]; intros top Hchain; [done|].
  inversion Hchain as [| |? ? ? Hholds Hchain']; subst.
  intros [->|Hin]; [by apply descends_child|].
  eapply descends_snoc; [by apply IH | done].
Qed.

Lemma existsb_eqb_true l stack : existsb (Nat.eqb l) stack = true → In l stack.
Proof.
  intros H. apply existsb_exists in H as [l' [Hin Heq]].
  apply Nat.eqb_eq in Heq. by subst.
Qed.

Lemma leads_to_cycle_child (h : JS.heap) l v' :
  In v' (children (JS.deref h l)) → leads_to_cycle h v' → leads_to_cycle h (JS.Ref l).
Proof.
  intros Hin (l' & c & -> & Hreach & Hcycle). exists l, c. split; [done|].
  split; [|done]. right. destruct Hreach as [->|Hdesc].
  - by apply descends_child.
  - by apply descends_below with l'.
Qed.

Lemma stringify_indent_acyclic fuel (h : JS.heap) stack indent v :
  ¬ leads_to_cycle h v →
  List.NoDup stack → (∀ l, In l stack → (l < length h)%nat) →
  (length h < fuel + length stack)%nat →
  chain h stack →
  (∀ l top rest, v = JS.Ref l → stack = top :: rest → holds h top l) →
  ∃ text, JS.stringify_indent fuel h stack indent v = Some text.
Proof.
  revert stack indent v.
  induction fuel as [|fuel IH]; intros stack indent v Hacyclic Hnd Hlt Hfuel Hchain Hheld.
  - pose proof (visited_bounded h stack Hnd Hlt). lia.
  - destruct v as [| | | |l]; simpl; [eauto..|].
    destruct (existsb (Nat.eqb l) stack) eqn:Hstack.
    { exfalso. apply existsb_eqb_true in Hstack.
      destruct stack as [|top rest]; [done|].
      specialize (Hheld l top rest eq_refl eq_refl).
      apply Hacyclic. exists l, l. split; [done|]. split; [by left|].
      destruct Hstack as [->|Hin].
      - by apply descends_child.
      - eapply descends_snoc; [|exact Hheld]. by apply chain_descends with rest. }
    apply existsb_eqb_false in Hstack.
    destruct (le_lt_dec (length h) l) as [Hdangling|Hvalid].
    { rewrite deref_dangling by done. eauto. }
    assert (Hnd' : List.NoDup (l :: stack)) by by constructor.
    assert (Hlt' : ∀ l', In l' (l :: stack) → (l' < length h)%nat).
    { intros l' [<-|Hin]; [done | by apply Hlt]. }
    assert (Hfuel' : (length h < fuel + length (l :: stack))%nat) by (simpl; lia).
    assert (Hchain' : chain h (l :: stack)).
    { destruct stack as [|top rest]; [constructor|].
      constructor; [by apply (Hheld l top rest) | done]. }
    assert (Hchild : ∀ v', In v' (children (JS.deref h l)) →
              ∀ indent', ∃ text,
                JS.stringify_indent fuel h (l :: stack) indent' v' = Some text).
    { intros v' Hin indent'. apply IH; try done.
      - intros Hcycle. apply Hacyclic. by apply leads_to_cycle_child with v'.
      - intros l' top rest -> [= <- <-]. exact Hin. }
    destruct (JS.deref h l) as [[|item items]|[|field fields]]; [eauto| |eauto|].
    + destruct (sequence_map_Some
                  (JS.stringify_indent fuel h (l :: stack) (indent ++ "  "))
                  (item :: items)) as [parts ->]; [|eauto].
      intros v' Hin. by apply Hchild.
    + destruct (sequence_map_Some
                  (fun kv : string * JS.value =>
                     match JS.stringify_indent fuel h (l :: stack) (indent ++ "  ")
                             (snd kv) with
                     | Some s => Some (JS.quote (fst kv) ++ ": " ++ s)
                     | None => None
                     end) (field :: fields)) as [parts ->]; [|eauto].
      intros kv Hin.
      destruct (Hchild (snd kv) (in_map snd _ _ Hin) (indent ++ "  ")) as [text ->].
      eauto.
Qed.

(** [JSON.stringify(entry, null, 2)] does not raise on an entry whose
    payload is acyclic. *)
Lemma stringify_entry_acyclic entry :
  acyclic (CacheEntry.data entry) → ∃ content, stringify_entry entry = Some content.
Proof.
  intros Hacyclic. unfold stringify_entry.
  destruct (stringify_indent_acyclic
              (JS.fuel_for (JS.store (CacheEntry.data entry)))
              (JS.store (CacheEntry.data entry)) [] "  "
              (JS.root (CacheEntry.data entry)) Hacyclic)
    as [text ->]; [constructor | by intros ? [] | | constructor | done | eauto].
  unfold JS.fuel_for. simpl. lia.
Qed.

Lemma sequence_map_None {A B : Type} (f : A → option B) (l : list A) x :
  In x l → f x = None → JS.sequence (map f l) = None.
Proof.
  induction l as [|y l IH]; simpl; [done|].
  intros [->|Hin] Hx.
  - by rewrite Hx.
  - destruct (f y); [|done]. by rewrite IH.
Qed.

(** From an object that reaches a cycle, one of the objects it holds
    reaches it too. *)
Lemma cycle_continues (h : JS.heap) l c :
  reaches h l c → descends h c c →
  ∃ l', holds h l l' ∧ reaches h l' c.
Proof.
  intros [->|Hdesc] Hcycle.
  - inversion Hcycle as [? l' Hholds|? l' ? Hholds Hrest]; subst.
    + exists c. split; [done | by left].
    + exists l'. split; [done | by right].
  - inversion Hdesc as [? ? Hholds|? l' ? Hholds Hrest]; subst.
    + exists c. split; [done | by left].
    + exists l'. split; [done | by right].
Qed.

(** [JSON.stringify] raises on every value that leads to a cycle,
    whatever the fuel. *)
Lemma stringify_indent_cyclic fuel (h : JS.heap) stack indent v :
  leads_to_cycle h v → JS.stringify_indent fuel h stack indent v = None.
Proof.
  revert stack indent v.
  induction fuel as [|fuel IH]; intros stack indent v (l & c & -> & Hreach & Hcycle);
    simpl; [done|].
  destruct (existsb (Nat.eqb l) stack); [done|].
  destruct (cycle_continues h l c Hreach Hcycle) as (l' & Hholds & Hreach').
  assert (Hchild : ∀ indent',
            JS.stringify_indent fuel h (l :: stack) indent' (JS.Ref l') = None).
  { intros indent'. apply IH. by exists l', c. }
  unfold holds in Hholds.
  destruct (JS.deref h l) as [items|fields]; cbn [children] in Hholds.
  - destruct items as [|item items]; [destruct Hholds|].
    by rewrite (sequence_map_None _ _ (JS.Ref l') Hholds (Hchild _)).
  - destruct fields as [|field fields]; [destruct Hholds|].
    apply in_map_iff in Hholds as (kv & Hkv & Hin).
    rewrite (sequence_map_None _ _ kv Hin); [done|]. by rewrite Hkv, Hchild.
Qed.

Lemma stringify_entry_cyclic entry :
  cyclic (CacheEntry.data entry) → stringify_entry entry = None.
Proof.
  intros Hcyclic. unfold stringify_entry.
  by rewrite (stringify_indent_cyclic _ _ _ _ _ Hcyclic).
Qed.

Lemma forward_from_nth base (h : JS.heap) i :
  forward_from base h = true → (i < length h)%nat →
  forallb (forward_value (base + i)) (children (nth i h (JS.Obj []))) = true.
Proof.
  revert base i. induction h as [|o h IH]; intros base i; simpl; [lia|].
  intros [Ho Hh]%andb_prop Hi. destruct i as [|i].
  - by rewrite Nat.add_0_r.
  - replace (base + S i)%nat with (S base + i)%nat by lia. apply IH; [done | lia].
Qed.

Lemma forward_holds (h : JS.heap) l l' :
  forward_from 0 h = true → holds h l l' → (l < l')%nat.
Proof.
  intros Hfwd Hholds. unfold holds, JS.deref in Hholds.
  destruct (le_lt_dec (length h) l) as [Hout|Hin].
  - by rewrite nth_overflow in Hholds.
  - pose proof (forward_from_nth 0 h l Hfwd Hin) as Hall.
    rewrite forallb_forall in Hall. specialize (Hall _ Hholds).
    simpl in Hall. by apply Nat.ltb_lt in Hall.
Qed.

Lemma forward_only_acyclic data : forward_only data = true → acyclic data.
Proof.
  intros Hfwd (l & c & _ & _ & Hcycle).
  assert (Hlt : ∀ a b, descends (JS.store data) a b → (a < b)%nat).
  { induction 1 as [a b H|a b c' H _ IH].
    - by apply forward_holds with (JS.store data).
    - pose proof (forward_holds _ _ _ Hfwd H). lia. }
  specialize (Hlt c c Hcycle). lia.
Qed.
End Serialization.

(** ** [set] and what it leaves in the two tiers *)

Section SetGet.
Import CacheManager.

Lemma set_stores ns id data options now s :
  acyclic data → fs.existsDir (disk s) ns = true →
  ∃ s', set ns id data options now s = Resolved s' ∧
        cached s' ns id now (ttl_of options) data.
Proof.
  intros Hacyclic Hdir. unfold set.
  destruct (generateFingerprint_total data) as [fp ->].
  destruct (stringify_entry_acyclic
              (CacheEntry.Make data now (ttl_of options) 0 (generateKey ns id)))
    as [content ->]; [done|].
  destruct (writeEntryFile_exists (disk s) ns (generateKey ns id)
              (EntryText (Z.to_N (JS.byteLength content))
                 (CacheEntry.Make data now (ttl_of options) 0 (generateKey ns id))) Hdir)
    as [d1 Hwrite].
  rewrite Hwrite. eexists. split; [reflexivity|].
  assert (Hfile : file_holds
            (addToMemory (generateKey ns id)
               (CacheEntry.with_size
                  (CacheEntry.Make data now (ttl_of options) 0 (generateKey ns id))
                  (JS.byteLength content))
               (JS.byteLength content)
               (Make (memoryCache s) (currentMemorySize s)
                  (saveMetadata d1 ns
                     (<[generateKey ns id :=
                          CacheMetadata.Make (generateKey ns id) now (ttl_of options)
                            (JS.byteLength content) fp now]> (loadMetadata d1 ns)))))
            ns (generateKey ns id) now (ttl_of options) data).
  { eexists _, _. rewrite addToMemory_disk. simpl.
    rewrite entryFile_saveMetadata, (entryFile_write _ _ _ _ _ _ _ Hwrite).
    rewrite decide_True by done. done. }
  split; [|split; [by left | by right]].
  match goal with |- _ ∨ JsMap.get ?k ?m = None => destruct (JsMap.get k m) as [e|] eqn:Hget end;
    [left | by right].
  pose proof (addToMemory_get _ _ _ _ _ _ Hget) as Hset. simpl in Hset.
  rewrite get_set_eq in Hset. injection Hset as <-.
  eexists. split; [exact Hget | done].
Qed.



(** *** The scenarios of the claims, evaluated *)

Example generateKey_two_sum : generateKey "grind75" "two-sum" = two_sum_key.
Proof. by vm_compute. Qed.

(** After [set] in a namespace and [invalidate] of that namespace, the
    entry file is gone but the memory tier still has the entry, and [get]
    returns it. *)
Example invalidate_namespace_example :
  memoryCache
    (state_of (invalidate "grind75" None
       (state_of (set "grind75" "two-sum" two_sum CacheOptions.none 1000 fresh))))
  = memoryCache (state_of (set "grind75" "two-sum" two_sum CacheOptions.none 1000 fresh)) ∧
  fs.entryFile
    (disk (state_of (invalidate "grind75" None
       (state_of (set "grind75" "two-sum" two_sum CacheOptions.none 1000 fresh)))))
    "grind75" two_sum_key = None ∧
  fst (get "grind75" "two-sum" false 2000
         (state_of (invalidate "grind75" None
            (state_of (set "grind75" "two-sum" two_sum CacheOptions.none 1000 fresh)))))
  = Some two_sum.
Proof. split; [|split]; by vm_compute. Qed.

(** Two calls of [set] on one key: the memory tier holds one entry of 184
    bytes and the running total is 368. *)
Example set_twice_example :
  map (fun kv => CacheEntry.size (snd kv))
    (memoryCache
       (state_of (set "grind75" "two-sum" two_sum CacheOptions.none 2000
          (state_of (set "grind75" "two-sum" two_sum CacheOptions.none 1000 fresh)))))
  = [184] ∧
  currentMemorySize
    (state_of (set "grind75" "two-sum" two_sum CacheOptions.none 2000
       (state_of (set "grind75" "two-sum" two_sum CacheOptions.none 1000 fresh))))
  = 368.
Proof. split; by vm_compute. Qed.

(** Against C5 as stated: the expired entry file is deleted, the metadata
    record of the key is still in the document. *)
Lemma get_expired_leaves_metadata_record :
  fst (get "grind75" "two-sum" false 5000 cold_start) = None ∧
  fs.entryFile (disk (snd (get "grind75" "two-sum" false 5000 cold_start)))
    "grind75" two_sum_key = None ∧
  CacheMetadata.timestamp <$>
    loadMetadata (disk (snd (get "grind75" "two-sum" false 5000 cold_start))) "grind75"
      !! two_sum_key
  = Some 1000.
Proof. split; [|split]; by vm_compute. Qed.

Lemma get_expired_file_removed_witness :
  JsMap.get (generateKey "grind75" "two-sum") (memoryCache cold_start) = None ∧
  fs.entryFile (disk cold_start) "grind75" (generateKey "grind75" "two-sum")
  = Some (EntryText 179 cold_entry) ∧
  isExpired 5000 (CacheEntry.timestamp cold_entry) (CacheEntry.ttl cold_entry) = true ∧
  fst (get "grind75" "two-sum" false 5000 cold_start) = None ∧
  fs.entryFile (disk (snd (get "grind75" "two-sum" false 5000 cold_start)))
    "grind75" (generateKey "grind75" "two-sum") = None ∧
  fs.metadataFile (disk (snd (get "grind75" "two-sum" false 5000 cold_start))) "grind75"
  = fs.metadataFile (disk cold_start) "grind75" ∧
  loadMetadata (disk (snd (get "grind75" "two-sum" false 5000 cold_start))) "grind75"
  = loadMetadata (disk cold_start) "grind75" ∧
  memoryCache (snd (get "grind75" "two-sum" false 5000 cold_start)) = memoryCache cold_start.
Proof.
  split; [by vm_compute|]. split; [by vm_compute|]. split; [by vm_compute|].
  apply (get_expired_file_removed "grind75" "two-sum" 5000 cold_start 179 cold_entry);
    by vm_compute.
Defined.

Lemma two_sum_acyclic : acyclic two_sum.
Proof. by apply forward_only_acyclic. Qed.

Lemma fresh_has_grind75 : fs.existsDir (disk fresh) "grind75" = true.
Proof. by vm_compute. Qed.




End SetGet.

(** ** What the cache can tell about a disk *)

Section Observation.
Import CacheManager.
Implicit Types (d : filesystem) (s : CacheManager.t) (ns key : string).

Lemma same_disk_refl d : same_disk d d.
Proof. by repeat split. Qed.

Lemma same_cache_refl s : same_cache s s.
Proof. repeat split. Qed.

Lemma existsDir_unlink d ns key ns' :
  fs.existsDir (fs.unlinkEntryFile d ns key) ns' = fs.existsDir d ns'.
Proof.
  unfold fs.unlinkEntryFile, fs.existsDir.
  destruct (d !! ns) as [dir|] eqn:Hdir; [|done].
  by same_or_other_namespace ns ns' Hdir.
Qed.

Lemma existsDir_saveMetadata d ns m ns' :
  fs.existsDir (saveMetadata d ns m) ns' = fs.existsDir d ns'.
Proof.
  unfold saveMetadata, fs.writeMetadataFile, fs.existsDir.
  destruct (d !! ns) as [dir|] eqn:Hdir; [|done].
  by same_or_other_namespace ns ns' Hdir.
Qed.

Lemma loadMetadata_write d ns key f d' ns' :
  fs.writeEntryFile d ns key f = Some d' → loadMetadata d' ns' = loadMetadata d ns'.
Proof. intros H. unfold loadMetadata. by rewrite (metadataFile_write _ _ _ _ _ _ H). Qed.

Lemma loadMetadata_unlink d ns key ns' :
  loadMetadata (fs.unlinkEntryFile d ns key) ns' = loadMetadata d ns'.
Proof. unfold loadMetadata. by rewrite metadataFile_unlink. Qed.

Lemma loadMetadata_save d ns m ns' :
  loadMetadata (saveMetadata d ns m) ns' =
    if decide (ns = ns' ∧ fs.existsDir d ns = true) then m else loadMetadata d ns'.
Proof.
  unfold loadMetadata. rewrite metadataFile_saveMetadata. by case_decide.
Qed.

Lemma writeEntryFile_None d ns key f :
  fs.writeEntryFile d ns key f = None ↔ fs.existsDir d ns = false.
Proof. unfold fs.writeEntryFile, fs.existsDir. by destruct (d !! ns). Qed.

Lemma same_disk_unlink d d' ns key :
  same_disk d d' → same_disk (fs.unlinkEntryFile d ns key) (fs.unlinkEntryFile d' ns key).
Proof.
  intros (Hdir & Hfile & Hmeta). split; [|split].
  - intros ns'. by rewrite !existsDir_unlink.
  - intros ns' key'. rewrite !entryFile_unlink. by rewrite Hfile.
  - intros ns'. by rewrite !loadMetadata_unlink.
Qed.

Lemma same_disk_saveMetadata d d' ns m :
  same_disk d d' → same_disk (saveMetadata d ns m) (saveMetadata d' ns m).
Proof.
  intros (Hdir & Hfile & Hmeta). split; [|split].
  - intros ns'. by rewrite !existsDir_saveMetadata.
  - intros ns' key'. by rewrite !entryFile_saveMetadata.
  - intros ns'. rewrite !loadMetadata_save. by rewrite Hdir, Hmeta.
Qed.

Lemma same_disk_write d d' ns key f :
  same_disk d d' →
  match fs.writeEntryFile d ns key f, fs.writeEntryFile d' ns key f with
  | Some d1, Some d1' => same_disk d1 d1'
  | None, None => True
  | _, _ => False
  end.
Proof.
  intros (Hdir & Hfile & Hmeta).
  destruct (fs.writeEntryFile d ns key f) as [d1|] eqn:H1;
    destruct (fs.writeEntryFile d' ns key f) as [d1'|] eqn:H1'.
  - split; [|split].
    + intros ns'. by rewrite (existsDir_write _ _ _ _ _ _ H1), (existsDir_write _ _ _ _ _ _ H1').
    + intros ns' key'.
      rewrite (entryFile_write _ _ _ _ _ _ _ H1), (entryFile_write _ _ _ _ _ _ _ H1').
      by rewrite Hfile.
    + intros ns'.
      by rewrite (loadMetadata_write _ _ _ _ _ _ H1), (loadMetadata_write _ _ _ _ _ _ H1').
  - apply writeEntryFile_None in H1'. rewrite <- Hdir in H1'.
    apply writeEntryFile_None with (key := key) (f := f) in H1'. congruence.
  - apply writeEntryFile_None in H1. rewrite Hdir in H1.
    apply writeEntryFile_None with (key := key) (f := f) in H1. congruence.
  - done.
Qed.

(** The memory tier evolves without looking at the disk. *)
Lemma evict_loop_same es s s' :
  memoryCache s = memoryCache s' → currentMemorySize s = currentMemorySize s' →
  memoryCache (evict_loop es s) = memoryCache (evict_loop es s') ∧
  currentMemorySize (evict_loop es s) = currentMemorySize (evict_loop es s').
Proof.
  revert s s'. induction es as [|[key entry] es IH]; intros s s' Hm Hc; simpl; [done|].
  rewrite <- Hc. destruct (_ >? _); [|done].
  apply IH; simpl; congruence.
Qed.

Lemma addToMemory_same key e sz s s' :
  same_cache s s' → same_cache (addToMemory key e sz s) (addToMemory key e sz s').
Proof.
  intros (Hm & Hc & Hd). unfold same_cache.
  rewrite !addToMemory_disk. split; [|split; [|done]].
  - unfold addToMemory. simpl. rewrite <- Hc. destruct (_ >? _); simpl; [|congruence].
    unfold evictMemoryCache. simpl. rewrite <- Hm.
    apply evict_loop_same; simpl; congruence.
  - unfold addToMemory. simpl. rewrite <- Hc. destruct (_ >? _); simpl; [|congruence].
    unfold evictMemoryCache. simpl. rewrite <- Hm.
    apply evict_loop_same; simpl; congruence.
Qed.

Lemma get_file_same ns key acceptExpired now s s' :
  same_cache s s' →
  fst (get_file ns key acceptExpired now s) = fst (get_file ns key acceptExpired now s') ∧
  same_cache (snd (get_file ns key acceptExpired now s))
             (snd (get_file ns key acceptExpired now s')).
Proof.
  intros Hs. pose proof Hs as (Hm & Hc & Hdir & Hfile & Hmeta).
  unfold get_file. rewrite <- Hfile.
  destruct (fs.entryFile (disk s) ns key) as [[bytes entry|bytes]|]; [|done..].
  destruct (_ || _); simpl.
  - split; [done|].
    pose proof (addToMemory_same key (CacheEntry.with_size entry (Z.of_N bytes))
                  (Z.of_N bytes) s s' Hs) as (Hm1 & Hc1 & Hd1).
    rewrite <- (proj2 (proj2 Hd1) ns).
    destruct (loadMetadata _ ns !! key); [|done].
    split; [done|]. split; [done|]. simpl. by apply same_disk_saveMetadata.
  - split; [done|]. split; [done|]. split; [done|]. simpl. by apply same_disk_unlink.
Qed.

Lemma get_same ns id acceptExpired now s s' :
  same_cache s s' →
  fst (get ns id acceptExpired now s) = fst (get ns id acceptExpired now s') ∧
  same_cache (snd (get ns id acceptExpired now s)) (snd (get ns id acceptExpired now s')).
Proof.
  intros Hs. pose proof Hs as (Hm & Hc & Hd). unfold get. rewrite <- Hm.
  destruct (JsMap.get _ (memoryCache s)) as [memoryEntry|]; [|by apply get_file_same].
  destruct (_ || _); [done|].
  apply get_file_same. split; [|split]; simpl; congruence.
Qed.

Lemma set_same ns id data options now s s' :
  same_cache s s' →
  match set ns id data options now s, set ns id data options now s' with
  | Resolved t, Resolved t' => same_cache t t'
  | Rejected e t, Rejected e' t' => e = e' ∧ same_cache t t'
  | _, _ => False
  end.
Proof.
  intros Hs. pose proof Hs as (Hm & Hc & Hd). unfold set.
  destruct (generateFingerprint data) as [fp|]; [|done].
  destruct (stringify_entry _) as [content|]; [|done].
  pose proof (same_disk_write (disk s) (disk s') ns (generateKey ns id)
                (EntryText (Z.to_N (JS.byteLength content))
                   (CacheEntry.Make data now (ttl_of options) 0 (generateKey ns id))) Hd)
    as Hwrite.
  destruct (fs.writeEntryFile (disk s) _ _ _) as [d1|];
    destruct (fs.writeEntryFile (disk s') _ _ _) as [d1'|]; try done.
  apply addToMemory_same. split; [done|]. split; [done|]. simpl.
  rewrite <- (proj2 (proj2 Hwrite) ns). by apply same_disk_saveMetadata.
Qed.

Lemma cleanup_fold_same ns now l d d' updated removedCount :
  same_disk d d' →
  same_disk (fold_left (cleanup_step ns now) l (d, updated, removedCount)).1.1
            (fold_left (cleanup_step ns now) l (d', updated, removedCount)).1.1 ∧
  (fold_left (cleanup_step ns now) l (d, updated, removedCount)).1.2
  = (fold_left (cleanup_step ns now) l (d', updated, removedCount)).1.2 ∧
  (fold_left (cleanup_step ns now) l (d, updated, removedCount)).2
  = (fold_left (cleanup_step ns now) l (d', updated, removedCount)).2.
Proof.
  revert d d' updated removedCount.
  induction l as [|[key entry] l IH]; intros d d' updated removedCount Hd; [done|].
  simpl. destruct (isExpired _ _ _); [|by apply IH].
  rewrite <- (proj1 (proj2 Hd) ns key).
  destruct (fs.entryFile d ns key); [|by apply IH].
  by apply IH, same_disk_unlink.
Qed.

Lemma cleanup_namespace_same now d d' ns :
  same_disk d d' → same_disk (cleanup_namespace now d ns) (cleanup_namespace now d' ns).
Proof.
  intros Hd. unfold cleanup_namespace. rewrite <- (proj2 (proj2 Hd) ns).
  pose proof (cleanup_fold_same ns now (map_to_list (loadMetadata d ns)) d d' ∅ O Hd)
    as (Hd1 & Hu & Hn).
  destruct (fold_left _ _ (d, _, _)) as [[d1 u1] n1].
  destruct (fold_left _ _ (d', _, _)) as [[d1' u1'] n1']. simpl in *. subst.
  destruct (0 <? n1')%nat; [by apply same_disk_saveMetadata | done].
Qed.

Lemma cleanup_same now s s' : same_cache s s' → same_cache (cleanup now s) (cleanup now s').
Proof.
  intros (Hm & Hc & Hd). split; [done|]. split; [done|]. unfold cleanup. simpl.
  by do 3 apply cleanup_namespace_same.
Qed.

Lemma getCacheStatus_same namespace now s s' :
  same_cache s s' → getCacheStatus namespace now s = getCacheStatus namespace now s'.
Proof.
  intros (Hm & Hc & Hdir & Hfile & Hmeta). unfold getCacheStatus.
  rewrite Hm, Hc. f_equal. apply map_ext. intros ns.
  unfold namespaceStatus. by rewrite Hmeta.
Qed.

(** *** An unreadable metadata document *)

Lemma loadMetadata_unreadable d ns : metadata_unreadable d ns → loadMetadata d ns = ∅.
Proof. unfold loadMetadata. by intros [->| ->]. Qed.

Lemma with_empty_metadata_same ns s :
  metadata_unreadable (disk s) ns → same_cache s (with_empty_metadata ns s).
Proof.
  intros Hbad. split; [done|]. split; [done|]. simpl. split; [|split].
  - intros ns'. by rewrite existsDir_saveMetadata.
  - intros ns' key. by rewrite entryFile_saveMetadata.
  - intros ns'. rewrite loadMetadata_save. case_decide as H; [|done].
    destruct H as [<- _]. by apply loadMetadata_unreadable.
Qed.

(** C9.  When the metadata document of a namespace is missing or does
    not parse, [loadMetadata] returns the empty mapping, and [get],
    [set], [getCacheStatus] and [cleanup] answer and leave the cache as
    they do when the document is the empty mapping. *)
Theorem metadata_self_healing ns s :
  metadata_unreadable (disk s) ns →
  loadMetadata (disk s) ns = ∅ ∧
  (∀ ns' id acceptExpired now,
      fst (get ns' id acceptExpired now s)
      = fst (get ns' id acceptExpired now (with_empty_metadata ns s)) ∧
      same_cache (snd (get ns' id acceptExpired now s))
                 (snd (get ns' id acceptExpired now (with_empty_metadata ns s)))) ∧
  (∀ ns' id data options now,
      match set ns' id data options now s,
            set ns' id data options now (with_empty_metadata ns s) with
      | Resolved t, Resolved t' => same_cache t t'
      | Rejected e t, Rejected e' t' => e = e' ∧ same_cache t t'
      | _, _ => False
      end) ∧
  (∀ namespace now,
      getCacheStatus namespace now s
      = getCacheStatus namespace now (with_empty_metadata ns s)) ∧
  (∀ now, same_cache (cleanup now s) (cleanup now (with_empty_metadata ns s))).
Proof.
  intros Hbad. pose proof (with_empty_metadata_same ns s Hbad) as Hsame.
  split; [by apply loadMetadata_unreadable|].
  split; [intros; by apply get_same|].
  split; [intros; by apply set_same|].
  split; [intros; by apply getCacheStatus_same | intros; by apply cleanup_same].
Qed.
End Observation.

(** ** The sweep of [cleanup] *)

Section Cleanup.
Import CacheManager.
Implicit Types (d : filesystem) (s : CacheManager.t) (ns key : string)
  (m u : gmap string CacheMetadata.t) (l : list (string * CacheMetadata.t)).

(** The loop of [cleanup] unlinks the files of the expired records,
    collects the valid ones and counts the expired ones. *)
Lemma cleanup_fold ns now l d u (n : nat) :
  fold_left (cleanup_step ns now) l (d, u, n) =
    (fold_left (unlink_if_exists ns) (expired_keys now l) d,
     fold_left (fun acc kr => <[fst kr := snd kr]> acc) (valid_pairs now l) u,
     (n + length (expired_keys now l))%nat).
Proof.
  revert d u n. induction l as [|[key entry] l IH]; intros d u n.
  - simpl. by rewrite Nat.add_0_r.
  - simpl. unfold expired_keys, valid_pairs, expired_record in *. simpl.
    destruct (isExpired _ _ _); simpl; rewrite IH; [|done].
    f_equal. lia.
Qed.

Lemma unlink_fold_entryFile ns (ks : list string) d ns' key' :
  fs.entryFile (fold_left (unlink_if_exists ns) ks d) ns' key' =
    if decide (ns = ns' ∧ key' ∈ ks) then None else fs.entryFile d ns' key'.
Proof.
  revert d. induction ks as [|k ks IH]; intros d; simpl.
  - rewrite decide_False; [done|]. intros [_ H]. by apply elem_of_nil in H.
  - rewrite IH. unfold unlink_if_exists.
    destruct (decide (ns = ns' ∧ key' ∈ ks)) as [[-> Hin]|Hnot].
    + rewrite decide_True; [done|]. split; [done | by apply elem_of_cons; right].
    + destruct (decide (ns = ns' ∧ k = key')) as [[-> ->]|Hne].
      * rewrite decide_True by (split; [done | by apply elem_of_cons; left]).
        destruct (fs.entryFile d ns' key') eqn:Hfile; [|done].
        rewrite entryFile_unlink. by rewrite decide_True.
      * rewrite decide_False.
        2:{ intros [-> Hin]. apply elem_of_cons in Hin as [->|Hin]; tauto. }
        destruct (fs.entryFile d ns k); [|done].
        rewrite entryFile_unlink. by rewrite decide_False.
Qed.

Lemma unlink_fold_metadataFile ns ks d ns' :
  fs.metadataFile (fold_left (unlink_if_exists ns) ks d) ns' = fs.metadataFile d ns'.
Proof.
  revert d. induction ks as [|k ks IH]; intros d; simpl; [done|].
  rewrite IH. unfold unlink_if_exists.
  destruct (fs.entryFile d ns k); [apply metadataFile_unlink | done].
Qed.

Lemma unlink_fold_existsDir ns ks d ns' :
  fs.existsDir (fold_left (unlink_if_exists ns) ks d) ns' = fs.existsDir d ns'.
Proof.
  revert d. induction ks as [|k ks IH]; intros d; simpl; [done|].
  rewrite IH. unfold unlink_if_exists.
  destruct (fs.entryFile d ns k); [apply existsDir_unlink | done].
Qed.

Lemma insert_fold_other l u key :
  ¬ In key (map fst l) →
  fold_left (fun acc kr => <[fst kr := snd kr]> acc) l u !! key = u !! key.
Proof.
  revert u. induction l as [|[k r] l IH]; intros u Hnotin; simpl; [done|].
  rewrite IH by (intros Hin; apply Hnotin; by right).
  apply lookup_insert_ne. intros ->. apply Hnotin. by left.
Qed.

Lemma insert_fold_member l u key r :
  List.NoDup (map fst l) → In (key, r) l →
  fold_left (fun acc kr => <[fst kr := snd kr]> acc) l u !! key = Some r.
Proof.
  revert u. induction l as [|[k0 r0] l IH]; intros u Hnd Hin; simpl; [done|].
  inversion Hnd as [|? ? Hnotin Hnd']; subst.
  destruct Hin as [[= -> ->]|Hin].
  - rewrite insert_fold_other by done. apply lookup_insert_eq.
  - by apply IH.
Qed.

Lemma NoDup_fst_filter (f : string * CacheMetadata.t → bool) l :
  List.NoDup (map fst l) → List.NoDup (map fst (List.filter f l)).
Proof.
  induction l as [|x l IH]; simpl; [done|].
  intros Hnd. inversion Hnd as [|? ? Hnotin Hnd']; subst.
  destruct (f x); simpl; [|by apply IH].
  constructor; [|by apply IH].
  intros Hin. apply Hnotin. apply in_map_iff in Hin as [y [Hy Hin]].
  apply filter_In in Hin as [Hin _]. rewrite <- Hy. by apply in_map.
Qed.

Lemma In_map_to_list m key r : In (key, r) (map_to_list m) ↔ m !! key = Some r.
Proof. rewrite <- list_elem_of_In. apply elem_of_map_to_list. Qed.

Lemma NoDup_keys_map_to_list m : List.NoDup (map fst (map_to_list m)).
Proof. apply NoDup_ListNoDup. apply (NoDup_fst_map_to_list m). Qed.

(** The mapping built by the loop is the mapping of the valid records. *)
Lemma collected_valid now m :
  fold_left (fun acc kr => <[fst kr := snd kr]> acc) (valid_pairs now (map_to_list m)) ∅
  = valid_records now m.
Proof.
  apply map_eq. intros key. unfold valid_records, valid_pairs.
  pose proof (NoDup_fst_filter (fun kr => negb (expired_record now (snd kr)))
                _ (NoDup_keys_map_to_list m)) as Hnd.
  destruct (m !! key) as [r|] eqn:Hm.
  - destruct (expired_record now r) eqn:Hr.
    + rewrite insert_fold_other.
      * rewrite lookup_empty. symmetry. apply map_lookup_filter_None. right.
        intros r' Hr'. simpl. assert (r' = r) as -> by congruence. by rewrite Hr.
      * intros Hin. apply in_map_iff in Hin as [[k r'] [Hk Hin]]. simpl in Hk. subst k.
        apply filter_In in Hin as [Hin Hvalid]. apply In_map_to_list in Hin.
        assert (r' = r) as -> by congruence. simpl in Hvalid. by rewrite Hr in Hvalid.
    + rewrite (insert_fold_member _ _ key r Hnd).
      * symmetry. by apply map_lookup_filter_Some.
      * apply filter_In. split; [by apply In_map_to_list | simpl; by rewrite Hr].
  - rewrite insert_fold_other.
    + rewrite lookup_empty. symmetry. apply map_lookup_filter_None. by left.
    + intros Hin. apply in_map_iff in Hin as [[k r'] [Hk Hin]]. simpl in Hk. subst k.
      apply filter_In in Hin as [Hin _]. apply In_map_to_list in Hin. congruence.
Qed.

Lemma elem_expired_keys now m key :
  key ∈ expired_keys now (map_to_list m) ↔ swept now m key = true.
Proof.
  unfold expired_keys, swept. rewrite list_elem_of_In, in_map_iff. split.
  - intros [[k r] [Hk Hin]]. simpl in Hk. subst k.
    apply filter_In in Hin as [Hin Hr]. apply In_map_to_list in Hin. by rewrite Hin.
  - destruct (m !! key) as [r|] eqn:Hm; [|done]. intros Hr.
    exists (key, r). split; [done|]. apply filter_In. split; [|done].
    by apply In_map_to_list.
Qed.

Lemma no_expired_valid now m :
  expired_keys now (map_to_list m) = [] → valid_records now m = m.
Proof.
  intros Hnone. apply map_filter_id. intros key r Hm. simpl.
  destruct (expired_record now r) eqn:Hr; [|done].
  assert (Hin : key ∈ expired_keys now (map_to_list m)).
  { apply elem_expired_keys. unfold swept. by rewrite Hm. }
  rewrite Hnone in Hin. by apply elem_of_nil in Hin.
Qed.

Lemma cleanup_namespace_entryFile now d ns ns' key' :
  fs.entryFile (cleanup_namespace now d ns) ns' key' =
    if decide (ns = ns' ∧ swept now (loadMetadata d ns) key' = true)
    then None else fs.entryFile d ns' key'.
Proof.
  unfold cleanup_namespace. rewrite cleanup_fold.
  assert (Hfiles :
    fs.entryFile (fold_left (unlink_if_exists ns)
                    (expired_keys now (map_to_list (loadMetadata d ns))) d) ns' key'
    = if decide (ns = ns' ∧ swept now (loadMetadata d ns) key' = true)
      then None else fs.entryFile d ns' key').
  { rewrite unlink_fold_entryFile.
    destruct (decide (ns = ns' ∧ swept now (loadMetadata d ns) key' = true)) as [[-> H]|H].
    - rewrite decide_True; [done|]. split; [done | by apply elem_expired_keys].
    - rewrite decide_False; [done|]. intros [-> Hin]. apply H.
      split; [done | by apply elem_expired_keys]. }
  destruct (0 <? _)%nat; [by rewrite entryFile_saveMetadata | done].
Qed.

Lemma cleanup_namespace_metadataFile now d ns ns' :
  fs.metadataFile (cleanup_namespace now d ns) ns' =
    if decide (ns = ns') then sweep_document now (fs.metadataFile d ns)
    else fs.metadataFile d ns'.
Proof.
  unfold cleanup_namespace. rewrite cleanup_fold. simpl.
  destruct (Nat.ltb_spec 0 (length (expired_keys now (map_to_list (loadMetadata d ns)))))
    as [Hsome|Hnone].
  - rewrite metadataFile_saveMetadata, unlink_fold_existsDir, unlink_fold_metadataFile.
    rewrite collected_valid. unfold loadMetadata in *.
    destruct (fs.metadataFile d ns) as [[m|]|] eqn:Hfile;
      try (rewrite map_to_list_empty in Hsome; simpl in Hsome; lia).
    assert (Hdir : fs.existsDir d ns = true).
    { unfold fs.metadataFile in Hfile. unfold fs.existsDir. by destruct (d !! ns). }
    destruct (decide (ns = ns')) as [<-|Hne].
    + by rewrite decide_True.
    + rewrite decide_False; [done | tauto].
  - rewrite unlink_fold_metadataFile.
    destruct (decide (ns = ns')) as [<-|Hne]; [|done].
    unfold loadMetadata in *.
    destruct (fs.metadataFile d ns) as [[m|]|] eqn:Hfile; [|done..]. simpl.
    rewrite no_expired_valid; [done|].
    destruct (expired_keys now (map_to_list m)); [done | simpl in Hnone; lia].
Qed.

Lemma cleanup_all_metadataFile now (nss : list string) d ns :
  List.NoDup nss →
  fs.metadataFile (fold_left (cleanup_namespace now) nss d) ns =
    if decide (ns ∈ nss) then sweep_document now (fs.metadataFile d ns)
    else fs.metadataFile d ns.
Proof.
  revert d. induction nss as [|n0 nss IH]; intros d Hnd; cbn [fold_left].
  - rewrite decide_False; [done|]. apply not_elem_of_nil.
  - inversion Hnd as [|? ? Hnotin Hnd']; subst.
    rewrite IH by done. rewrite !cleanup_namespace_metadataFile.
    destruct (decide (n0 = ns)) as [->|Hne].
    + rewrite decide_False by (by rewrite list_elem_of_In).
      rewrite decide_True; [done | by apply elem_of_cons; left].
    + destruct (decide (ns ∈ nss)) as [Hin|Hout].
      * rewrite decide_True; [done | by apply elem_of_cons; right].
      * rewrite decide_False; [done|].
        intros [->|Hin]%elem_of_cons; tauto.
Qed.

Lemma cleanup_namespace_loadMetadata_other now d ns ns' :
  ns ≠ ns' → loadMetadata (cleanup_namespace now d ns) ns' = loadMetadata d ns'.
Proof.
  intros Hne. unfold loadMetadata.
  rewrite (cleanup_namespace_metadataFile now d ns ns'). by rewrite decide_False.
Qed.

Lemma cleanup_all_entryFile now (nss : list string) d ns key :
  List.NoDup nss →
  fs.entryFile (fold_left (cleanup_namespace now) nss d) ns key =
    if decide (ns ∈ nss ∧ swept now (loadMetadata d ns) key = true)
    then None else fs.entryFile d ns key.
Proof.
  revert d. induction nss as [|n0 nss IH]; intros d Hnd; cbn [fold_left].
  - rewrite decide_False; [done|]. intros [H _]. inversion H.
  - inversion Hnd as [|? ? Hnotin Hnd']; subst.
    rewrite IH by done. rewrite cleanup_namespace_entryFile.
    destruct (decide (n0 = ns)) as [->|Hne].
    + rewrite decide_False by (intros [Hin _]; by apply list_elem_of_In in Hin).
      destruct (decide (ns = ns ∧ swept now (loadMetadata d ns) key = true)) as [[_ H]|H].
      * rewrite decide_True; [done|]. split; [by apply elem_of_cons; left | done].
      * rewrite decide_False; [done|]. intros [_ ?]. tauto.
    + rewrite (cleanup_namespace_loadMetadata_other now d n0 ns Hne).
      destruct (decide (n0 = ns ∧ _)) as [[? _]|_]; [congruence|].
      destruct (decide (ns ∈ nss ∧ swept now (loadMetadata d ns) key = true)) as [[Hin H]|H].
      * rewrite decide_True; [done|]. split; [by apply elem_of_cons; right | done].
      * rewrite decide_False; [done|].
        intros [[->|Hin]%elem_of_cons ?]; tauto.
Qed.

Lemma subdirs_NoDup : List.NoDup subdirs.
Proof. unfold subdirs. repeat constructor; simpl; intuition discriminate. Qed.

End Cleanup.

(** ** Where the code departs from the claims *)

Section Departures.
Import CacheManager.

Lemma string_length_append (a b : string) :
  String.length (a ++ b) = (String.length a + String.length b)%nat.
Proof. induction a as [|c a IH]; simpl; [done | by rewrite IH]. Qed.

Lemma generateKey_length ns id :
  String.length (generateKey ns id) = (String.length ns + 33)%nat.
Proof.
  unfold generateKey. rewrite !string_length_append, md5hex_length. simpl. lia.
Qed.

Lemma long_keys_set key e s d (c : Z) :
  (1 < String.length key)%nat → long_keys s →
  long_keys (Make (JsMap.set key e (memoryCache s)) c d).
Proof.
  unfold long_keys. rewrite !Forall_forall. simpl. intros Hkey H k Hk.
  apply list_elem_of_In, In_keys_set_inv in Hk as [->|Hk]; [done|].
  by apply H, list_elem_of_In.
Qed.

Lemma long_keys_delete_all ks s d (c : Z) :
  long_keys s → long_keys (Make (delete_all ks (memoryCache s)) c d).
Proof.
  unfold long_keys. rewrite !Forall_forall. simpl. intros H k Hk.
  apply list_elem_of_In, in_map_iff in Hk as (x & <- & Hx).
  apply In_delete_all_inv in Hx as [Hx _].
  apply H, list_elem_of_In. by apply in_map.
Qed.

Lemma long_keys_same s s' :
  memoryCache s' = memoryCache s → long_keys s → long_keys s'.
Proof. unfold long_keys. by intros ->. Qed.

Lemma long_keys_addToMemory key e sz s :
  (1 < String.length key)%nat → long_keys s → long_keys (addToMemory key e sz s).
Proof.
  intros Hkey Hs. unfold addToMemory. simpl.
  pose proof (long_keys_set key e s (disk s) (currentMemorySize s + sz) Hkey Hs) as Hset.
  destruct (_ >? _); [|done].
  destruct (evictMemoryCache_spec
              (Make (JsMap.set key e (memoryCache s)) (currentMemorySize s + sz) (disk s)))
    as (evicted & kept & _ & Hm & _).
  unfold long_keys. rewrite Hm.
  apply (long_keys_delete_all _ _ (disk s) 0 Hset).
Qed.

Lemma long_keys_get_file ns id acceptExpired now s :
  long_keys s →
  long_keys (snd (get_file ns (generateKey ns id) acceptExpired now s)).
Proof.
  intros Hs. unfold get_file.
  destruct (fs.entryFile _ _ _) as [[bytes entry|bytes]|]; [|done..].
  destruct (_ || _); [|done]. simpl.
  assert (Hadd : long_keys (addToMemory (generateKey ns id)
                              (CacheEntry.with_size entry (Z.of_N bytes)) (Z.of_N bytes) s)).
  { apply long_keys_addToMemory; [|done]. rewrite generateKey_length. lia. }
  by destruct (_ !! _).
Qed.

Lemma long_keys_step s o : long_keys s → long_keys (step s o).
Proof.
  intros Hs. destruct o as [ns id a now|ns id data options now|ns identifier|now]; simpl.
  - unfold get. destruct (JsMap.get _ _) as [e|]; [|by apply long_keys_get_file].
    destruct (_ || _); [done|].
    apply long_keys_get_file. apply (long_keys_delete_all [generateKey ns id] s). done.
  - unfold set. destruct (generateFingerprint data); [|done].
    destruct (stringify_entry _); [|done].
    destruct (fs.writeEntryFile _ _ _ _); [|done]. simpl.
    apply long_keys_addToMemory; [rewrite generateKey_length; lia | done].
  - unfold invalidate. destruct (given identifier) as [i|]; simpl.
    + apply (long_keys_delete_all [generateKey ns i] s). done.
    + generalize (JsMap.keys (memoryCache s)).
      assert (Hs' : long_keys (Make (memoryCache s) (currentMemorySize s)
                                 (if fs.existsDir (disk s) ns
                                  then fs.mkdirSync (fs.rmSync (disk s) ns) ns
                                  else disk s))) by done.
      revert Hs'. generalize (Make (memoryCache s) (currentMemorySize s)
                                 (if fs.existsDir (disk s) ns
                                  then fs.mkdirSync (fs.rmSync (disk s) ns) ns
                                  else disk s)).
      intros t Ht ks. revert t Ht.
      induction ks as [|[|c k] ks IH]; intros t Ht; cbn [purge_loop state_of]; [done..|].
      apply IH. destruct (String.prefix ns (String c EmptyString)); [|done].
      apply (long_keys_delete_all [String c EmptyString] t). done.
  - done.
Qed.

Lemma long_keys_run ops s : long_keys s → long_keys (run ops s).
Proof.
  revert s. induction ops as [|o ops IH]; intros s Hs; simpl; [done|].
  by apply IH, long_keys_step.
Qed.

(** The loop of [invalidate] leaves such a memory tier as it is. *)
Lemma purge_loop_long_keys ns ks s :
  long_keys s → Forall (fun k => (1 < String.length k)%nat) ks →
  purge_loop ns ks s = Resolved s.
Proof.
  intros Hs Hks. induction Hks as [|k ks Hk Hks IH]; [done|].
  destruct k as [|c k]; [simpl in Hk; lia|]. cbn [purge_loop].
  destruct (String.prefix ns (String c EmptyString)); [|done].
  rewrite delete_not_In.
  - destruct s. exact IH.
  - intros Hin. unfold long_keys in Hs. rewrite Forall_forall in Hs.
    apply list_elem_of_In, Hs in Hin. simpl in Hin. lia.
Qed.



Lemma sum_sizes_set key e (m : list (string * CacheEntry.t)) old :
  JsMap.get key m = Some old →
  sum_sizes (JsMap.set key e m) = sum_sizes m - CacheEntry.size old + CacheEntry.size e.
Proof.
  induction m as [|[k' v'] m IH]; simpl; [done|].
  destruct (String.eqb_spec key k') as [->|Hne].
  - intros [= ->]. simpl. lia.
  - intros Hget. simpl. rewrite IH by done. lia.
Qed.



(** C1.  [set] of a payload that leads to an object containing itself:
    the fingerprint is computed, then [JSON.stringify(entry, null, 2)],
    which stands before the [try], raises the [TypeError], and the
    promise is rejected with nothing stored. *)
Theorem set_rejects_cyclic ns id data options now s :
  cyclic data →
  (∃ fp, generateFingerprint data = Some fp) ∧
  set ns id data options now s = Rejected "TypeError" s.
Proof.
  intros Hcyclic. split; [apply generateFingerprint_total|].
  unfold set. destruct (generateFingerprint_total data) as [fp ->].
  by rewrite stringify_entry_cyclic.
Qed.

Lemma self_containing_cyclic : cyclic self_containing.
Proof.
  exists O, O. split; [done|]. split; [by left|].
  apply descends_child. by left.
Qed.

Lemma set_rejects_cyclic_witness :
  cyclic self_containing ∧
  generateFingerprint self_containing = Some "7ed1539dc7afaee8ba0eca9c4e9c16b0" ∧
  set "grind75" "two-sum" self_containing CacheOptions.none 1000 fresh
  = Rejected "TypeError" fresh.
Proof.
  split; [exact self_containing_cyclic|]. split; [by vm_compute|].
  exact (proj2 (set_rejects_cyclic "grind75" "two-sum" self_containing CacheOptions.none
                  1000 fresh self_containing_cyclic)).
Defined.
End Departures.

(** ** The two tiers agree *)

Section Coherence.
Import CacheManager.
Implicit Types (s : CacheManager.t) (d : filesystem) (ns key id : string).

Lemma append_same_length (a b x y : string) :
  String.length a = String.length b → a ++ x = b ++ y → a = b.
Proof.
  revert b. induction a as [|c a IH]; intros [|c' b]; simpl; try done.
  intros [= Hlen] [= -> Heq]. f_equal. by apply IH.
Qed.

Lemma generateKey_namespace ns id ns' id' :
  generateKey ns id = generateKey ns' id' → ns = ns'.
Proof.
  intros Heq.
  assert (Hlen : String.length ns = String.length ns').
  { apply (f_equal String.length) in Heq. rewrite !generateKey_length in Heq. lia. }
  unfold generateKey in Heq. by eapply append_same_length.
Qed.

(** Coherence survives when the memory tier only loses entries and the
    entry files are only removed. *)
Lemma coherent_weaken s s' :
  coherent s →
  (∀ k e, JsMap.get k (memoryCache s') = Some e → JsMap.get k (memoryCache s) = Some e) →
  (∀ ns k, fs.entryFile (disk s') ns k = fs.entryFile (disk s) ns k ∨
           fs.entryFile (disk s') ns k = None) →
  coherent s'.
Proof.
  intros Hs Hmem Hfile ns id e Hget.
  destruct (Hfile ns (generateKey ns id)) as [Hsame|Hgone].
  - destruct (Hs ns id e (Hmem _ _ Hget)) as [(bytes & e' & He' & ?)|[Hnone|[bytes Hbad]]].
    + left. exists bytes, e'. by rewrite Hsame.
    + right. left. by rewrite Hsame.
    + right. right. exists bytes. by rewrite Hsame.
  - right. by left.
Qed.

(** An insert keeps coherence when the file of the key holds the same
    timestamp, ttl and payload, or nothing readable; what the tiers held
    under the key before does not matter. *)
Lemma coherent_addToMemory key e sz s ns0 :
  (∀ ns id e',
      generateKey ns id ≠ key →
      JsMap.get (generateKey ns id) (memoryCache s) = Some e' →
      file_holds s ns (generateKey ns id)
        (CacheEntry.timestamp e') (CacheEntry.ttl e') (CacheEntry.data e') ∨
      file_unreadable s ns (generateKey ns id)) →
  (∀ ns id, generateKey ns id = key → ns = ns0) →
  file_holds s ns0 key (CacheEntry.timestamp e) (CacheEntry.ttl e) (CacheEntry.data e) ∨
  file_unreadable s ns0 key →
  coherent (addToMemory key e sz s).
Proof.
  intros Hs Hns Hfile ns id e' Hget.
  apply addToMemory_get in Hget.
  unfold file_holds, file_unreadable. rewrite addToMemory_disk.
  destruct (String.eqb_spec key (generateKey ns id)) as [Heq|Hne].
  - rewrite <- Heq in *. rewrite get_set_eq in Hget. injection Hget as <-.
    by rewrite (Hns ns id (eq_sym Heq)).
  - rewrite get_set_ne in Hget by done. apply Hs; [congruence | done].
Qed.

Lemma coherent_disk s d :
  coherent s →
  (∀ ns k, fs.entryFile d ns k = fs.entryFile (disk s) ns k) →
  coherent (Make (memoryCache s) (currentMemorySize s) d).
Proof.
  intros Hs Hd. apply (coherent_weaken s); [done | done |].
  intros ns k. left. apply Hd.
Qed.

Lemma coherent_get_file ns id acceptExpired now s :
  coherent s →
  JsMap.get (generateKey ns id) (memoryCache s) = None →
  coherent (snd (get_file ns (generateKey ns id) acceptExpired now s)).
Proof.
  intros Hs Hnone. unfold get_file.
  destruct (fs.entryFile (disk s) ns (generateKey ns id)) as [[bytes entry|bytes]|] eqn:Hfile;
    [|done..].
  destruct (_ || _); simpl.
  - assert (Hadd : coherent (addToMemory (generateKey ns id)
                               (CacheEntry.with_size entry (Z.of_N bytes)) (Z.of_N bytes) s)).
    { apply (coherent_addToMemory _ _ _ _ ns); [by intros ns' id' e' _; apply Hs | |].
      - intros ns' id' Heq. by apply generateKey_namespace in Heq.
      - left. by exists bytes, entry. }
    destruct (_ !! _); [|done].
    apply coherent_disk; [done|]. intros ns' k. apply entryFile_saveMetadata.
  - apply (coherent_weaken s); [done | done |].
    intros ns' k. simpl. rewrite entryFile_unlink. case_decide; [by right | by left].
Qed.


Lemma coherent_delete key s (c : Z) :
  coherent s → coherent (Make (JsMap.delete key (memoryCache s)) c (disk s)).
Proof.
  intros Hs. apply (coherent_weaken s); [done | |by left].
  intros k e. simpl. rewrite get_delete. by destruct (String.eqb key k).
Qed.

Lemma coherent_step s o : coherent s → coherent (step s o).
Proof.
  intros Hs. destruct o as [ns id a now|ns id data options now|ns identifier|now]; simpl.
  - unfold get. destruct (JsMap.get _ (memoryCache s)) as [e|] eqn:Hget;
      [|by apply coherent_get_file].
    destruct (_ || _); [done|].
    apply coherent_get_file; [by apply coherent_delete|]. simpl. apply get_delete_eq.
  - unfold set. destruct (generateFingerprint data) as [fp|]; [|done].
    destruct (stringify_entry _) as [content|]; [|done].
    destruct (fs.writeEntryFile _ _ _ _) as [d1|] eqn:Hwrite; [|done]. simpl.
    apply (coherent_addToMemory _ _ _ _ ns).
    + intros ns' id' e Hne Hget. simpl in *.
      unfold file_holds, file_unreadable. simpl.
      rewrite entryFile_saveMetadata, (entryFile_write _ _ _ _ _ _ _ Hwrite).
      rewrite decide_False by (intros [_ ?]; congruence). by apply Hs.
    + intros ns' id' Heq. by apply generateKey_namespace in Heq.
    + left. eexists _, _. simpl.
      rewrite entryFile_saveMetadata, (entryFile_write _ _ _ _ _ _ _ Hwrite).
      by rewrite decide_True.
  - unfold invalidate. destruct (given identifier) as [i|]; simpl.
    + apply (coherent_weaken s); [done | |].
      * intros k e. simpl. rewrite get_delete. by destruct (String.eqb _ k).
      * intros ns' k. simpl. rewrite entryFile_saveMetadata.
        destruct (fs.entryFile (disk s) ns (generateKey ns i)); [|by left].
        rewrite entryFile_unlink. case_decide; [by right | by left].
    + assert (Hs' : coherent (Make (memoryCache s) (currentMemorySize s)
                                (if fs.existsDir (disk s) ns
                                 then fs.mkdirSync (fs.rmSync (disk s) ns) ns
                                 else disk s))).
      { apply (coherent_weaken s); [done | done |]. intros ns' k. simpl.
        destruct (fs.existsDir (disk s) ns); [|by left].
        rewrite entryFile_recreated. case_decide; [by right | by left]. }
      revert Hs'. generalize (Make (memoryCache s) (currentMemorySize s)
                                (if fs.existsDir (disk s) ns
                                 then fs.mkdirSync (fs.rmSync (disk s) ns) ns
                                 else disk s)).
      generalize (JsMap.keys (memoryCache s)). intros ks.
      induction ks as [|[|c k] ks IH]; intros t Ht; cbn [purge_loop state_of]; [done..|].
      apply IH. destruct (String.prefix ns (String c EmptyString)); [|done].
      by apply coherent_delete.
  - apply (coherent_weaken s); [done | done |]. intros ns k.
    unfold cleanup. cbn [disk].
    rewrite (cleanup_all_entryFile now subdirs (disk s) ns k subdirs_NoDup).
    case_decide; [by right | by left].
Qed.

Lemma coherent_run ops s : coherent s → coherent (run ops s).
Proof.
  revert s. induction ops as [|o ops IH]; intros s Hs; simpl; [done|].
  by apply IH, coherent_step.
Qed.

Lemma coherent_create d : coherent (create d).
Proof. by intros ns id e. Qed.

Lemma entry_of_cached s ns id e :
  coherent s → entry_of s ns id = Some e →
  cached s ns id (CacheEntry.timestamp e) (CacheEntry.ttl e) (CacheEntry.data e).
Proof.
  intros Hs. unfold entry_of, cached.
  destruct (JsMap.get (generateKey ns id) (memoryCache s)) as [e'|] eqn:Hget.
  - intros [= ->]. specialize (Hs ns id e Hget).
    assert (Hmem : memory_holds s (generateKey ns id)
                     (CacheEntry.timestamp e) (CacheEntry.ttl e) (CacheEntry.data e))
      by (by exists e).
    split; [by left|]. split; [done | by left].
  - destruct (fs.entryFile (disk s) ns (generateKey ns id)) as [[bytes e'|bytes]|] eqn:Hfile;
      try done.
    intros [= ->].
    assert (Hholds : file_holds s ns (generateKey ns id)
                       (CacheEntry.timestamp e) (CacheEntry.ttl e) (CacheEntry.data e))
      by (by exists bytes, e).
    split; [by right|]. split; [by left | by right].
Qed.

End Coherence.

(** ** Scenarios for the sweep, the loader and the eviction *)

Section Scenarios.
Import CacheManager.

Example cleanup_three_entries :
  NamespaceCacheStatus.totalEntries (namespaceStatus 1000 (disk three_entries) "grind75")
  = 3%nat ∧
  NamespaceCacheStatus.totalEntries
    (namespaceStatus 1000 (disk (cleanup 1000 three_entries)) "grind75") = 1%nat ∧
  fs.entryFile (disk (cleanup 1000 three_entries)) "grind75" (generateKey "grind75" "a")
  = None ∧
  fs.entryFile (disk (cleanup 1000 three_entries)) "grind75" (generateKey "grind75" "b")
  = None ∧
  fs.entryFile (disk (cleanup 1000 three_entries)) "grind75" (generateKey "grind75" "c")
  = fs.entryFile (disk three_entries) "grind75" (generateKey "grind75" "c").
Proof. repeat split; by vm_compute. Qed.


Lemma metadata_self_healing_witness :
  metadata_unreadable (disk corrupted) "grind75" ∧
  loadMetadata (disk corrupted) "grind75" = ∅.
Proof.
  assert (H : metadata_unreadable (disk corrupted) "grind75") by (by right).
  split; [exact H|].
  exact (proj1 (metadata_self_healing "grind75" corrupted H)).
Defined.

Lemma eviction_bound_witness :
  currentMemorySize (run two_promotions (create large_disk)) = 90000000 ∧
  0 ≤ CacheEntry.size (large_entry "c" 3 20000000) ∧
  maxMemorySize
  < currentMemorySize (run two_promotions (create large_disk))
    + CacheEntry.size (large_entry "c" 3 20000000) ∧
  JsMap.keys
    (memoryCache
       (addToMemory (generateKey "grind75" "c") (large_entry "c" 3 20000000) 20000000
          (run two_promotions (create large_disk))))
  = [generateKey "grind75" "b"; generateKey "grind75" "c"] ∧
  currentMemorySize
    (addToMemory (generateKey "grind75" "c") (large_entry "c" 3 20000000)
       (CacheEntry.size (large_entry "c" 3 20000000))
       (run two_promotions (create large_disk)))
  ≤ maxMemorySize.
Proof.
  assert (H1 : 0 ≤ CacheEntry.size (large_entry "c" 3 20000000)) by (by vm_compute).
  assert (H2 : maxMemorySize
               < currentMemorySize (run two_promotions (create large_disk))
                 + CacheEntry.size (large_entry "c" 3 20000000)) by (by vm_compute).
  split; [by vm_compute|]. split; [exact H1|]. split; [exact H2|].
  split; [by vm_compute|].
  exact (proj1 (proj2 (eviction_bound large_disk two_promotions)
                  (generateKey "grind75" "c") (large_entry "c" 3 20000000) H1 H2)).
Defined.
End Scenarios.

(** * Further facts *)

Section KeysAndDirectories.
Import CacheManager.
Implicit Types (s : CacheManager.t) (d : filesystem) (ns key id : string).

Lemma prefix_append (a b : string) : String.prefix a (a ++ b) = true.
Proof.
  induction a as [|c a IH]; simpl; [by destruct b|].
  destruct (Ascii.ascii_dec c c); [done | congruence].
Qed.

Lemma append_inv_head (a x y : string) : a ++ x = a ++ y → x = y.
Proof. induction a as [|c a IH]; simpl; [done|]. intros [= H]. by apply IH. Qed.


Lemma existsDir_mkdirSync d ns ns' :
  fs.existsDir (fs.mkdirSync d ns) ns' = fs.existsDir d ns' || bool_decide (ns' = ns).
Proof.
  unfold fs.existsDir, fs.mkdirSync.
  destruct (d !! ns) as [dir|] eqn:Hdir.
  - destruct (decide (ns' = ns)) as [->|Hne].
    + by rewrite Hdir.
    + rewrite bool_decide_eq_false_2 by done. by rewrite orb_false_r.
  - destruct (decide (ns' = ns)) as [->|Hne].
    + rewrite lookup_insert_eq, Hdir. by rewrite bool_decide_eq_true_2.
    + rewrite lookup_insert_ne by done.
      rewrite bool_decide_eq_false_2 by done. by rewrite orb_false_r.
Qed.

Lemma entryFile_mkdirSync d ns ns' key :
  fs.entryFile (fs.mkdirSync d ns) ns' key = fs.entryFile d ns' key.
Proof.
  unfold fs.entryFile, fs.mkdirSync.
  destruct (d !! ns) as [dir|] eqn:Hdir; [done|].
  destruct (decide (ns = ns')) as [<-|Hne].
  - by rewrite lookup_insert_eq, Hdir.
  - by rewrite lookup_insert_ne.
Qed.

Lemma metadataFile_mkdirSync d ns ns' :
  fs.metadataFile (fs.mkdirSync d ns) ns' = fs.metadataFile d ns'.
Proof.
  unfold fs.metadataFile, fs.mkdirSync.
  destruct (d !! ns) as [dir|] eqn:Hdir; [done|].
  destruct (decide (ns = ns')) as [<-|Hne].
  - by rewrite lookup_insert_eq, Hdir.
  - by rewrite lookup_insert_ne.
Qed.

Lemma existsDir_ensureCacheDirectory d ns :
  fs.existsDir (ensureCacheDirectory d) ns
  = fs.existsDir d ns || bool_decide (ns ∈ subdirs).
Proof.
  unfold ensureCacheDirectory, subdirs. cbn [fold_left].
  rewrite !existsDir_mkdirSync.
  rewrite <- !orb_assoc. f_equal.
  destruct (decide (ns = "grind75")) as [->|H1]; [done|].
  destruct (decide (ns = "leetcode")) as [->|H2]; [done|].
  destruct (decide (ns = "companies")) as [->|H3]; [done|].
  rewrite !bool_decide_eq_false_2; [done|..]; try done.
  rewrite !elem_of_cons, elem_of_nil. tauto.
Qed.

Lemma entryFile_ensureCacheDirectory d ns key :
  fs.entryFile (ensureCacheDirectory d) ns key = fs.entryFile d ns key.
Proof. unfold ensureCacheDirectory, subdirs. cbn [fold_left]. by rewrite !entryFile_mkdirSync. Qed.

Lemma metadataFile_ensureCacheDirectory d ns :
  fs.metadataFile (ensureCacheDirectory d) ns = fs.metadataFile d ns.
Proof.
  unfold ensureCacheDirectory, subdirs. cbn [fold_left]. by rewrite !metadataFile_mkdirSync.
Qed.

Lemma existsDir_recreated d ns ns' :
  fs.existsDir d ns = true →
  fs.existsDir (fs.mkdirSync (fs.rmSync d ns) ns) ns' = fs.existsDir d ns'.
Proof.
  intros Hdir. rewrite existsDir_mkdirSync. unfold fs.rmSync, fs.existsDir in *.
  destruct (decide (ns' = ns)) as [->|Hne].
  - rewrite bool_decide_eq_true_2 by done. rewrite orb_true_r. by destruct (d !! ns).
  - rewrite lookup_delete_ne by done. rewrite bool_decide_eq_false_2 by done.
    by rewrite orb_false_r.
Qed.

Lemma addToMemory_existsDir key e sz s ns :
  fs.existsDir (disk (addToMemory key e sz s)) ns = fs.existsDir (disk s) ns.
Proof. by rewrite addToMemory_disk. Qed.

Lemma purge_loop_disk ns ks s : disk (state_of (purge_loop ns ks s)) = disk s.
Proof.
  revert s. induction ks as [|[|c k] ks IH]; intros s; cbn [purge_loop state_of]; [done..|].
  rewrite IH. by destruct (String.prefix ns (String c EmptyString)).
Qed.

Lemma cleanup_namespace_existsDir now d ns ns' :
  fs.existsDir (cleanup_namespace now d ns) ns' = fs.existsDir d ns'.
Proof.
  unfold cleanup_namespace. rewrite cleanup_fold.
  destruct (0 <? _)%nat; [rewrite existsDir_saveMetadata|]; apply unlink_fold_existsDir.
Qed.

Lemma step_existsDir s o ns : fs.existsDir (disk (step s o)) ns = fs.existsDir (disk s) ns.
Proof.
  destruct o as [ns0 id a now|ns0 id data options now|ns0 identifier|now]; cbn [step].
  - unfold get.
    assert (Hfile : ∀ key s0, fs.existsDir (disk (snd (get_file ns0 key a now s0))) ns
                              = fs.existsDir (disk s0) ns).
    { intros key s0. unfold get_file.
      destruct (fs.entryFile (disk s0) ns0 key) as [[bytes entry|bytes]|]; [|done..].
      destruct (_ || _); cbn [snd disk]; [|apply existsDir_unlink].
      destruct (_ !! key); cbn [disk];
        [rewrite existsDir_saveMetadata|]; by rewrite addToMemory_disk. }
    destruct (JsMap.get _ (memoryCache s)) as [memoryEntry|]; [|apply Hfile].
    destruct (_ || _); [done|]. by rewrite Hfile.
  - unfold set. destruct (generateFingerprint data); [|done].
    destruct (stringify_entry _); [|done].
    destruct (fs.writeEntryFile _ _ _ _) as [d1|] eqn:Hwrite; [|done].
    cbn [state_of]. rewrite addToMemory_disk. cbn [disk].
    rewrite existsDir_saveMetadata. by eapply existsDir_write.
  - unfold invalidate. destruct (given identifier); cbn [state_of disk].
    + rewrite existsDir_saveMetadata.
      destruct (fs.entryFile _ _ _); [apply existsDir_unlink | done].
    + rewrite purge_loop_disk. cbn [disk].
      destruct (fs.existsDir (disk s) ns0) eqn:Hdir; [|done].
      by apply existsDir_recreated.
  - unfold cleanup. cbn [disk]. generalize (disk s). unfold subdirs.
    intros d. cbn [fold_left]. by rewrite !cleanup_namespace_existsDir.
Qed.

Lemma run_existsDir (ops : list operation) s ns :
  fs.existsDir (disk (run ops s)) ns = fs.existsDir (disk s) ns.
Proof.
  revert s. induction ops as [|o ops IH]; intros s; cbn [run fold_left]; [done|].
  fold (run ops (step s o)). by rewrite IH, step_existsDir.
Qed.

Lemma known_namespace_exists (d : filesystem) (ops : list operation) ns :
  In ns subdirs → fs.existsDir (disk (run ops (create d))) ns = true.
Proof.
  intros Hns. rewrite run_existsDir. unfold create. cbn [disk].
  rewrite existsDir_ensureCacheDirectory, bool_decide_eq_true_2; [apply orb_true_r|].
  by apply list_elem_of_In.
Qed.



End KeysAndDirectories.

Section EntryLifecycle.
Import CacheManager.
Implicit Types (s : CacheManager.t) (d : filesystem) (ns key id : string).

Lemma given_nonempty id : id ≠ "" → given (Some id) = Some id.
Proof. by destruct id. Qed.

Lemma get_absent ns id acceptExpired now s :
  JsMap.get (generateKey ns id) (memoryCache s) = None →
  fs.entryFile (disk s) ns (generateKey ns id) = None →
  get ns id acceptExpired now s = (None, s).
Proof. intros Hmem Hfile. unfold get, get_file. by rewrite Hmem, Hfile. Qed.




Lemma set_writes_file ns id data options now s :
  acyclic data → fs.existsDir (disk s) ns = true →
  ∃ s' bytes sz,
    set ns id data options now s = Resolved s' ∧
    fs.entryFile (disk s') ns (generateKey ns id)
    = Some (EntryText bytes (CacheEntry.Make data now (ttl_of options) 0 (generateKey ns id))) ∧
    Z.of_N bytes = sz ∧ 0 < sz ∧
    loadMetadata (disk s') ns !! generateKey ns id
    = Some (CacheMetadata.Make (generateKey ns id) now (ttl_of options) sz
              (MD5.md5hex
                 (default ""
                    (safeStringify (JS.fuel_for (JS.store data)) (JS.store data)
                       (JS.root data) [])))
              now) ∧
    (∀ key, key ≠ generateKey ns id →
        loadMetadata (disk s') ns !! key = loadMetadata (disk s) ns !! key) ∧
    (∀ e, JsMap.get (generateKey ns id) (memoryCache s') = Some e →
          e = CacheEntry.Make data now (ttl_of options) sz (generateKey ns id)).
Proof.
  intros Hacyclic Hdir. unfold set.
  destruct (generateFingerprint_total data) as [fp Hfp]. rewrite Hfp.
  destruct (stringify_entry_acyclic
              (CacheEntry.Make data now (ttl_of options) 0 (generateKey ns id)))
    as [content Hcontent]; [done|]. rewrite Hcontent.
  destruct (writeEntryFile_exists (disk s) ns (generateKey ns id)
              (EntryText (Z.to_N (JS.byteLength content))
                 (CacheEntry.Make data now (ttl_of options) 0 (generateKey ns id))) Hdir)
    as [d1 Hwrite].
  rewrite Hwrite.
  assert (Hpos : 0 < JS.byteLength content).
  { unfold stringify_entry in Hcontent.
    destruct (JS.stringify_indent _ _ _ _ _); [|done]. injection Hcontent as <-.
    unfold JS.byteLength. simpl. lia. }
  assert (Hdir1 : fs.existsDir d1 ns = true) by (by rewrite (existsDir_write _ _ _ _ _ _ Hwrite)).
  eexists _, (Z.to_N (JS.byteLength content)), (JS.byteLength content).
  split; [reflexivity|]. rewrite addToMemory_disk. cbn [disk].
  split; [|split; [lia|split; [done|split; [|split]]]].
  - rewrite entryFile_saveMetadata, (entryFile_write _ _ _ _ _ _ _ Hwrite).
    by rewrite decide_True.
  - rewrite loadMetadata_saveMetadata by done. rewrite lookup_insert_eq.
    unfold generateFingerprint in Hfp.
    destruct (safeStringify _ _ _ _); [|done]. by injection Hfp as <-.
  - intros key Hne. rewrite loadMetadata_saveMetadata by done.
    rewrite lookup_insert_ne by done. by rewrite (loadMetadata_write _ _ _ _ _ _ Hwrite).
  - intros e Hget. apply addToMemory_get in Hget. cbn [memoryCache] in Hget.
    rewrite get_set_eq in Hget. by injection Hget as <-.
Qed.



End EntryLifecycle.

Section Accounting.
Import CacheManager.
Implicit Types (m es : list (string * CacheEntry.t)) (s : CacheManager.t).

Lemma sum_sizes_delete_le k m :
  sizes_nonnegative m → sum_sizes (JsMap.delete k m) ≤ sum_sizes m.
Proof.
  induction 1 as [|[k' v'] m Hx Hm IH]; simpl; [done|].
  simpl in Hx. destruct (String.eqb k k'); simpl; lia.
Qed.

Lemma sum_sizes_delete k e m :
  List.NoDup (JsMap.keys m) → In (k, e) m →
  sum_sizes (JsMap.delete k m) = sum_sizes m - CacheEntry.size e.
Proof.
  induction m as [|[k' v'] m IH]; simpl; [done|].
  intros Hnd Hin. inversion Hnd as [|? ? Hnotin Hnd']; subst.
  destruct Hin as [[= -> ->]|Hin].
  - rewrite String.eqb_refl. rewrite delete_not_In by done. lia.
  - destruct (String.eqb_spec k k') as [->|Hne].
    + destruct Hnotin. unfold JsMap.keys. by apply (in_map fst _ (k', e)).
    + simpl. rewrite IH by done. lia.
Qed.

Lemma sum_sizes_set_le k e m :
  sizes_nonnegative m → sum_sizes (JsMap.set k e m) ≤ sum_sizes m + CacheEntry.size e.
Proof.
  induction 1 as [|[k' v'] m Hx Hm IH]; simpl; [lia|].
  simpl in Hx. destruct (String.eqb k k'); simpl; lia.
Qed.

Lemma sum_sizes_delete_all (evicted : list (string * CacheEntry.t)) m :
  List.NoDup (JsMap.keys m) → List.NoDup (JsMap.keys evicted) →
  (∀ x, In x evicted → In x m) →
  sum_sizes (delete_all (JsMap.keys evicted) m) = sum_sizes m - sum_sizes evicted.
Proof.
  revert m. induction evicted as [|[k e] evicted IH]; intros m Hm Hev Hincl; simpl; [lia|].
  inversion Hev as [|? ? Hnotin Hev']; subst.
  change (delete_all (k :: JsMap.keys evicted) m)
    with (delete_all (JsMap.keys evicted) (JsMap.delete k m)).
  rewrite IH; [| by apply NoDup_keys_delete | done |].
  - rewrite (sum_sizes_delete k e) by (try done; apply Hincl; by left). lia.
  - intros x Hx. apply In_delete; [apply Hincl; by right|].
    intros <-. apply Hnotin. unfold JsMap.keys. by apply in_map.
Qed.

Lemma evictMemoryCache_accounted s :
  List.NoDup (JsMap.keys (memoryCache s)) →
  sum_sizes (memoryCache s) ≤ currentMemorySize s →
  sum_sizes (memoryCache (evictMemoryCache s)) ≤ currentMemorySize (evictMemoryCache s).
Proof.
  intros Hnd Hle.
  destruct (evictMemoryCache_spec s) as (evicted & kept & Hsplit & -> & -> & _ & _).
  pose proof (sort_by_timestamp_perm (memoryCache s)) as Hperm. rewrite Hsplit in Hperm.
  rewrite sum_sizes_delete_all; [lia | done | |].
  - assert (Hall : List.NoDup (JsMap.keys (evicted ++ kept)%list)).
    { unfold JsMap.keys. eapply Permutation_NoDup; [|exact Hnd].
      apply Permutation_map. by symmetry. }
    unfold JsMap.keys in Hall. rewrite map_app in Hall.
    by apply NoDup_app_remove_r in Hall.
  - intros x Hx. eapply Permutation_in; [exact Hperm|]. apply in_or_app. by left.
Qed.

Lemma addToMemory_accounted key e s :
  0 ≤ CacheEntry.size e → memory_invariant s →
  sum_sizes (memoryCache s) ≤ currentMemorySize s →
  sum_sizes (memoryCache (addToMemory key e (CacheEntry.size e) s))
  ≤ currentMemorySize (addToMemory key e (CacheEntry.size e) s).
Proof.
  intros Hnonneg (_ & Hsizes & Hnd) Hle. unfold addToMemory. cbn [currentMemorySize].
  pose proof (sum_sizes_set_le key e _ Hsizes) as Hset.
  destruct (_ >? _).
  - apply evictMemoryCache_accounted; cbn [memoryCache currentMemorySize]; [|lia].
    by apply NoDup_keys_set.
  - cbn [memoryCache currentMemorySize]. lia.
Qed.

Lemma get_file_accounted ns key acceptExpired now s :
  memory_invariant s →
  sum_sizes (memoryCache s) ≤ currentMemorySize s →
  sum_sizes (memoryCache (snd (get_file ns key acceptExpired now s)))
  ≤ currentMemorySize (snd (get_file ns key acceptExpired now s)).
Proof.
  intros Hinv Hle. unfold get_file.
  destruct (fs.entryFile (disk s) ns key) as [[bytes entry|bytes]|]; [|done..].
  destruct (_ || _); [|done]. cbn [snd].
  pose proof (addToMemory_accounted key (CacheEntry.with_size entry (Z.of_N bytes)) s) as Hadd.
  cbn [CacheEntry.size CacheEntry.with_size] in Hadd.
  specialize (Hadd ltac:(lia) Hinv Hle).
  by destruct (_ !! key).
Qed.

Lemma purge_loop_accounted ns ks s :
  sizes_nonnegative (memoryCache s) →
  sum_sizes (memoryCache s) ≤ currentMemorySize s →
  sum_sizes (memoryCache (state_of (purge_loop ns ks s)))
  ≤ currentMemorySize (state_of (purge_loop ns ks s)).
Proof.
  revert s. induction ks as [|[|c k] ks IH]; intros s Hsizes Hle; cbn [purge_loop state_of];
    [done..|].
  apply IH; destruct (String.prefix ns (String c EmptyString)); try done.
  - by apply sizes_nonnegative_delete.
  - cbn [memoryCache currentMemorySize].
    pose proof (sum_sizes_delete_le (String c EmptyString) _ Hsizes). lia.
Qed.

Lemma step_accounted s o :
  memory_invariant s →
  sum_sizes (memoryCache s) ≤ currentMemorySize s →
  sum_sizes (memoryCache (step s o)) ≤ currentMemorySize (step s o).
Proof.
  intros Hinv Hle. pose proof Hinv as (_ & Hsizes & Hnd).
  destruct o as [ns id a now|ns id data options now|ns identifier|now]; cbn [step].
  - unfold get.
    destruct (JsMap.get _ (memoryCache s)) as [memoryEntry|] eqn:Hget;
      [|by apply get_file_accounted].
    destruct (_ || _); [done|].
    assert (Hin : In (generateKey ns id, memoryEntry) (memoryCache s)) by (by apply get_Some_In).
    assert (0 ≤ CacheEntry.size memoryEntry).
    { unfold sizes_nonnegative in Hsizes. rewrite Forall_forall in Hsizes.
      apply (Hsizes _ (proj2 (list_elem_of_In _ _) Hin)). }
    apply get_file_accounted.
    + by apply memory_invariant_delete.
    + cbn [memoryCache currentMemorySize].
      rewrite (sum_sizes_delete _ memoryEntry) by done. lia.
  - unfold set. destruct (generateFingerprint data); [|done].
    destruct (stringify_entry _) as [content|]; [|done].
    destruct (fs.writeEntryFile _ _ _ _); [|done]. cbn [state_of].
    apply (addToMemory_accounted _
             (CacheEntry.with_size
                (CacheEntry.Make data now (ttl_of options) 0 (generateKey ns id))
                (JS.byteLength content))); [|done..].
    cbn [CacheEntry.size CacheEntry.with_size]. unfold JS.byteLength. lia.
  - unfold invalidate. destruct (given identifier) as [id|]; cbn [state_of].
    + cbn [memoryCache currentMemorySize].
      pose proof (sum_sizes_delete_le (generateKey ns id) _ Hsizes). lia.
    + by apply purge_loop_accounted.
  - done.
Qed.

(** X9.  Along every sequence of operations started on a fresh instance
    the running total is never below the sum of the sizes of the resident
    entries, and that sum is between zero and the capacity. *)
Theorem resident_bytes_bounded (d : filesystem) (ops : list operation) :
  0 ≤ sum_sizes (memoryCache (run ops (create d))) ∧
  sum_sizes (memoryCache (run ops (create d))) ≤ currentMemorySize (run ops (create d)) ∧
  sum_sizes (memoryCache (run ops (create d))) ≤ maxMemorySize.
Proof.
  assert (Hrun : ∀ s, memory_invariant s →
             sum_sizes (memoryCache s) ≤ currentMemorySize s →
             sum_sizes (memoryCache (run ops s)) ≤ currentMemorySize (run ops s)).
  { induction ops as [|o ops IH]; intros s Hinv Hle; cbn [run fold_left]; [done|].
    apply IH; [by apply step_invariant | by apply step_accounted]. }
  pose proof (run_invariant ops (create d) (create_invariant d)) as (Hcap & Hsizes & _).
  specialize (Hrun (create d) (create_invariant d)).
  split; [by apply sum_sizes_nonneg|].
  assert (sum_sizes (memoryCache (run ops (create d)))
          ≤ currentMemorySize (run ops (create d))) by (apply Hrun; by vm_compute).
  split; [done | lia].
Qed.

End Accounting.

Section Sweeping.
Import CacheManager.
Implicit Types (d : filesystem) (s : CacheManager.t) (ns key : string)
  (m : gmap string CacheMetadata.t).

Lemma cleanup_namespace_settled now d ns :
  (∀ key r, loadMetadata d ns !! key = Some r → expired_record now r = false) →
  cleanup_namespace now d ns = d.
Proof.
  intros Hvalid. unfold cleanup_namespace. rewrite cleanup_fold.
  assert (expired_keys now (map_to_list (loadMetadata d ns)) = []) as ->; [|done].
  destruct (expired_keys now (map_to_list (loadMetadata d ns))) as [|key ks] eqn:Hkeys;
    [done|].
  assert (Hin : key ∈ expired_keys now (map_to_list (loadMetadata d ns)))
    by (rewrite Hkeys; apply elem_of_cons; by left).
  apply elem_expired_keys in Hin. unfold swept in Hin.
  destruct (loadMetadata d ns !! key) as [r|] eqn:Hr; [|done].
  by rewrite (Hvalid key r Hr) in Hin.
Qed.

Lemma cleanup_all_settled now (nss : list string) d :
  (∀ ns key r, In ns nss → loadMetadata d ns !! key = Some r → expired_record now r = false) →
  fold_left (cleanup_namespace now) nss d = d.
Proof.
  induction nss as [|ns nss IH]; intros Hvalid; cbn [fold_left]; [done|].
  rewrite cleanup_namespace_settled.
  - apply IH. intros ns' key r Hin. apply Hvalid. by right.
  - intros key r. apply Hvalid. by left.
Qed.

Lemma valid_records_empty now : valid_records now ∅ = ∅.
Proof. apply map_filter_empty. Qed.

Lemma loadMetadata_cleanup now s ns :
  In ns subdirs →
  loadMetadata (disk (cleanup now s)) ns = valid_records now (loadMetadata (disk s) ns).
Proof.
  intros Hns. apply list_elem_of_In in Hns. unfold cleanup. cbn [disk]. unfold loadMetadata.
  rewrite (cleanup_all_metadataFile now subdirs (disk s) ns subdirs_NoDup).
  rewrite decide_True by done.
  destruct (fs.metadataFile (disk s) ns) as [[m|]|]; cbn [sweep_document]; try done;
    by rewrite valid_records_empty.
Qed.

(** X10.  A second [cleanup] at the same instant changes nothing. *)
Theorem cleanup_idempotent now s :
  cleanup now (cleanup now s) = cleanup now s.
Proof.
  unfold cleanup at 1. cbn [memoryCache currentMemorySize disk].
  rewrite cleanup_all_settled.
  - by destruct (cleanup now s).
  - intros ns key r Hns. rewrite (loadMetadata_cleanup now s ns Hns).
    unfold valid_records. rewrite map_lookup_filter_Some. by intros [_ ?].
Qed.

End Sweeping.

Section Status.
Import CacheManager.
Implicit Types (d : filesystem) (s : CacheManager.t) (ns key : string)
  (m : gmap string CacheMetadata.t).

Lemma length_filter_perm {A : Type} (f : A → bool) (l l' : list A) :
  Permutation l l' → length (List.filter f l) = length (List.filter f l').
Proof.
  induction 1 as [|x l l' _ IH|x y l|l l' l'' _ IH1 _ IH2]; simpl.
  - done.
  - destruct (f x); simpl; by rewrite IH.
  - by destruct (f x), (f y).
  - by rewrite IH1.
Qed.

Lemma count_valid now m :
  length (List.filter
            (fun entry =>
               negb (isExpired now (CacheMetadata.timestamp entry) (CacheMetadata.ttl entry)))
            (map snd (map_to_list m)))
  = size (valid_records now m).
Proof.
  induction m as [|key r m Hnone IH] using map_ind.
  - by rewrite map_to_list_empty, valid_records_empty, map_size_empty.
  - rewrite (length_filter_perm _ _ _
               (Permutation_map snd (map_to_list_insert m key r Hnone))).
    unfold valid_records in *. simpl.
    destruct (isExpired now (CacheMetadata.timestamp r) (CacheMetadata.ttl r)) eqn:Hr; simpl.
    + rewrite map_filter_insert_False by (unfold expired_record; simpl; congruence).
      by rewrite delete_id.
    + rewrite map_filter_insert_True by done.
      rewrite map_size_insert_None; [by rewrite IH|].
      apply map_lookup_filter_None. by left.
Qed.

Lemma fold_min_spec l x :
  (fold_left Z.min l x = x ∨ In (fold_left Z.min l x) l) ∧
  fold_left Z.min l x ≤ x ∧ ∀ y, In y l → fold_left Z.min l x ≤ y.
Proof.
  revert x. induction l as [|a l IH]; intros x; simpl; [split; [by left | split; [lia | done]]|].
  destruct (IH (Z.min x a)) as (Hin & Hle & Hall). split; [|split].
  - destruct Hin as [->|Hin]; [|by right; right].
    destruct (Z.min_spec x a) as [[_ ->]|[_ ->]]; [by left | right; by left].
  - lia.
  - intros y [<-|Hy]; [lia | by apply Hall].
Qed.

Lemma fold_max_spec l x :
  (fold_left Z.max l x = x ∨ In (fold_left Z.max l x) l) ∧
  x ≤ fold_left Z.max l x ∧ ∀ y, In y l → y ≤ fold_left Z.max l x.
Proof.
  revert x. induction l as [|a l IH]; intros x; simpl; [split; [by left | split; [lia | done]]|].
  destruct (IH (Z.max x a)) as (Hin & Hle & Hall). split; [|split].
  - destruct Hin as [->|Hin]; [|by right; right].
    destruct (Z.max_spec x a) as [[_ ->]|[_ ->]]; [right; by left | by left].
  - lia.
  - intros y [<-|Hy]; [lia | by apply Hall].
Qed.

Lemma minimum_spec l lo :
  minimum l = Some lo → In lo l ∧ ∀ y, In y l → lo ≤ y.
Proof.
  destruct l as [|x l]; [done|]. simpl. intros [= <-].
  destruct (fold_min_spec l x) as (Hin & Hle & Hall). split.
  - destruct Hin as [->|Hin]; [by left | by right].
  - intros y [<-|Hy]; [done | by apply Hall].
Qed.

Lemma maximum_spec l hi :
  maximum l = Some hi → In hi l ∧ ∀ y, In y l → y ≤ hi.
Proof.
  destruct l as [|x l]; [done|]. simpl. intros [= <-].
  destruct (fold_max_spec l x) as (Hin & Hle & Hall). split.
  - destruct Hin as [->|Hin]; [by left | by right].
  - intros y [<-|Hy]; [done | by apply Hall].
Qed.

Lemma In_timestamps m t :
  In t (map CacheMetadata.timestamp (map snd (map_to_list m))) ↔
  ∃ key r, m !! key = Some r ∧ CacheMetadata.timestamp r = t.
Proof.
  rewrite in_map_iff. split.
  - intros (r & Ht & Hin). apply in_map_iff in Hin as ([key r'] & Hr & Hin).
    simpl in Hr. subst r'. exists key, r. split; [|done]. by apply In_map_to_list.
  - intros (key & r & Hm & Ht). exists r. split; [done|].
    apply in_map_iff. exists (key, r). split; [done|]. by apply In_map_to_list.
Qed.

Lemma reported_namespace namespace now s ns st :
  In (ns, st) (CacheStatusReport.fileCache (getCacheStatus namespace now s)) →
  st = namespaceStatus now (disk s) ns ∧
  match given namespace with
  | Some ns0 => ns = ns0
  | None => In ns subdirs
  end.
Proof.
  unfold getCacheStatus. cbn [CacheStatusReport.fileCache]. rewrite in_map_iff.
  intros (ns0 & [= <- <-] & Hin). split; [done|].
  destruct (given namespace); [|done]. by destruct Hin as [->|[]].
Qed.

Lemma status_counts_of namespace now s ns st :
  In (ns, st) (CacheStatusReport.fileCache (getCacheStatus namespace now s)) →
  NamespaceCacheStatus.totalEntries st = size (loadMetadata (disk s) ns) ∧
  NamespaceCacheStatus.validEntries st
  = size (valid_records now (loadMetadata (disk s) ns)).
Proof.
  intros Hin. apply reported_namespace in Hin as [-> _]. unfold namespaceStatus.
  cbn [NamespaceCacheStatus.totalEntries NamespaceCacheStatus.validEntries].
  split; [by rewrite length_map, length_map_to_list | apply count_valid].
Qed.

(** X11.  What [getCacheStatus] says about a namespace: the total is the
    number of records of the metadata, the valid count is the number of
    records that are not expired and is at most the total; the oldest
    and newest entries are absent when there is no record, and otherwise
    are timestamps of records that bound the timestamp of every
    record. *)
Theorem status_report namespace now s ns st :
  In (ns, st) (CacheStatusReport.fileCache (getCacheStatus namespace now s)) →
  NamespaceCacheStatus.totalEntries st = size (loadMetadata (disk s) ns) ∧
  NamespaceCacheStatus.validEntries st
  = size (valid_records now (loadMetadata (disk s) ns)) ∧
  (NamespaceCacheStatus.validEntries st ≤ NamespaceCacheStatus.totalEntries st)%nat ∧
  (loadMetadata (disk s) ns = ∅ →
   NamespaceCacheStatus.oldestEntry st = None ∧
   NamespaceCacheStatus.newestEntry st = None) ∧
  (∀ key r,
      loadMetadata (disk s) ns !! key = Some r →
      ∃ lo hi,
        NamespaceCacheStatus.oldestEntry st = Some lo ∧
        NamespaceCacheStatus.newestEntry st = Some hi ∧
        lo ≤ CacheMetadata.timestamp r ≤ hi) ∧
  (∀ t,
      NamespaceCacheStatus.oldestEntry st = Some t ∨
      NamespaceCacheStatus.newestEntry st = Some t →
      ∃ key r, loadMetadata (disk s) ns !! key = Some r ∧ CacheMetadata.timestamp r = t).
Proof.
  intros Hin. destruct (status_counts_of _ _ _ _ _ Hin) as [Htotal Hvalid].
  split; [done|]. split; [done|].
  split; [rewrite Htotal, Hvalid; apply map_size_filter|].
  apply reported_namespace in Hin as [-> _]. unfold namespaceStatus.
  cbn [NamespaceCacheStatus.oldestEntry NamespaceCacheStatus.newestEntry].
  set (m := loadMetadata (disk s) ns).
  split; [|split].
  - intros ->. by rewrite map_to_list_empty.
  - intros key r Hr.
    assert (Hin : In (CacheMetadata.timestamp r)
                    (map CacheMetadata.timestamp (map snd (map_to_list m))))
      by (apply In_timestamps; by exists key, r).
    destruct (minimum _) as [lo|] eqn:Hlo;
      [|by destruct (map CacheMetadata.timestamp (map snd (map_to_list m)))].
    destruct (maximum _) as [hi|] eqn:Hhi;
      [|by destruct (map CacheMetadata.timestamp (map snd (map_to_list m)))].
    exists lo, hi. split; [done|]. split; [done|].
    apply minimum_spec in Hlo as [_ Hlo]. apply maximum_spec in Hhi as [_ Hhi].
    split; [by apply Hlo | by apply Hhi].
  - intros t [Ht|Ht]; apply In_timestamps.
    + by apply minimum_spec in Ht as [? _].
    + by apply maximum_spec in Ht as [? _].
Qed.

Lemma valid_records_twice now m :
  valid_records now (valid_records now m) = valid_records now m.
Proof.
  unfold valid_records. apply map_filter_id. intros key r.
  rewrite map_lookup_filter_Some. by intros [_ ?].
Qed.

(** X12.  After [cleanup] the report counts, for each of the three
    namespaces, as many entries as were valid before, all of them valid;
    the figures of the memory tier are as before. *)
Theorem status_after_cleanup now s ns st st' :
  In (ns, st) (CacheStatusReport.fileCache (getCacheStatus None now s)) →
  In (ns, st') (CacheStatusReport.fileCache (getCacheStatus None now (cleanup now s))) →
  NamespaceCacheStatus.totalEntries st' = NamespaceCacheStatus.validEntries st ∧
  NamespaceCacheStatus.validEntries st' = NamespaceCacheStatus.validEntries st ∧
  CacheStatusReport.memoryCache (getCacheStatus None now (cleanup now s))
  = CacheStatusReport.memoryCache (getCacheStatus None now s).
Proof.
  intros Hst Hst'.
  destruct (reported_namespace _ _ _ _ _ Hst) as [_ Hns]. cbn [given] in Hns.
  destruct (status_counts_of _ _ _ _ _ Hst) as (_ & Hvalid).
  destruct (status_counts_of _ _ _ _ _ Hst') as (Htotal' & Hvalid').
  rewrite Htotal', Hvalid', Hvalid, (loadMetadata_cleanup now s ns Hns).
  by rewrite valid_records_twice.
Qed.

End Status.

Section Bookkeeping.
Import CacheManager.
Implicit Types (d : filesystem) (s : CacheManager.t) (ns key id : string).

Lemma entryFile_existsDir d ns key f :
  fs.entryFile d ns key = Some f → fs.existsDir d ns = true.
Proof. unfold fs.entryFile, fs.existsDir. by destruct (d !! ns). Qed.


Lemma invalidate_unidentified_disk ns identifier s :
  given identifier = None →
  disk (state_of (invalidate ns identifier s))
  = if fs.existsDir (disk s) ns then fs.mkdirSync (fs.rmSync (disk s) ns) ns else disk s.
Proof. intros Hnone. unfold invalidate. rewrite Hnone. by rewrite purge_loop_disk. Qed.


End Bookkeeping.

Section MoreScenarios.
Import CacheManager.

Lemma value_42_acyclic : acyclic value_42.
Proof. by apply forward_only_acyclic. Qed.


Lemma two_sum_nonempty : "two-sum" ≠ "".
Proof. discriminate. Qed.





Lemma status_report_witness :
  In ("grind75", namespaceStatus 1000 (disk three_entries) "grind75")
     (CacheStatusReport.fileCache (getCacheStatus None 1000 three_entries)) ∧
  NamespaceCacheStatus.totalEntries (namespaceStatus 1000 (disk three_entries) "grind75")
  = size (loadMetadata (disk three_entries) "grind75") ∧
  size (loadMetadata (disk three_entries) "grind75") = 3%nat ∧
  NamespaceCacheStatus.validEntries (namespaceStatus 1000 (disk three_entries) "grind75")
  = 1%nat.
Proof.
  assert (H : In ("grind75", namespaceStatus 1000 (disk three_entries) "grind75")
                (CacheStatusReport.fileCache (getCacheStatus None 1000 three_entries)))
    by (by left).
  split; [exact H|].
  split; [exact (proj1 (status_report None 1000 three_entries "grind75" _ H))|].
  split; by vm_compute.
Defined.

Lemma status_after_cleanup_witness :
  In ("grind75", namespaceStatus 1000 (disk three_entries) "grind75")
     (CacheStatusReport.fileCache (getCacheStatus None 1000 three_entries)) ∧
  In ("grind75", namespaceStatus 1000 (disk (cleanup 1000 three_entries)) "grind75")
     (CacheStatusReport.fileCache (getCacheStatus None 1000 (cleanup 1000 three_entries))) ∧
  NamespaceCacheStatus.totalEntries
    (namespaceStatus 1000 (disk (cleanup 1000 three_entries)) "grind75")
  = NamespaceCacheStatus.validEntries (namespaceStatus 1000 (disk three_entries) "grind75").
Proof.
  assert (H : In ("grind75", namespaceStatus 1000 (disk three_entries) "grind75")
                (CacheStatusReport.fileCache (getCacheStatus None 1000 three_entries)))
    by (by left).
  assert (H' : In ("grind75", namespaceStatus 1000 (disk (cleanup 1000 three_entries)) "grind75")
                 (CacheStatusReport.fileCache
                    (getCacheStatus None 1000 (cleanup 1000 three_entries))))
    by (by left).
  split; [exact H|]. split; [exact H'|].
  exact (proj1 (status_after_cleanup 1000 three_entries "grind75" _ _ H H')).
Defined.


End MoreScenarios.

Section RetryFacts.
Import Errors Retry.

Lemma calls_app (t1 t2 : list event) : calls (t1 ++ t2) = (calls t1 + calls t2)%nat.
Proof. unfold calls. by rewrite List.filter_app, length_app. Qed.

Lemma waits_app (t1 t2 : list event) : waits (t1 ++ t2) = (waits t1 ++ waits t2)%list.
Proof. unfold waits. apply omap_app. Qed.

Context {W T : Type} (setTimeout : Z → W → W) (fn : W → (T + error) * W)
  (onRetry : error → Z → W → option error * W) (n delay : Z) (eb : bool).

Lemma attempt_loop_spec (t : nat) (a : Z) (lastError : option error) (w : W)
    (tr : list event) :
  t = O ∨ Z.of_nat t = n - a + 1 →
  ∃ extra : list event,
    trace (attempt_loop setTimeout fn onRetry n delay eb t a lastError w tr)
    = (tr ++ extra)%list ∧
    (calls extra ≤ t)%nat ∧
    (t ≠ O → (1 ≤ calls extra)%nat) ∧
    waits extra
    = map (fun i => waitTime delay eb (a + Z.of_nat i)) (seq 0 (calls extra - 1)) ∧
    match result (attempt_loop setTimeout fn onRetry n delay eb t a lastError w tr) with
    | inl v =>
        ∃ w0, fn w0 = (inl v, world (attempt_loop setTimeout fn onRetry n delay eb
                                       t a lastError w tr))
    | inr Undefined =>
        t = O ∧ lastError = None ∧
        world (attempt_loop setTimeout fn onRetry n delay eb t a lastError w tr) = w
    | inr (Raised x) =>
        (t = O ∧ lastError = Some x) ∨
        (∃ e w0,
            fn w0 = (inr e, world (attempt_loop setTimeout fn onRetry n delay eb
                                     t a lastError w tr)) ∧
            x = NetworkError (failure_message n e) (Some [("originalError", DError e)]) ∧
            calls extra = t) ∨
        (∃ e a' w0,
            onRetry e a' w0
            = (Some x, world (attempt_loop setTimeout fn onRetry n delay eb
                                t a lastError w tr)))
    end.
Proof.
  revert a lastError w tr. induction t as [|t IH]; intros a lastError w tr Hturns.
  - exists []. cbn [attempt_loop trace result world fst snd].
    rewrite app_nil_r. split; [done|]. split; [done|]. split; [done|]. split; [done|].
    destruct lastError as [e|]; [by left | done].
  - destruct Hturns as [|Hturns]; [done|]. cbn [attempt_loop].
    destruct (fn w) as [[v|e] w1] eqn:Hfn.
    + exists [Call]. cbn [trace result world fst snd].
      split; [done|]. split; [cbn; lia|]. split; [cbn; lia|]. split; [done|].
      by exists w.
    + destruct (Z.eqb_spec a n) as [->|Hne].
      * exists [Call]. cbn [trace result world fst snd].
        split; [done|]. split; [cbn; lia|]. split; [cbn; lia|]. split; [done|].
        right; left. exists e, w. split; [done|]. split; [done|]. cbn. lia.
      * destruct (onRetry e a w1) as [[thrown|] w2] eqn:Hretry.
        -- exists [Call; OnRetry e a]. cbn [trace result world fst snd].
           split; [done|]. split; [cbn; lia|]. split; [cbn; lia|]. split; [done|].
           right; right. by exists e, a, w1.
        -- destruct (IH (a + 1) (Some e) (setTimeout (waitTime delay eb a) w2)
                       (tr ++ [Call; OnRetry e a; SetTimeout (waitTime delay eb a)])%list)
             as (extra & Htrace & Hcalls & Hsome & Hwaits & Hres); [right; lia|].
           assert (Ht : t ≠ O) by lia. specialize (Hsome Ht).
           exists ([Call; OnRetry e a; SetTimeout (waitTime delay eb a)] ++ extra)%list.
           split; [by rewrite Htrace, <- app_assoc|].
           rewrite calls_app, waits_app.
           change (calls [Call; OnRetry e a; SetTimeout (waitTime delay eb a)]) with 1%nat.
           change (waits [Call; OnRetry e a; SetTimeout (waitTime delay eb a)])
             with [waitTime delay eb a].
           split; [lia|]. split; [lia|]. split.
           ++ rewrite Hwaits.
              replace (1 + calls extra - 1)%nat with (S (calls extra - 1)) by lia.
              cbn [seq map app]. rewrite Z.add_0_r. f_equal.
              rewrite <- seq_shift, map_map. apply map_ext. intros i. f_equal. lia.
           ++ destruct (result _) as [v|[|x]]; [done | by destruct Hres | ].
              destruct Hres as [[? _]|[(e' & w0 & Hfn' & -> & Hn)|Hthrown]]; [done| |].
              ** right; left. exists e', w0. split; [done|]. split; [done|]. lia.
              ** by right; right.
Qed.

End RetryFacts.

Section RetryTheorems.
Import Errors Retry.
Context {W T : Type} (setTimeout : Z → W → W).
Implicit Types (config : Config.api) (fn : W → (T + error) * W)
  (options : RetryOptions (W := W)) (w : W).

Lemma schedule_shift (delay : Z) (eb : bool) (k : nat) :
  map (fun i => waitTime delay eb (1 + Z.of_nat i)) (seq 0 k) = schedule delay eb k.
Proof.
  unfold schedule. rewrite <- seq_shift, map_map. apply map_ext. intros i. f_equal. lia.
Qed.

Lemma sum_list_app (l1 l2 : list Z) : sum_list (l1 ++ l2) = sum_list l1 + sum_list l2.
Proof. unfold sum_list. induction l1 as [|x l1 IH]; simpl; lia. Qed.

Lemma sum_schedule (delay : Z) (eb : bool) (k : nat) :
  sum_list (schedule delay eb k)
  = if eb then delay * (2 ^ Z.of_nat k - 1) else delay * Z.of_nat k.
Proof.
  unfold schedule. induction k as [|k IH].
  - destruct eb; simpl; lia.
  - rewrite seq_S, map_app, sum_list_app, IH. cbn [map sum_list foldr plus].
    unfold waitTime. destruct eb; [|lia].
    replace (Z.of_nat (S k) - 1) with (Z.of_nat k) by lia.
    replace (Z.of_nat (S k)) with (Z.of_nat k + 1) by lia.
    rewrite Z.pow_add_r by lia. lia.
Qed.

Lemma withRetry_spec config fn options w :
  (calls (trace (withRetry setTimeout config fn options w))
   ≤ Z.to_nat (attempts_of config options))%nat ∧
  (1 ≤ attempts_of config options →
   (1 ≤ calls (trace (withRetry setTimeout config fn options w)))%nat) ∧
  waits (trace (withRetry setTimeout config fn options w))
  = schedule (delay_of config options) (backoff_of options)
      (calls (trace (withRetry setTimeout config fn options w)) - 1) ∧
  match result (withRetry setTimeout config fn options w) with
  | inl v =>
      1 ≤ attempts_of config options ∧
      ∃ w0, fn w0 = (inl v, world (withRetry setTimeout config fn options w))
  | inr Undefined =>
      attempts_of config options ≤ 0 ∧
      world (withRetry setTimeout config fn options w) = w ∧
      trace (withRetry setTimeout config fn options w) = []
  | inr (Raised x) =>
      1 ≤ attempts_of config options ∧
      ((∃ e w0,
           fn w0 = (inr e, world (withRetry setTimeout config fn options w)) ∧
           x = NetworkError (failure_message (attempts_of config options) e)
                 (Some [("originalError", DError e)]) ∧
           calls (trace (withRetry setTimeout config fn options w))
           = Z.to_nat (attempts_of config options)) ∨
       (∃ e a w0,
           onRetry_of options e a w0
           = (Some x, world (withRetry setTimeout config fn options w))))
  end.
Proof.
  unfold withRetry.
  destruct (Z.to_nat (attempts_of config options)) as [|t] eqn:Hturns.
  - cbn [attempt_loop trace result world fst snd calls waits omap length List.filter
         list_omap schedule seq map].
    split; [done|]. split; [lia|]. split; [done|]. split; [lia|done].
  - rewrite <- Hturns.
    destruct (attempt_loop_spec setTimeout fn (onRetry_of options)
                (attempts_of config options) (delay_of config options) (backoff_of options)
                (Z.to_nat (attempts_of config options)) 1 None w [])
      as (extra & Htrace & Hcalls & Hsome & Hwaits & Hres); [right; lia|].
    rewrite app_nil_l in Htrace. rewrite Htrace.
    split; [done|]. split; [intros _; apply Hsome; lia|].
    split; [by rewrite Hwaits, schedule_shift|].
    destruct (result _) as [v|[|x]].
    + split; [lia | done].
    + destruct Hres as (? & _). lia.
    + split; [lia|]. destruct Hres as [[? _]|[?|?]]; [lia | by left | by right].
Qed.



(** X17.  When [withRetry] resolves, the value is the one a call of [fn]
    resolved to, nothing runs after that call, and the calls made are
    between one and [attempts]. *)
Theorem withRetry_resolution config fn options w v :
  result (withRetry setTimeout config fn options w) = inl v →
  (∃ w0, fn w0 = (inl v, world (withRetry setTimeout config fn options w))) ∧
  (1 ≤ calls (trace (withRetry setTimeout config fn options w))
   ≤ Z.to_nat (attempts_of config options))%nat.
Proof.
  intros Hres.
  destruct (withRetry_spec config fn options w) as (Hcalls & Hsome & _ & Hcases).
  rewrite Hres in Hcases. destruct Hcases as [Hn Hfn].
  split; [done|]. split; [by apply Hsome | done].
Qed.

End RetryTheorems.

Section RetryWitnesses.
Import Errors Retry.

Example withRetry_flaky :
  withRetry idle default_config (flaky 2) no_options O
  = (inl 7, 3%nat,
     [Call; OnRetry (Error "ECONNRESET") 1; SetTimeout 1000;
      Call; OnRetry (Error "ECONNRESET") 2; SetTimeout 2000;
      Call]).
Proof. by vm_compute. Qed.

Lemma quiet_by_default (e : error) (a : Z) (w0 : nat) :
  fst (onRetry_of (W := nat) no_options e a w0) = None.
Proof. done. Qed.


Lemma withRetry_resolution_witness :
  result (withRetry idle default_config (flaky 2) no_options O) = inl 7 ∧
  (∃ w0, flaky 2 w0 = (inl 7, world (withRetry idle default_config (flaky 2) no_options O))) ∧
  (1 ≤ calls (trace (withRetry idle default_config (flaky 2) no_options O))
   ≤ Z.to_nat (attempts_of default_config (no_options (W := nat))))%nat.
Proof.
  assert (H : result (withRetry idle default_config (flaky 2) no_options O) = inl 7)
    by (by vm_compute).
  split; [exact H|].
  exact (withRetry_resolution idle default_config (flaky 2) no_options O 7 H).
Defined.

End RetryWitnesses.

Section Callers.
Import CacheManager.
Implicit Types (s : CacheManager.t) (d : filesystem) (ns key id : string).

Lemma set_resolved_acyclic ns id data options now s s' :
  set ns id data options now s = Resolved s' → acyclic data.
Proof.
  intros Hset Hcyclic. unfold set in Hset.
  destruct (generateFingerprint data); [|done].
  by rewrite stringify_entry_cyclic in Hset.
Qed.

Lemma set_resolved_stores ns id data options now s s' :
  set ns id data options now s = Resolved s' →
  fs.existsDir (disk s) ns = true →
  cached s' ns id now (ttl_of options) data.
Proof.
  intros Hset Hdir.
  destruct (set_stores ns id data options now s (set_resolved_acyclic _ _ _ _ _ _ _ Hset) Hdir)
    as (s'' & Hset' & Hcached).
  rewrite Hset in Hset'. by injection Hset' as <-.
Qed.

Lemma get_existsDir ns id acceptExpired now s ns' :
  fs.existsDir (disk (snd (get ns id acceptExpired now s))) ns' = fs.existsDir (disk s) ns'.
Proof. apply (step_existsDir s (OpGet ns id acceptExpired now)). Qed.

Lemma usable_Some data : truthy (JS.root data) = true → usable (Some data) = Some data.
Proof. unfold usable. by intros ->. Qed.

End Callers.

Section FetchQuestion.
Import Errors Retry LeetCode.
Context {W : Type} (now : W → Z) (setTimeout : Z → W → W)
  (axios : request → W → (response + error) * W)
  (JSON_parse : string → JS.payload + string).
Implicit Types (config : Config.api) (this : LeetCode.t) (requestBody : string) (w : W)
  (cache : CacheManager.t).

(** X18.  [fetchQuestion] rejects with a plain error (of [JSON.parse], of
    [set], or the [TypeError] of the handler), or else with a
    [LeetCodeError] without details whose message wraps the message of
    the [NetworkError] of [withRetry].  It never rejects with an
    [AuthError]: the handler tests [axios.isAxiosError] on what
    [withRetry] rejects with, which is never an error of axios. *)
Theorem fetchQuestion_failure config this requestBody w cache x :
  fst (fst (fetchQuestion now setTimeout axios JSON_parse config this requestBody w cache))
  = inr x →
  ((∃ m, x = Raised (Error m)) ∨
   (1 ≤ Config.retryAttempts config ∧
    ∃ e w0 w1,
      axios (questionRequest this requestBody) w0 = (inr e, w1) ∧
      x = Raised (LeetCodeError
                    ("Failed to fetch questions: "
                     ++ failure_message (Config.retryAttempts config) e)
                    None))) ∧
  (∀ m details, x ≠ Raised (AuthError m details)).
Proof.
  intros Hx.
  assert (Hcases :
    (∃ m, x = Raised (Error m)) ∨
    (1 ≤ Config.retryAttempts config ∧
     ∃ e w0 w1,
       axios (questionRequest this requestBody) w0 = (inr e, w1) ∧
       x = Raised (LeetCodeError
                     ("Failed to fetch questions: "
                      ++ failure_message (Config.retryAttempts config) e)
                     None)));
    [|split; [done|];
      destruct Hcases as [[m ->]|(_ & e & _ & _ & _ & ->)]; intros m' details'; discriminate].
  revert Hx. unfold fetchQuestion.
  destruct (JSON_parse requestBody) as [parsedBody|syntaxError];
    [|intros [= <-]; left; by eexists].
  destruct (CacheManager.get _ _ _ _ _) as [cachedData cache1].
  destruct (usable cachedData); [done|].
  destruct (result _) as [r|y] eqn:Hres.
  - destruct (CacheManager.set _ _ _ _ _ _); [done|].
    intros [= <-]. left. by eexists.
  - cbn [fst]. intros [= <-].
    pose proof (withRetry_spec setTimeout config (axios (questionRequest this requestBody))
                  (Options None None None (Some questionRetry)) w) as (_ & _ & _ & Hcases).
    rewrite Hres in Hcases. destruct y as [|y].
    + left. by eexists.
    + destruct Hcases as [Hn [(e & w0 & Hfn & -> & _)|(e & a & w0 & Hthrown)]]; [|done].
      right. split; [done|]. exists e, w0. eexists. split; [exact Hfn|]. done.
Qed.


End FetchQuestion.

Section GrindQuestions.
Import Errors Retry Grind.

Lemma existsb_title_url (questions : list GrindQuestion) (t u : string) :
  existsb (fun q => String.eqb (title q) t && String.eqb (url q) u) questions = true ↔
  In (t, u) (map (fun q => (title q, url q)) questions).
Proof.
  rewrite existsb_exists, in_map_iff. split.
  - intros (q & Hin & Hq). apply andb_true_iff in Hq as [Ht Hu].
    apply String.eqb_eq in Ht, Hu. exists q. by rewrite Ht, Hu.
  - intros (q & [= <- <-] & Hin). exists q. split; [done|].
    by rewrite !String.eqb_refl.
Qed.

Lemma or_else_nonempty (a b : string) : b ≠ "" → or_else a b ≠ "".
Proof. unfold or_else. by destruct (String.eqb_spec a ""). Qed.

Lemma push_question_well_collected questions content :
  well_collected questions → well_collected (push_question questions content).
Proof.
  intros [Hnd Hall]. destruct content as [c|]; [|done]. unfold push_question.
  destruct (String.eqb_spec (item_title c) ""); [done|].
  destruct (String.eqb_spec (item_url c) ""); [done|]. cbn [negb andb].
  destruct (existsb _ questions) eqn:Hex; [done|].
  split.
  - rewrite map_app. cbn [map title url]. apply NoDup_ListNoDup.
    apply NoDup_app; split; [by apply NoDup_ListNoDup|split].
    + intros [t u] Hin [= -> ->]%list_elem_of_singleton.
      apply list_elem_of_In, existsb_title_url in Hin. congruence.
    + apply NoDup_singleton.
  - apply Forall_app. split; [done|]. constructor; [|done]. cbn [title url category].
    split; [done|]. split; [done|]. by apply or_else_nonempty.
Qed.

Lemma push_question_keeps questions content q :
  In q questions → In q (push_question questions content).
Proof.
  intros Hin. destruct content as [c|]; [|done]. unfold push_question.
  destruct (_ && _); [|done]. destruct (existsb _ _); [done|].
  apply in_or_app. by left.
Qed.

Lemma collect_keeps contents questions q :
  In q questions → In q (fold_left push_question contents questions).
Proof.
  revert questions. induction contents as [|c contents IH]; intros questions Hin; [done|].
  cbn [fold_left]. by apply IH, push_question_keeps.
Qed.

Lemma collect_well_collected contents questions :
  well_collected questions → well_collected (fold_left push_question contents questions).
Proof.
  revert questions. induction contents as [|c contents IH]; intros questions Hq; [done|].
  cbn [fold_left]. by apply IH, push_question_well_collected.
Qed.

Lemma collect_covers contents questions c :
  In (Some c) contents → item_title c ≠ "" → item_url c ≠ "" →
  ∃ q, In q (fold_left push_question contents questions) ∧
       title q = item_title c ∧ url q = item_url c.
Proof.
  revert questions. induction contents as [|c0 contents IH]; intros questions Hin Ht Hu; [done|].
  cbn [fold_left]. destruct Hin as [->|Hin]; [|by apply IH].
  assert (Hq : ∃ q, In q (push_question questions (Some c)) ∧
                    title q = item_title c ∧ url q = item_url c).
  { unfold push_question.
    destruct (String.eqb_spec (item_title c) ""); [done|].
    destruct (String.eqb_spec (item_url c) ""); [done|]. cbn [negb andb].
    destruct (existsb _ questions) eqn:Hex.
    - apply existsb_exists in Hex as (q & Hin & Hq).
      apply andb_true_iff in Hq as [Hqt Hqu]. apply String.eqb_eq in Hqt, Hqu.
      by exists q.
    - eexists. split; [apply in_or_app; right; by left | done]. }
  destruct Hq as (q & Hin & Hqt & Hqu). exists q. split; [|done].
  by apply collect_keeps.
Qed.

Lemma collect_from contents questions q :
  In q (fold_left push_question contents questions) →
  In q questions ∨
  ∃ c, In (Some c) contents ∧ title q = item_title c ∧ url q = item_url c ∧
       difficulty_of q = item_difficulty c.
Proof.
  revert questions. induction contents as [|c0 contents IH]; intros questions Hin; [by left|].
  cbn [fold_left] in Hin. apply IH in Hin as [Hin|(c & Hc & Hq)].
  - destruct c0 as [c0|]; [|by left]. unfold push_question in Hin.
    destruct (_ && _); [|by left]. destruct (existsb _ _); [by left|].
    apply in_app_or in Hin as [Hin|[<-|[]]]; [by left|].
    right. exists c0. split; [by left | done].
  - right. exists c. split; [by right | done].
Qed.

(** X20.  The questions built by the loop of [getQuestions]: no two have
    the same title and url; none has an empty title, url or category;
    every list item with a title and a url is represented; and every
    question comes from a list item. *)
Theorem collect_distinct (contents : list (option listitem)) :
  List.NoDup (map (fun q => (title q, url q)) (collect contents)) ∧
  Forall (fun q => title q ≠ "" ∧ url q ≠ "" ∧ category q ≠ "") (collect contents) ∧
  (∀ c, In (Some c) contents → item_title c ≠ "" → item_url c ≠ "" →
        ∃ q, In q (collect contents) ∧ title q = item_title c ∧ url q = item_url c) ∧
  (∀ q, In q (collect contents) →
        ∃ c, In (Some c) contents ∧ title q = item_title c ∧ url q = item_url c ∧
             difficulty_of q = item_difficulty c).
Proof.
  unfold collect.
  destruct (collect_well_collected contents []) as [Hnd Hall]; [split; constructor|].
  split; [done|]. split; [done|]. split; [intros c; apply collect_covers|].
  intros q Hin. by destruct (collect_from contents [] q Hin) as [[]|?].
Qed.

Lemma forward_from_objects (l : nat) (questions : list GrindQuestion) :
  forward_from l (map question_object questions) = true.
Proof.
  revert l. induction questions as [|q questions IH]; intros l; [done|].
  cbn [map forward_from]. by rewrite IH.
Qed.

Lemma questions_payload_acyclic (questions : list GrindQuestion) :
  acyclic (questions_payload questions).
Proof.
  apply forward_only_acyclic. unfold forward_only, questions_payload.
  cbn [JS.store forward_from children]. rewrite forward_from_objects, andb_true_r.
  apply forallb_forall. intros v Hv. apply in_map_iff in Hv as (i & <- & _). done.
Qed.

Context {W : Type} (now : W → Z) (browse : string → W → browsing * W).


End GrindQuestions.

Section ClearAll.
Import CacheManager Terminal.

Lemma invalidate_namespace_resolved ns s :
  long_keys s →
  invalidate ns None s
  = Resolved (Make (memoryCache s) (currentMemorySize s)
                (if fs.existsDir (disk s) ns
                 then fs.mkdirSync (fs.rmSync (disk s) ns) ns
                 else disk s)).
Proof. intros Hlong. unfold invalidate. cbn [given]. by apply purge_loop_long_keys. Qed.

Lemma loadMetadata_recreated d ns ns' :
  loadMetadata (if fs.existsDir d ns then fs.mkdirSync (fs.rmSync d ns) ns else d) ns'
  = if decide (ns = ns') then ∅ else loadMetadata d ns'.
Proof.
  unfold loadMetadata. destruct (fs.existsDir d ns) eqn:Hdir.
  - rewrite metadataFile_recreated. by case_decide.
  - case_decide as H; [|done]. subst ns'. by rewrite metadataFile_no_directory.
Qed.

Lemma entryFile_wiped d ns ns' key :
  fs.entryFile (if fs.existsDir d ns then fs.mkdirSync (fs.rmSync d ns) ns else d) ns' key
  = if decide (ns = ns') then None else fs.entryFile d ns' key.
Proof.
  destruct (fs.existsDir d ns) eqn:Hdir.
  - apply entryFile_recreated.
  - case_decide as H; [|done]. subst ns'. by apply entryFile_no_directory.
Qed.

(** X22.  On every state reached from a fresh instance [clearAllCaches]
    resolves; afterwards no entry file is left in the three namespaces
    and [getCacheStatus] reports no entry in any of them, while the
    memory tier and its figures in the report are as before. *)
Theorem clearAllCaches_report (d : filesystem) (ops : list operation) (now : Z) :
  ∃ s',
    clearAllCaches (run ops (create d)) = Resolved s' ∧
    (∀ ns key, In ns subdirs → fs.entryFile (disk s') ns key = None) ∧
    (∀ ns st,
        In (ns, st) (CacheStatusReport.fileCache (getCacheStatus None now s')) →
        st = NamespaceCacheStatus.Make 0 0 0 None None) ∧
    memoryCache s' = memoryCache (run ops (create d)) ∧
    CacheStatusReport.memoryCache (getCacheStatus None now s')
    = CacheStatusReport.memoryCache (getCacheStatus None now (run ops (create d))).
Proof.
  assert (Hlong : long_keys (run ops (create d))) by (apply long_keys_run; constructor).
  set (s := run ops (create d)) in *.
  unfold clearAllCaches.
  rewrite (invalidate_namespace_resolved "grind75" s Hlong).
  rewrite invalidate_namespace_resolved by done. cbn [memoryCache currentMemorySize disk].
  rewrite invalidate_namespace_resolved by done. cbn [memoryCache currentMemorySize disk].
  set (d1 := if fs.existsDir (disk s) "grind75"
             then fs.mkdirSync (fs.rmSync (disk s) "grind75") "grind75" else disk s).
  set (d2 := if fs.existsDir d1 "leetcode"
             then fs.mkdirSync (fs.rmSync d1 "leetcode") "leetcode" else d1).
  set (d3 := if fs.existsDir d2 "companies"
             then fs.mkdirSync (fs.rmSync d2 "companies") "companies" else d2).
  eexists. split; [reflexivity|]. cbn [memoryCache currentMemorySize disk].
  assert (Hmeta : ∀ ns, In ns subdirs → loadMetadata d3 ns = ∅).
  { intros ns Hns. unfold d3, d2, d1. rewrite !loadMetadata_recreated.
    repeat case_decide; try done.
    destruct Hns as [<-|[<-|[<-|[]]]]; done. }
  split; [|split; [|done]].
  - intros ns key Hns. unfold d3, d2, d1. rewrite !entryFile_wiped.
    repeat case_decide; try done.
    destruct Hns as [<-|[<-|[<-|[]]]]; done.
  - intros ns st Hin. unfold getCacheStatus in Hin.
    cbn [given CacheStatusReport.fileCache disk] in Hin.
    apply in_map_iff in Hin as (ns0 & [= <- <-] & Hns).
    unfold namespaceStatus. rewrite (Hmeta _ Hns). by rewrite map_to_list_empty.
Qed.

End ClearAll.

Section GrindKeys.
Import Grind.

(** X23.  The instances made for the two groupings with the same weeks,
    hours and difficulties have different cache keys and different
    urls. *)
Theorem grouping_keys_differ (weeks_ hours : option Z) (difficulties : option (list difficulty)) :
  _cacheKey (new weeks_ hours weeks difficulties)
  ≠ _cacheKey (new weeks_ hours topics difficulties) ∧
  _url (new weeks_ hours weeks difficulties) ≠ _url (new weeks_ hours topics difficulties).
Proof.
  unfold new. cbn [_cacheKey _url]. split; intros Heq.
  - do 9 apply append_inv_head in Heq. discriminate Heq.
  - do 4 apply append_inv_head in Heq.
    apply (f_equal (fun s => String.length s)) in Heq.
    rewrite !string_length_append in Heq. simpl in Heq. lia.
Qed.

End GrindKeys.

Section CallerWitnesses.
Import Errors Retry.

Lemma fetchQuestion_failure_witness :
  fst (fst (LeetCode.fetchQuestion (fun w => w) elapse unauthorized accepting default_config
              session "{}" 0 fresh))
  = inr (Raised (LeetCodeError
                   ("Failed to fetch questions: Operation failed after 3 attempts: "
                    ++ "Request failed with status code 401")
                   None)) ∧
  (∀ m details,
      Raised (LeetCodeError
                ("Failed to fetch questions: Operation failed after 3 attempts: "
                 ++ "Request failed with status code 401")
                None)
      ≠ Raised (AuthError m details)).
Proof.
  assert (H : fst (fst (LeetCode.fetchQuestion (fun w => w) elapse unauthorized accepting
                          default_config session "{}" 0 fresh))
              = inr (Raised (LeetCodeError
                               ("Failed to fetch questions: Operation failed after 3 attempts: "
                                ++ "Request failed with status code 401")
                               None))) by (by vm_compute).
  split; [exact H|].
  exact (proj2 (fetchQuestion_failure (fun w => w) elapse unauthorized accepting
                  default_config session "{}" 0 fresh _ H)).
Defined.



Example eight_weeks_key :
  Grind._cacheKey eight_weeks
  = "{" ++ JS.quote "weeks" ++ ":8," ++ JS.quote "hours" ++ ":8," ++ JS.quote "group" ++ ":"
    ++ JS.quote "weeks" ++ "," ++ JS.quote "difficulties" ++ ":[]}".
Proof. by vm_compute. Qed.

End CallerWitnesses.

Section Records.
Import CacheManager.
Implicit Types (d : filesystem) (s : CacheManager.t) (ns key id : string).

Lemma recorded_empty : recorded ∅.
Proof. intros ns key bytes e Hfile. by rewrite entryFile_no_directory in Hfile. Qed.

Lemma recorded_ensureCacheDirectory d : recorded d → recorded (ensureCacheDirectory d).
Proof.
  intros Hd ns key bytes e. rewrite entryFile_ensureCacheDirectory. unfold loadMetadata.
  rewrite metadataFile_ensureCacheDirectory. apply Hd.
Qed.

Lemma recorded_unlink d ns key : recorded d → recorded (fs.unlinkEntryFile d ns key).
Proof.
  intros Hd ns' key' bytes e. rewrite entryFile_unlink, loadMetadata_unlink.
  case_decide; [done | apply Hd].
Qed.

Lemma recorded_touch d ns key r now :
  loadMetadata d ns !! key = Some r →
  recorded d →
  recorded (saveMetadata d ns (<[key := CacheMetadata.with_accessed r now]> (loadMetadata d ns))).
Proof.
  intros Hr Hd ns' key' bytes e. rewrite entryFile_saveMetadata, loadMetadata_save.
  intros Hfile. destruct (Hd _ _ _ _ Hfile) as (r' & Hr' & Hfields).
  case_decide as H; [|by exists r'].
  destruct H as [<- _]. destruct (decide (key = key')) as [<-|Hne].
  - rewrite lookup_insert_eq. eexists. split; [done|].
    assert (r' = r) as -> by congruence. done.
  - rewrite lookup_insert_ne by done. by exists r'.
Qed.

Lemma recorded_get_file ns key acceptExpired now s :
  recorded (disk s) → recorded (disk (snd (get_file ns key acceptExpired now s))).
Proof.
  intros Hd. unfold get_file.
  destruct (fs.entryFile (disk s) ns key) as [[bytes entry|bytes]|]; [|done..].
  destruct (_ || _); cbn [snd disk]; [|by apply recorded_unlink].
  rewrite addToMemory_disk.
  destruct (loadMetadata (disk s) ns !! key) as [r|] eqn:Hr; cbn [disk].
  - by apply recorded_touch.
  - by rewrite addToMemory_disk.
Qed.

Lemma recorded_set ns id data options now s :
  recorded (disk s) → recorded (disk (state_of (set ns id data options now s))).
Proof.
  intros Hd. unfold set. destruct (generateFingerprint data) as [fp|]; [|done].
  destruct (stringify_entry _) as [content|]; [|done].
  destruct (fs.writeEntryFile _ _ _ _) as [d1|] eqn:Hwrite; [|done].
  cbn [state_of]. rewrite addToMemory_disk. cbn [disk].
  assert (Hdir : fs.existsDir d1 ns = true).
  { rewrite (existsDir_write _ _ _ _ _ _ Hwrite).
    destruct (fs.existsDir (disk s) ns) eqn:Hdir; [done|].
    by rewrite (proj2 (writeEntryFile_None (disk s) ns _ _) Hdir) in Hwrite. }
  intros ns' key' bytes e.
  rewrite entryFile_saveMetadata, (entryFile_write _ _ _ _ _ _ _ Hwrite), loadMetadata_save,
    ?(loadMetadata_write _ _ _ _ _ ns Hwrite), ?(loadMetadata_write _ _ _ _ _ ns' Hwrite).
  destruct (decide (ns = ns' ∧ generateKey ns id = key')) as [[<- <-]|Hother].
  - intros [= <- <-]. rewrite decide_True by done. rewrite lookup_insert_eq.
    eexists. split; [done|]. cbn. split; [done|]. split; [done|].
    unfold JS.byteLength. lia.
  - intros Hfile. destruct (Hd _ _ _ _ Hfile) as (r & Hr & Hfields).
    case_decide as H; [|by exists r]. destruct H as [<- _].
    rewrite lookup_insert_ne by (intros <-; tauto). by exists r.
Qed.

Lemma recorded_invalidate ns identifier s :
  recorded (disk s) → recorded (disk (state_of (invalidate ns identifier s))).
Proof.
  intros Hd. unfold invalidate. destruct (given identifier) as [id|]; cbn [state_of disk].
  - set (d1 := match fs.entryFile (disk s) ns (generateKey ns id) with
               | Some _ => fs.unlinkEntryFile (disk s) ns (generateKey ns id)
               | None => disk s
               end).
    assert (Hnone : fs.entryFile d1 ns (generateKey ns id) = None).
    { unfold d1. destruct (fs.entryFile (disk s) ns (generateKey ns id)) eqn:Hfile; [|done].
      rewrite entryFile_unlink. by rewrite decide_True. }
    assert (Hd1 : recorded d1).
    { unfold d1. destruct (fs.entryFile (disk s) ns (generateKey ns id)); [|done].
      by apply recorded_unlink. }
    intros ns' key' bytes e. rewrite entryFile_saveMetadata, loadMetadata_save.
    intros Hfile. destruct (Hd1 _ _ _ _ Hfile) as (r & Hr & Hfields).
    case_decide as H; [|by exists r]. destruct H as [<- _].
    rewrite lookup_delete_ne by (intros <-; congruence). by exists r.
  - rewrite purge_loop_disk. cbn [disk].
    intros ns' key' bytes e. rewrite entryFile_wiped, loadMetadata_recreated.
    case_decide; [done | apply Hd].
Qed.

Lemma loadMetadata_cleanup_namespace now d ns ns' :
  loadMetadata (cleanup_namespace now d ns) ns'
  = if decide (ns = ns') then valid_records now (loadMetadata d ns) else loadMetadata d ns'.
Proof.
  unfold loadMetadata. rewrite cleanup_namespace_metadataFile.
  case_decide as H; [|done]. subst ns'.
  destruct (fs.metadataFile d ns) as [[m|]|]; cbn [sweep_document]; try done;
    by rewrite valid_records_empty.
Qed.

Lemma recorded_cleanup_namespace now d ns :
  recorded d → recorded (cleanup_namespace now d ns).
Proof.
  intros Hd ns' key' bytes e.
  rewrite cleanup_namespace_entryFile, loadMetadata_cleanup_namespace.
  destruct (decide (ns = ns')) as [<-|Hne].
  - destruct (decide (ns = ns ∧ swept now (loadMetadata d ns) key' = true)) as [|Hkept];
      [done|].
    intros Hfile. destruct (Hd _ _ _ _ Hfile) as (r & Hr & Hfields).
    exists r. split; [|done]. unfold valid_records. apply map_lookup_filter_Some.
    split; [done|]. cbn. unfold swept in Hkept. rewrite Hr in Hkept.
    destruct (expired_record now r); [tauto | done].
  - rewrite decide_False by tauto. apply Hd.
Qed.

Lemma recorded_step s o : recorded (disk s) → recorded (disk (step s o)).
Proof.
  intros Hd. destruct o as [ns id a now|ns id data options now|ns identifier|now]; cbn [step].
  - unfold get. destruct (JsMap.get _ (memoryCache s)) as [memoryEntry|];
      [|by apply recorded_get_file].
    destruct (_ || _); [done|]. by apply recorded_get_file.
  - by apply recorded_set.
  - by apply recorded_invalidate.
  - unfold cleanup. cbn [disk]. unfold subdirs. cbn [fold_left].
    by do 3 apply recorded_cleanup_namespace.
Qed.

Lemma recorded_run (ops : list operation) s :
  recorded (disk s) → recorded (disk (run ops s)).
Proof.
  revert s. induction ops as [|o ops IH]; intros s Hd; cbn [run fold_left]; [done|].
  by apply IH, recorded_step.
Qed.



End Records.

Section RecordScenarios.
Import CacheManager.



End RecordScenarios.
